(** * Scope tables and value paths of the Gno VM (gnovm/pkg/gnolang/nodes.go)

    A shallow embedding of the static scope machinery of [nodes.go]:
    value paths and their validation, the per-block symbol table
    ([StaticBlock]) with [Define2] / [Predefine] / [GetLocalIndex], name
    resolution along the parent chain ([GetPathForName]) and its inverse
    ([GetBlockNodeForPath]), the [crossing()] marker test on function bodies
    and the package-name rule.

    Conventions.
    - Go panics are the [Panic] outcome of the [res] monad; the message is the
      literal of the source (formatted arguments are dropped).
    - Block nodes are heap objects that alias each other through [Parent] and
      [Source] pointers, so they live in a store [gmap loc BlockNode]; a
      [BlockNode] interface value is an [option loc], [None] being Go's nil.
    - [uint8] and [uint16] values are integers in [Z]; every conversion of the
      source is written as a reduction modulo 2^8 or 2^16. *)

From Stdlib Require Import Ascii String ZArith Lia.
From stdpp Require Import base option list strings gmap.

Local Open Scope string_scope.
Local Open Scope list_scope.
Local Open Scope Z_scope.

(** ** Outcomes *)

(** A call returns, panics, or (for the one unbounded loop of the file, the
    ancestor walk of [GetPathForName]) is cut off for lack of fuel. *)
Inductive res (A : Type) : Type :=
| Ok (a : A)
| Panic (msg : string)
| OutOfFuel.

Arguments Ok {A} a.
Arguments Panic {A} msg.
Arguments OutOfFuel {A}.

#[global] Instance res_bind : MBind res := fun A B k m =>
  match m with
  | Ok a => k a
  | Panic msg => Panic msg
  | OutOfFuel => OutOfFuel
  end.

#[global] Instance res_ret : MRet res := fun A a => Ok a.

Definition panics {A : Type} (m : res A) : Prop :=
  exists msg, m = Panic msg.

Definition returns {A : Type} (m : res A) : Prop :=
  exists a, m = Ok a.

Definition uint8 (z : Z) : Z := z mod 256.
Definition uint16 (z : Z) : Z := z mod 65536.

Abbreviation Name := string.

(** ** Value paths *)

Module VP.

Definition VPType : Type := Z.

Definition VPUverse : VPType := 0x00.
Definition VPBlock : VPType := 0x01.
Definition VPField : VPType := 0x02.
Definition VPValMethod : VPType := 0x03.
Definition VPPtrMethod : VPType := 0x04.
Definition VPInterface : VPType := 0x05.
Definition VPSubrefField : VPType := 0x06.
Definition VPDerefField : VPType := 0x12.
Definition VPDerefValMethod : VPType := 0x13.
Definition VPDerefPtrMethod : VPType := 0x14.
Definition VPDerefInterface : VPType := 0x15.

Record ValuePath : Type := mkValuePath {
  Type_ : VPType;
  Depth : Z;
  Index : Z;
  PName : Name
}.

Definition MaxValuePathDepth : Z := 127.

Definition validateDepth (vp : ValuePath) : res unit :=
  if MaxValuePathDepth <? Depth vp
  then Panic "exceeded maximum depth"
  else Ok tt.

(** [SetDepth] stores the depth and then validates; the caller sees the
    updated path only when validation did not panic. *)
Definition SetDepth (vp : ValuePath) (d : Z) : res ValuePath :=
  let vp' := mkValuePath (Type_ vp) d (Index vp) (PName vp) in
  _ ← validateDepth vp';
  Ok vp'.

Definition require (b : bool) (msg : string) : res unit :=
  if b then Ok tt else Panic msg.

Definition Validate (vp : ValuePath) : res unit :=
  _ ← validateDepth vp;
  let t := Type_ vp in
  if t =? VPUverse then
    require (Depth vp =? 0) "uverse value path must have depth 0"
  else if t =? VPBlock then
    Ok tt
  else if t =? VPField then
    require (Depth vp <=? 1) "field value path must have depth 0 or 1"
  else if t =? VPValMethod then
    require (Depth vp =? 0) "method value path must have depth 0"
  else if t =? VPPtrMethod then
    require (Depth vp =? 0) "ptr receiver method value path must have depth 0"
  else if t =? VPInterface then
    _ ← require (Depth vp =? 0) "interface method value path must have depth 0";
    require (negb (String.eqb (PName vp) "")) "interface value path must have name"
  else if t =? VPSubrefField then
    require (Depth vp <=? 3) "subref field value path must have depth 0, 1, 2, or 3"
  else if t =? VPDerefField then
    require (Depth vp <=? 3) "deref field value path must have depth 0, 1, 2, or 3"
  else if t =? VPDerefValMethod then
    require (Depth vp =? 0) "(deref) method value path must have depth 0"
  else if t =? VPDerefPtrMethod then
    require (Depth vp =? 0) "(deref) ptr receiver method value path must have depth 0"
  else if t =? VPDerefInterface then
    _ ← require (Depth vp =? 0) "(deref) interface method value path must have depth 0";
    require (negb (String.eqb (PName vp) "")) "(deref) interface value path must have name"
  else
    Panic "unexpected value path type".

Definition NewValuePath (t : VPType) (depth index : Z) (n : Name) : res ValuePath :=
  let vp := mkValuePath t depth index n in
  _ ← Validate vp;
  Ok vp.

Definition NewValuePathUverse (index : Z) (n : Name) : res ValuePath :=
  NewValuePath VPUverse 0 index n.

Definition NewValuePathBlock (depth index : Z) (n : Name) : res ValuePath :=
  NewValuePath VPBlock depth index n.

Definition NewValuePathField (depth index : Z) (n : Name) : res ValuePath :=
  NewValuePath VPField depth index n.

Definition NewValuePathValMethod (index : Z) (n : Name) : res ValuePath :=
  NewValuePath VPValMethod 0 index n.

Definition NewValuePathPtrMethod (index : Z) (n : Name) : res ValuePath :=
  NewValuePath VPPtrMethod 0 index n.

Definition NewValuePathInterface (n : Name) : res ValuePath :=
  NewValuePath VPInterface 0 0 n.

Definition NewValuePathSubrefField (depth index : Z) (n : Name) : res ValuePath :=
  NewValuePath VPSubrefField depth index n.

Definition NewValuePathDerefField (depth index : Z) (n : Name) : res ValuePath :=
  NewValuePath VPDerefField depth index n.

Definition NewValuePathDerefValMethod (index : Z) (n : Name) : res ValuePath :=
  NewValuePath VPDerefValMethod 0 index n.

Definition NewValuePathDerefPtrMethod (index : Z) (n : Name) : res ValuePath :=
  NewValuePath VPDerefPtrMethod 0 index n.

Definition NewValuePathDerefInterface (n : Name) : res ValuePath :=
  NewValuePath VPDerefInterface 0 0 n.

Definition IsBlockBlankPath (vp : ValuePath) : bool :=
  (Type_ vp =? VPBlock) && (Depth vp =? 0) && (Index vp =? 0).

(** The value paths that the constructors and [SetDepth] hand out. *)
Inductive Constructed : ValuePath -> Prop :=
| by_NewValuePath t d i n vp :
    NewValuePath t d i n = Ok vp -> Constructed vp
| by_Uverse i n vp : NewValuePathUverse i n = Ok vp -> Constructed vp
| by_Block d i n vp : NewValuePathBlock d i n = Ok vp -> Constructed vp
| by_Field d i n vp : NewValuePathField d i n = Ok vp -> Constructed vp
| by_ValMethod i n vp : NewValuePathValMethod i n = Ok vp -> Constructed vp
| by_PtrMethod i n vp : NewValuePathPtrMethod i n = Ok vp -> Constructed vp
| by_Interface n vp : NewValuePathInterface n = Ok vp -> Constructed vp
| by_SubrefField d i n vp :
    NewValuePathSubrefField d i n = Ok vp -> Constructed vp
| by_DerefField d i n vp :
    NewValuePathDerefField d i n = Ok vp -> Constructed vp
| by_DerefValMethod i n vp :
    NewValuePathDerefValMethod i n = Ok vp -> Constructed vp
| by_DerefPtrMethod i n vp :
    NewValuePathDerefPtrMethod i n = Ok vp -> Constructed vp
| by_DerefInterface n vp : NewValuePathDerefInterface n = Ok vp -> Constructed vp
| by_SetDepth vp0 d vp : SetDepth vp0 d = Ok vp -> Constructed vp.

End VP.

(** ** Package names: [rePkgName] and [validatePkgName] *)

Module PkgName.

(** The fragment of Go's [regexp] syntax that [rePkgName] is written in.
    A Go string is a byte sequence; the classes of [rePkgName] contain ASCII
    bytes only, and a byte of a multi-byte (or invalid) UTF-8 sequence belongs
    to none of them, so matching byte by byte agrees with matching rune by
    rune. *)
Inductive regex : Type :=
| Void
| Eps
| Class (ranges : list (ascii * ascii))
| Cat (r1 r2 : regex)
| Alt (r1 r2 : regex)
| Star (r : regex)
| Plus (r : regex).

Definition in_range (c : ascii) (rg : ascii * ascii) : bool :=
  ((N_of_ascii (fst rg) <=? N_of_ascii c) && (N_of_ascii c <=? N_of_ascii (snd rg)))%N.

Definition in_class (c : ascii) (ranges : list (ascii * ascii)) : bool :=
  existsb (in_range c) ranges.

Fixpoint nullable (r : regex) : bool :=
  match r with
  | Void => false
  | Eps => true
  | Class _ => false
  | Cat r1 r2 => nullable r1 && nullable r2
  | Alt r1 r2 => nullable r1 || nullable r2
  | Star _ => true
  | Plus r => nullable r
  end.

Fixpoint deriv (c : ascii) (r : regex) : regex :=
  match r with
  | Void => Void
  | Eps => Void
  | Class rs => if in_class c rs then Eps else Void
  | Cat r1 r2 =>
      if nullable r1
      then Alt (Cat (deriv c r1) r2) (deriv c r2)
      else Cat (deriv c r1) r2
  | Alt r1 r2 => Alt (deriv c r1) (deriv c r2)
  | Star r => Cat (deriv c r) (Star r)
  | Plus r => Cat (deriv c r) (Star r)
  end.

(** Whole-text match: what [MatchString] decides for a pattern enclosed in
    [^] and [$] (without the [m] flag, [$] is the end of the text). *)
Fixpoint fullmatch (r : regex) (s : string) : bool :=
  match s with
  | EmptyString => nullable r
  | String c s' => fullmatch (deriv c r) s'
  end.

Definition lower : list (ascii * ascii) := [("a", "z")]%char.
Definition word : list (ascii * ascii) := [("a", "z"); ("0", "9"); ("_", "_")]%char.

(** [regexp.MustCompile(`^[a-z][a-z0-9_]+$`)], anchors handled by
    [fullmatch]. *)
Definition rePkgName : regex := Cat (Class lower) (Plus (Class word)).

Definition MatchString (r : regex) (s : string) : bool := fullmatch r s.

(** [validatePkgName]: [None] is the nil error. *)
Definition validatePkgName (name : string) : option string :=
  if negb (MatchString rePkgName name)
  then Some "cannot create package with invalid name"
  else None.

(** The rule in the words of the specification: "starts with a lowercase
    letter, remaining characters lowercase letters/digits/underscore". *)
Definition is_lower (c : ascii) : bool := in_class c lower.
Definition is_word (c : ascii) : bool := in_class c word.

Fixpoint all_chars (p : ascii -> bool) (s : string) : bool :=
  match s with
  | EmptyString => true
  | String c s' => p c && all_chars p s'
  end.

Definition spec_rule (s : string) : bool :=
  match s with
  | EmptyString => false
  | String c rest => is_lower c && all_chars is_word rest
  end.

(** *** [ReadMemPackageFromList] *)

Record MemFile : Type := mkMemFile { FName : string; FBody : string }.

Record MemPackage : Type := mkMemPackage {
  MPName : string;
  MPPath : string;
  MPFiles : list MemFile
}.

Fixpoint has_prefix (p s : string) : bool :=
  match p, s with
  | EmptyString, _ => true
  | String a p', String b s' => if Ascii.eqb a b then has_prefix p' s' else false
  | String _ _, EmptyString => false
  end.

Fixpoint has_suffix (suf s : string) : bool :=
  if String.eqb suf s then true
  else match s with
       | EmptyString => false
       | String _ s' => has_suffix suf s'
       end.

Fixpoint take_bytes (k : nat) (s : string) : string :=
  match k, s with
  | O, _ => EmptyString
  | S k', String c s' => String c (take_bytes k' s')
  | S _, EmptyString => EmptyString
  end.

Section ReadMemPackage.

(** The file system, the Go parser and [gnovm.MemPackage.IsEmpty] are outside
    [nodes.go]; they are the parameters of this section. [inl] is a non-nil
    error. *)
Variable ReadFile : string -> string + string.
Variable Base : string -> string.
Variable PackageNameFromFileBody : string -> string -> string + Name.
Variable IsEmpty : MemPackage -> bool.

(** The body of the [for _, fpath := range list] loop, threading [pkgName]
    and [memPkg.Files]. *)
Fixpoint readFiles (paths : list string) (pkgName : Name) (files : list MemFile)
  : string + (Name * list MemFile) :=
  match paths with
  | [] => inr (pkgName, files)
  | fpath :: rest =>
      let fname := Base fpath in
      match ReadFile fpath with
      | inl err => inl err
      | inr bz =>
          let named :=
            if String.eqb pkgName "" && has_suffix ".gno" fname then
              match PackageNameFromFileBody fname bz with
              | inl err => inl err
              | inr pn =>
                  if has_suffix "_test" pn
                  then inr (take_bytes (String.length pn - String.length "_test")%nat pn)
                  else inr pn
              end
            else inr pkgName in
          match named with
          | inl err => inl err
          | inr pkgName' => readFiles rest pkgName' (files ++ [mkMemFile fname bz])
          end
      end
  end.

Definition ReadMemPackageFromList (paths : list string) (pkgPath : string)
  : string + MemPackage :=
  match readFiles paths "" [] with
  | inl err => inl err
  | inr (pkgName, files) =>
      let memPkg := mkMemPackage pkgName pkgPath files in
      if negb (IsEmpty memPkg) then
        match validatePkgName pkgName with
        | Some err => inl err
        | None => inr memPkg
        end
      else inr memPkg
  end.

End ReadMemPackage.

End PkgName.

(** ** Program tree: expressions, statements, and the [crossing()] marker *)

Module Syntax.

(** [type Word int]: operator and keyword codes. *)
Definition Word : Type := Z.

Inductive NameExprType : Type :=
| NameExprTypeNormal
| NameExprTypeDefine
| NameExprTypeHeapDefine
| NameExprTypeHeapUse
| NameExprTypeHeapClosure.

Inductive TypeExprKind : Type :=
| FieldTypeExpr
| ArrayTypeExpr
| SliceTypeExpr
| InterfaceTypeExpr
| ChanTypeExpr
| FuncTypeExpr
| MapTypeExpr
| StructTypeExpr
| constTypeExpr.

(** The [Expr] and [Stmt] interfaces as closed sums over the node structs
    that implement them.  A field that the source documents as "or nil" is an
    [option]; attributes, static blocks and preprocessing annotations of the
    structs are left out, the sub-trees are kept.  Type expressions, which are
    also [Expr]s, are one constructor carrying their kind and sub-expressions. *)
#[local] Unset Elimination Schemes.
Inductive Expr : Type :=
| NameExpr (path : VP.ValuePath) (name : Name) (ty : NameExprType)
| BasicLitExpr (kind : Word) (value : string)
| BinaryExpr (left : Expr) (op : Word) (right : Expr)
| ECall (cx : CallExpr)
| IndexExpr (x index : Expr) (hasOK : bool)
| SelectorExpr (x : Expr) (path : VP.ValuePath) (sel : Name)
| SliceExpr (x : Expr) (low high max : option Expr)
| StarExpr (x : Expr)
| RefExpr (x : Expr)
| TypeAssertExpr (x type : Expr) (hasOK : bool)
| UnaryExpr (x : Expr) (op : Word)
| CompositeLitExpr (type : option Expr) (elts : list (option Expr * Expr))
| KeyValueExpr (key : option Expr) (value : Expr)
| FuncLitExpr (type : Expr) (body : list Stmt)
| ConstExpr (source : Expr)
| TypeExpr (k : TypeExprKind) (parts : list Expr)
with CallExpr : Type :=
| mkCallExpr (Func : Expr) (Args : list Expr) (Varg : bool) (NumArgs : Z)
    (WithCross : bool)
with Stmt : Type :=
| AssignStmt (lhs : list Expr) (op : Word) (rhs : list Expr)
| BlockStmt (body : list Stmt)
| BranchStmt (op : Word) (label : Name) (depth : Z) (bodyIndex : Z)
| DeclStmt (body : list Stmt)
| DeferStmt (call : CallExpr)
| EmptyStmt
| ExprStmt (X : Expr)
| ForStmt (init : option Stmt) (cond : option Expr) (post : option Stmt)
    (body : list Stmt)
| GoStmt (call : CallExpr)
| IfStmt (init : option Stmt) (cond : option Expr) (then_ else_ : Stmt)
| IfCaseStmt (body : list Stmt)
| IncDecStmt (x : Expr) (op : Word)
| RangeStmt (x : Expr) (key value : option Expr) (op : Word) (body : list Stmt)
| ReturnStmt (results : list Expr) (copyResults : bool)
| SelectStmt (cases : list Stmt)
| SelectCaseStmt (comm : option Stmt) (body : list Stmt)
| SendStmt (chan value : Expr)
| SwitchStmt (init : option Stmt) (x : option Expr) (isTypeSwitch : bool)
    (clauses : list Stmt) (varName : Name)
| SwitchClauseStmt (cases : list Expr) (body : list Stmt)
| bodyStmt (body : list Stmt).
#[local] Set Elimination Schemes.

Definition Body : Type := list Stmt.

Definition Func (cx : CallExpr) : Expr :=
  match cx with mkCallExpr f _ _ _ _ => f end.

(** if x is *ConstExpr returns its source. *)
Definition unwrapConstExpr (x : Expr) : Expr :=
  match x with
  | ConstExpr source => source
  | _ => x
  end.

(** returns true if x is of form cross(fn)(...). *)
Definition isWithCross (x : CallExpr) : bool :=
  match Func x with
  | ECall fnc =>
      match unwrapConstExpr (Func fnc) with
      | NameExpr _ nm _ => String.eqb nm "cross"
      | _ => false
      end
  | _ => false
  end.

(** returns true if x is of form crossing(); the receiver is a pointer and
    may be nil. *)
Definition isCrossing (x : option CallExpr) : bool :=
  match x with
  | None => false
  | Some cx =>
      match unwrapConstExpr (Func cx) with
      | NameExpr _ nm _ => String.eqb nm "crossing"
      | _ => false
      end
  end.

(** The type assertion of [xs.X] to a pointer to [CallExpr]: the call when
    [ok], a nil pointer otherwise. *)
Definition asCallExpr (x : Expr) : option CallExpr :=
  match x with
  | ECall cx => Some cx
  | _ => None
  end.

Definition Body_isCrossing (ss : Body) : bool :=
  match ss with
  | [] => false
  | fs :: _ =>
      match fs with
      | ExprStmt X => isCrossing (asCallExpr X)
      | _ => false
      end
  end.

(** Convenience, returns true if first statement is crossing() *)
Definition IsCrossing (ss : Body) : bool := Body_isCrossing ss.

End Syntax.

(** ** Static blocks: the per-scope symbol table *)

Module Scope.
Import VP.

(** Addresses of block nodes in the store. *)
Abbreviation loc := nat.

(** The node structs that embed a [StaticBlock] (the [var _ BlockNode = ...]
    list of the source, [RefNode] apart: see [Store] below). *)
Inductive NodeKind : Type :=
| KFuncLitExpr
| KBlockStmt
| KForStmt
| KIfStmt
| KIfCaseStmt
| KRangeStmt
| KSelectCaseStmt
| KSwitchStmt
| KSwitchClauseStmt
| KFuncDecl
| KFileNode
| KPackageNode.

#[global] Instance NodeKind_eq_dec : EqDecision NodeKind.
Proof. solve_decision. Defined.

(** [Type] and [Value] are interfaces declared in types.go and values.go,
    outside this file; [Define2] uses them through the operations below. *)
Class GnoTypes : Type := {
  GType : Type;
  Value : Type;
  (** [tv.V != old.V], comparison of interface values *)
  Value_eq_dec :: EqDecision Value;
  (** [t.TypeID()] *)
  TypeID : GType -> string;
  (** [t.Kind() == FuncKind] *)
  isFuncKind : GType -> bool;
  (** [IsZero()] of the function type that is [baseOf(t)], for [t] of func kind *)
  funcTypeIsZero : GType -> bool;
  (** whether the type assertion of a value to a pointer to [FuncValue] holds *)
  isFuncValue : Value -> bool;
  (** the value as seen after [fv.Type = t] through that pointer *)
  setFuncValueType : Value -> option GType -> Value
}.

Section Types.
Context {gt : GnoTypes}.

(** [TypedValue]: the declared-or-dynamic type and the value; both may be
    nil. *)
Record TypedValue : Type := mkTypedValue {
  T : option GType;
  V : option Value
}.

(** The fields of the embedded runtime [Block] that the static methods
    touch. *)
Record Block : Type := mkBlock {
  Source : option loc;
  Values : list TypedValue
}.

Record oldValue : Type := mkOldValue {
  ov_idx : Z;
  ov_value : option Value
}.

Record StaticBlock : Type := mkStaticBlock {
  SBlock : Block;
  Types : list (option GType);
  NumNames : Z;
  Names : list Name;
  HeapItems : list bool;
  UnassignableNames : list Name;
  Consts : list Name;
  Externs : list Name;
  Parent : option loc;
  oldValues : list oldValue
}.

(** A block node: the struct kind and its embedded static block. *)
Record BlockNode : Type := mkBlockNode {
  kind : NodeKind;
  sblock : StaticBlock
}.

End Types.

Arguments TypedValue {_}.
Arguments Block {_}.
Arguments oldValue {_}.
Arguments StaticBlock {_}.
Arguments BlockNode {_}.

(** The store of block nodes.  A [BlockNode] interface value is [option loc]
    ([None] is nil).  A location outside the store stands for a [RefNode],
    whose embedded [BlockNode] is nil: it is neither a file nor a faux child,
    and calling a promoted method on it panics. *)
Abbreviation Store := (gmap loc BlockNode).

(** What [Define2], [Predefine] and [GetPathForName] take from the rest of
    the package: [TypedValue.IsUndefined], [anyValue] and the universe block
    returned by [UverseNode()]. *)
Class GnoEnv `{GnoTypes} : Type := {
  IsUndefined : TypedValue -> bool;
  anyValue : option GType -> TypedValue;
  UverseNode : StaticBlock
}.

(** Modelled from the spec: the constant [blankIdentifier] is declared
    outside nodes.go; it is Go's blank identifier. *)
Definition blankIdentifier : Name := "_".

Section Methods.
Context {gt : GnoTypes} {ge : GnoEnv}.

Definition set_Externs (sb : StaticBlock) (e : list Name) : StaticBlock :=
  mkStaticBlock (SBlock sb) (Types sb) (NumNames sb) (Names sb) (HeapItems sb)
    (UnassignableNames sb) (Consts sb) e (Parent sb) (oldValues sb).

(** [addExternName]: [slices.Contains] guards the append. *)
Definition addExternName (sb : StaticBlock) (n : Name) : StaticBlock :=
  if decide (n ∈ Externs sb) then sb
  else set_Externs sb (Externs sb ++ [n]).

(** [GetLocalIndex]: the first position of [n] in [Names], converted to
    [uint16]; [(0, false)] when absent. *)
Definition GetLocalIndex (sb : StaticBlock) (n : Name) : Z * bool :=
  match list_find (fun name => name = n) (Names sb) with
  | Some (i, _) => (uint16 (Z.of_nat i), true)
  | None => (0, false)
  end.

(** Returns true iff n is a local const defined name. *)
Definition getLocalIsConst (sb : StaticBlock) (n : Name) : bool :=
  bool_decide (n ∈ Consts sb).

Definition GetNumNames (sb : StaticBlock) : Z := NumNames sb.

Definition IsInitialized (sb : StaticBlock) : bool :=
  bool_decide (Source (SBlock sb) ≠ None).

(** Modelled from the spec: [Block.GetSource] is declared outside nodes.go;
    it returns the source node of the block, here the [Source] field (nodes
    are in the store, none has to be loaded). *)
Definition GetSource (sb : StaticBlock) : option loc := Source (SBlock sb).

(** *** [Define2] and [Predefine] *)

(** [sb.Block.Values[idx] = tv; sb.Types[idx] = st], with the rollback list
    [ovs]. *)
Definition setSlot (sb : StaticBlock) (idx : Z) (tv : TypedValue)
    (st : option GType) (ovs : list oldValue) : StaticBlock :=
  mkStaticBlock
    (mkBlock (Source (SBlock sb)) (<[Z.to_nat idx := tv]> (Values (SBlock sb))))
    (<[Z.to_nat idx := st]> (Types sb))
    (NumNames sb) (Names sb) (HeapItems sb)
    (UnassignableNames sb) (Consts sb) (Externs sb) (Parent sb) ovs.

(** The redefinition branch of [Define2], after the const-status check:
    the new typed value and declared type to store at the slot, given the old
    typed value, together with the extended rollback list. *)
Definition redefine (sb : StaticBlock) (idx : Z) (old : TypedValue)
    (st : option GType) (tv : TypedValue)
  : res (TypedValue * option GType * list oldValue) :=
  match T tv with
  | Some tT =>
      if negb (IsUndefined old) then
        if isFuncKind tT && funcTypeIsZero tT then
          match V tv with
          | Some v =>
              if isFuncValue v then
                Ok (mkTypedValue (T old) (Some (setFuncValueType v (T old))),
                    T old,
                    oldValues sb ++ [mkOldValue idx (V old)])
              else Panic "interface conversion: Value is not *FuncValue"
          | None => Panic "interface conversion: Value is nil, not *FuncValue"
          end
        else
          match T old with
          | None => Panic "nil pointer dereference"
          | Some oT =>
              if negb (String.eqb (TypeID tT) (TypeID oT)) then
                Panic "StaticBlock.Define2() cannot change .T"
              else if negb (bool_decide (V tv = V old)) then
                Panic "StaticBlock.Define2() cannot change .V"
              else Ok (tv, st, oldValues sb)
          end
      else Ok (tv, st, oldValues sb)
  | None => Ok (tv, st, oldValues sb)
  end.

Definition Define2 (isConst : bool) (n : Name) (st : option GType)
    (tv : TypedValue) (sb : StaticBlock) : res StaticBlock :=
  if String.eqb n "" then Panic "name cannot be zero"
  else if negb (NumNames sb =? Z.of_nat (length (Names sb))) then
    Panic "StaticBlock.NumNames and len(.Names) mismatch"
  else if NumNames sb =? 65535 then Panic "too many variables in block"
  else if bool_decide (T tv = None) && negb (bool_decide (V tv = None)) then
    Panic "StaticBlock.Define2() requires .T if .V is set"
  else if String.eqb n blankIdentifier then Ok sb
  else
    match GetLocalIndex sb n with
    | (idx, true) =>
        if negb (Bool.eqb isConst (getLocalIsConst sb n)) then
          Panic "StaticBlock.Define2() cannot change const status"
        else
          match Values (SBlock sb) !! Z.to_nat idx with
          | None => Panic "index out of range"
          | Some old =>
              '(tv', st', ovs) ← redefine sb idx old st tv;
              if Z.of_nat (length (Types sb)) <=? idx then
                Panic "index out of range"
              else
                Ok (setSlot sb idx tv' st' ovs)
          end
    | (_, false) =>
        Ok (mkStaticBlock
              (mkBlock (Source (SBlock sb)) (Values (SBlock sb) ++ [tv]))
              (Types sb ++ [st])
              (uint16 (NumNames sb + 1))
              (Names sb ++ [n])
              (HeapItems sb ++ [false])
              (UnassignableNames sb)
              (if isConst then Consts sb ++ [n] else Consts sb)
              (Externs sb) (Parent sb) (oldValues sb))
    end.

Definition Define (n : Name) (tv : TypedValue) (sb : StaticBlock)
  : res StaticBlock :=
  Define2 false n (T tv) tv sb.

(** Set type to nil, only reserving the name. *)
Definition Predefine (isConst : bool) (n : Name) (sb : StaticBlock)
  : res StaticBlock :=
  match GetLocalIndex sb n with
  | (_, true) => Ok sb
  | (_, false) => Define2 isConst n None (anyValue None) sb
  end.

(** *** Name resolution along the parent chain *)

(** Modelled from the spec: [isFile] is declared outside nodes.go; a block
    node is a file when it is a [FileNode]. *)
Definition isFileKind (k : NodeKind) : bool :=
  match k with KFileNode => true | _ => false end.

(** Modelled from the spec: [fauxChildBlockNode] is declared outside
    nodes.go; the faux child blocks are the [IfCaseStmt] and
    [SwitchClauseStmt] nodes, the two cases of the type switch that ends
    [GetBlockNodeForPath]. *)
Definition fauxChildKind (k : NodeKind) : bool :=
  match k with KIfCaseStmt | KSwitchClauseStmt => true | _ => false end.

(** Dereferencing an interface value for a method call. *)
Definition getNode (h : Store) (bn : option loc) : res BlockNode :=
  match bn with
  | None => Panic "nil pointer dereference"
  | Some l =>
      match h !! l with
      | Some nd => Ok nd
      | None => Panic "nil pointer dereference"
      end
  end.

Definition nodeKind (h : Store) (bn : option loc) : option NodeKind :=
  match bn with
  | None => None
  | Some l => kind <$> h !! l
  end.

Definition isFile (h : Store) (bn : option loc) : bool :=
  match nodeKind h bn with Some k => isFileKind k | None => false end.

Definition fauxChildBlockNode (h : Store) (bn : option loc) : bool :=
  match nodeKind h bn with Some k => fauxChildKind k | None => false end.

Definition GetParentNode (h : Store) (bn : option loc) : res (option loc) :=
  nd ← getNode h bn; Ok (Parent (sblock nd)).

(** [sn.GetStaticBlock().addExternName(n)] on the node stored at [l]. *)
Definition recordExtern (h : Store) (l : loc) (nd : BlockNode) (n : Name) : Store :=
  <[l := mkBlockNode (kind nd) (addExternName (sblock nd) n)]> h.

(** The [for sn != nil] loop of [GetPathForName] and the universe lookup that
    follows it; one unit of fuel per test of the loop condition.  [gen] and
    [fauxChild] are Go [int]s that count visited nodes, far from their
    range. *)
Fixpoint walkAncestors (fuel : nat) (h : Store) (sn : option loc)
    (gen fauxChild : Z) (n : Name) : res (Store * ValuePath) :=
  match fuel with
  | O => OutOfFuel
  | S fuel' =>
      match sn with
      | None =>
          match GetLocalIndex UverseNode n with
          | (idx, true) => vp ← NewValuePathUverse idx n; Ok (h, vp)
          | (_, false) => Panic "name not declared"
          end
      | Some l =>
          nd ← getNode h sn;
          match GetLocalIndex (sblock nd) n with
          | (idx, true) =>
              if 0xff <? gen - fauxChild then Panic "value path depth overflow"
              else
                vp ← NewValuePathBlock (uint8 (gen - fauxChild)) idx n;
                Ok (h, vp)
          | (_, false) =>
              let h' := if isFileKind (kind nd) then h else recordExtern h l nd n in
              let gen' := gen + 1 in
              let fauxChild' :=
                if fauxChildKind (kind nd) then fauxChild + 1 else fauxChild in
              walkAncestors fuel' h' (Parent (sblock nd)) gen' fauxChild' n
          end
      end
  end.

(** [GetPathForName] on the static block of the node at [l]. *)
Definition GetPathForName (fuel : nat) (h : Store) (l : loc) (n : Name)
  : res (Store * ValuePath) :=
  if String.eqb n blankIdentifier then
    vp ← NewValuePathBlock 0 0 blankIdentifier; Ok (h, vp)
  else
    sbn ← getNode h (Some l);
    match GetLocalIndex (sblock sbn) n with
    | (idx, true) => vp ← NewValuePathBlock (uint8 1) idx n; Ok (h, vp)
    | (_, false) =>
        let sn := GetSource (sblock sbn) in
        let h1 := if isFile h sn then h else recordExtern h l sbn n in
        let fauxChild := if fauxChildBlockNode h1 sn then 1 else 0 in
        sn' ← GetParentNode h1 sn;
        walkAncestors fuel h1 sn' 2 fauxChild n
    end.

(** The [for i := 1; i < int(path.Depth); i++] loop of
    [GetBlockNodeForPath], [k] iterations. *)
Fixpoint ascend (h : Store) (k : nat) (bn : option loc) : res (option loc) :=
  match k with
  | O => Ok bn
  | S k' =>
      bn1 ← (if fauxChildBlockNode h bn then GetParentNode h bn else Ok bn);
      bn2 ← GetParentNode h bn1;
      ascend h k' bn2
  end.

Definition GetBlockNodeForPath (h : Store) (l : loc) (path : ValuePath)
  : res (option loc) :=
  if negb (Type_ path =? VPBlock) then
    Panic "expected block type value path"
  else
    sbn ← getNode h (Some l);
    bn ← ascend h (Z.to_nat (Depth path - 1)) (GetSource (sblock sbn));
    if fauxChildBlockNode h bn then
      pn ← GetParentNode h bn;
      pnd ← getNode h pn;
      if Index path <? GetNumNames (sblock pnd) then Ok pn else Ok bn
    else Ok bn.

(** [r.GetLocalIndex(n)] for an interface value [r]. *)
Definition node_GetLocalIndex (h : Store) (bn : option loc) (n : Name)
  : res (Z * bool) :=
  nd ← getNode h bn; Ok (GetLocalIndex (sblock nd) n).

(** *** Vocabulary of the properties *)

(** The scopes searched without success from [sn] upwards: every node met
    before the one that declares [n] (or before the end of the chain). *)
Fixpoint traversedFrom (fuel : nat) (h : Store) (sn : option loc) (n : Name)
  : list loc :=
  match fuel, sn with
  | S fuel', Some a =>
      match h !! a with
      | Some nd =>
          if snd (GetLocalIndex (sblock nd) n) then []
          else a :: traversedFrom fuel' h (Parent (sblock nd)) n
      | None => []
      end
  | _, _ => []
  end.

(** The scopes traversed by [GetPathForName] started at the node [l]. *)
Definition traversed (fuel : nat) (h : Store) (l : loc) (n : Name) : list loc :=
  traversedFrom (S fuel) h (Some l) n.

(** A node as [addExternName] leaves it. *)
Definition withExtern (n : Name) (nd : BlockNode) : BlockNode :=
  mkBlockNode (kind nd) (addExternName (sblock nd) n).

(** What a resolution of [n] that traversed the scopes [ts] does to the node
    stored at [t]: traversed nodes other than files get the extern. *)
Definition touch (n : Name) (ts : list loc) (t : loc) (nd : BlockNode) : BlockNode :=
  if bool_decide (t ∈ ts) && negb (isFileKind (kind nd)) then withExtern n nd
  else nd.

(** The part of a node that resolution reads and never writes. *)
Definition shape (nd : BlockNode)
  : NodeKind * list Name * option loc * option loc * Z :=
  (kind nd, Names (sblock nd), Parent (sblock nd), Source (SBlock (sblock nd)),
   NumNames (sblock nd)).

Definition sameShape (h g : Store) : Prop :=
  forall t, shape <$> h !! t = shape <$> g !! t.

(** A block node initialized on itself: [x.InitStaticBlock(x, parent)]. *)
Definition selfSourced (h : Store) (l : loc) : Prop :=
  exists nd, h !! l = Some nd /\ Source (SBlock (sblock nd)) = Some l.

(** The chain of ancestors of an interface value, nil-terminated. *)
Inductive ancestry (h : Store) : option loc -> list loc -> Prop :=
| ancestry_nil : ancestry h None []
| ancestry_cons l nd ls :
    h !! l = Some nd ->
    ancestry h (Parent (sblock nd)) ls ->
    ancestry h (Some l) (l :: ls).

(** The definitions made in one block, in program order. *)
Inductive DefOp : Type :=
| OpDefine2 (isConst : bool) (n : Name) (st : option GType) (tv : TypedValue)
| OpPredefine (isConst : bool) (n : Name).

Definition applyOp (op : DefOp) (sb : StaticBlock) : res StaticBlock :=
  match op with
  | OpDefine2 isConst n st tv => Define2 isConst n st tv sb
  | OpPredefine isConst n => Predefine isConst n sb
  end.

Fixpoint runOps (ops : list DefOp) (sb : StaticBlock) : res StaticBlock :=
  match ops with
  | [] => Ok sb
  | op :: ops' => sb' ← applyOp op sb; runOps ops' sb'
  end.

(** The layout of a store that [GetBlockNodeForPath] relies on: the name
    count of a block is the length of its name list, and a faux child block
    hangs below a node that is not a faux child and starts with the names of
    that node, so that an index below the name count of the parent denotes the
    same name in both. *)
Record nodeInv (h : Store) (nd : BlockNode) : Prop := mkNodeInv {
  inv_numNames : NumNames (sblock nd) = Z.of_nat (length (Names (sblock nd)));
  inv_bound : NumNames (sblock nd) <= 65535;
  inv_faux :
    fauxChildKind (kind nd) = true ->
    exists p pnd,
      Parent (sblock nd) = Some p /\ h !! p = Some pnd /\
      fauxChildKind (kind pnd) = false /\
      Names (sblock pnd) `prefix_of` Names (sblock nd)
}.

Definition storeInv (h : Store) : Prop :=
  forall l nd, h !! l = Some nd -> nodeInv h nd.

(** The test of the special case of [Define2], on the old typed value of
    the slot and the new one: [!old.IsUndefined() && tv.T != nil], and the
    type of the new value is of func kind and a zero function type. *)
Definition isFuncUpgrade (old tv : TypedValue) : bool :=
  negb (IsUndefined old) &&
  match T tv with
  | Some tT => isFuncKind tT && funcTypeIsZero tT
  | None => false
  end.

(** *** Statements as the specification words them *)

(** "A second Define2 of that name with an identical declared type
    succeeds": every [Define2] of a name that holds a defined value, with
    the declared type that the block has for the name, returns.  The checks
    of [Define2] that do not look at a type are taken as passed: the name,
    the name count, the capacity, the const status, the length of the list
    of types, and that the new value has a type. *)
Definition sameDeclaredTypeRedefinitionSucceeds : Prop :=
  forall sb n idx old isConst st tv,
    n <> "" ->
    n <> blankIdentifier ->
    NumNames sb = Z.of_nat (length (Names sb)) ->
    NumNames sb <> 65535 ->
    GetLocalIndex sb n = (idx, true) ->
    isConst = getLocalIsConst sb n ->
    Values (SBlock sb) !! Z.to_nat idx = Some old ->
    IsUndefined old = false ->
    Types sb !! Z.to_nat idx = Some st ->
    T tv <> None ->
    returns (Define2 isConst n st tv sb).

(** "Redefining an existing name is permitted only if the new declared type
    is identical to the old": no [Define2] of a name that holds a defined
    value returns when its declared type has another [TypeID] than the
    declared type that the block has for the name. *)
Definition otherDeclaredTypeRedefinitionFails : Prop :=
  forall sb n idx old isConst st0 st tv,
    GetLocalIndex sb n = (idx, true) ->
    Values (SBlock sb) !! Z.to_nat idx = Some old ->
    IsUndefined old = false ->
    Types sb !! Z.to_nat idx = Some (Some st0) ->
    TypeID st <> TypeID st0 ->
    ~ returns (Define2 isConst n (Some st) tv sb).

(** "Every scope traversed while searching (other than the defining one)
    records the name as an extern". *)
Definition everyTraversedScopeRecords : Prop :=
  forall fuel h l n h' p,
    n <> blankIdentifier ->
    selfSourced h l ->
    GetPathForName fuel h l n = Ok (h', p) ->
    forall t, t ∈ traversed fuel h l n ->
      exists nd', h' !! t = Some nd' /\ n ∈ Externs (sblock nd').

(** Resolving a name and then locating the block of the path leads, in every
    store, to a block that declares the name at the index of the path. *)
Definition resolveLocateRoundTrip : Prop :=
  forall fuel h b n h' p,
    n <> blankIdentifier ->
    selfSourced h b ->
    GetPathForName fuel h b n = Ok (h', p) ->
    Type_ p = VPBlock ->
    1 <= Depth p ->
    exists r,
      GetBlockNodeForPath h' b p = Ok r /\
      node_GetLocalIndex h' r n = Ok (Index p, true).

End Methods.

End Scope.

(** ** A small instance: named types, three kinds of values *)

Module Example.
Import VP Scope.

Inductive toyValue : Type :=
| FuncV (ty : option string) (body : nat)
| TypeV (t : string)
| DataV (z : Z).

#[global] Instance toyValue_eq_dec : EqDecision toyValue.
Proof. solve_decision. Defined.

(** Types are their identifiers; the function types are those whose
    identifier starts with [func], the zero one being [func()]. *)
Definition toyTypes : GnoTypes := {|
  GType := string;
  Value := toyValue;
  TypeID := fun t => t;
  isFuncKind := fun t => PkgName.has_prefix "func" t;
  funcTypeIsZero := fun t => String.eqb t "func()";
  isFuncValue := fun v => match v with FuncV _ _ => true | _ => false end;
  setFuncValueType := fun v t => match v with FuncV _ b => FuncV t b | _ => v end
|}.

#[local] Existing Instance toyTypes.

Definition emptyBlock (source parent : option loc) : StaticBlock :=
  mkStaticBlock (mkBlock source []) [] 0 [] [] [] [] [] parent [].

Definition namesBlock (source parent : option loc) (names : list Name)
  : StaticBlock :=
  mkStaticBlock
    (mkBlock source (map (fun _ => mkTypedValue (Some "int") None) names))
    (map (fun _ => Some "int") names)
    (Z.of_nat (length names)) names (map (fun _ => false) names)
    [] [] [] parent [].

(** A typed value is undefined when its type is nil; [anyValue(t)] is the
    typed value of type [t] without a value. *)
Definition toyEnv : GnoEnv := {|
  IsUndefined := fun tv => bool_decide (T tv = None);
  anyValue := fun t => mkTypedValue t None;
  UverseNode := namesBlock None None ["nil"; "true"; "false"; "int"; "string"; "len"]
|}.

#[local] Existing Instance toyEnv.

Definition typed (t : string) (v : toyValue) : TypedValue :=
  mkTypedValue (Some t) (Some v).

Definition intValue (z : Z) : TypedValue := typed "int" (DataV z).

(** A block in which [x] is defined as the int 1. *)
Definition blockX : StaticBlock :=
  mkStaticBlock (mkBlock (Some 0%nat) [intValue 1]) [Some "int"] 1 ["x"] [false]
    [] [] [] None [].

(** A static typed value of a type that is not a type value or a function:
    it has no [V]. *)
Definition ofType (t : string) : TypedValue := mkTypedValue (Some t) None.

(** A block in which [x] is declared with the interface type [Stringer] and
    holds a value of the type [A]: [var x Stringer = A{}]. *)
Definition blockS : StaticBlock :=
  mkStaticBlock (mkBlock (Some 0%nat) [ofType "A"]) [Some "Stringer"] 1 ["x"]
    [false] [] [] [] None [].

(** A block in which [f] is defined as a function of type [func(int)]. *)
Definition blockF : StaticBlock :=
  mkStaticBlock
    (mkBlock (Some 0%nat)
       [typed "func(int)" (FuncV (Some "func(int)") 7)])
    [Some "func(int)"] 1 ["f"] [false] [] [] [] None [].

(** package (0, declares [x]) <- file (1) <- function declaration (2). *)
Definition pkgStore : Store :=
  <[0%nat := mkBlockNode KPackageNode (namesBlock (Some 0%nat) None ["x"])]>
  (<[1%nat := mkBlockNode KFileNode (namesBlock (Some 1%nat) (Some 0%nat) [])]>
  (<[2%nat := mkBlockNode KFuncDecl (namesBlock (Some 2%nat) (Some 1%nat) ["a"])]>
   ∅)).

(** if statement (0, declares [y]) <- its then-clause (1, declares [x] only). *)
Definition ifStore : Store :=
  <[0%nat := mkBlockNode KIfStmt (namesBlock (Some 0%nat) None ["y"])]>
  (<[1%nat := mkBlockNode KIfCaseStmt (namesBlock (Some 1%nat) (Some 0%nat) ["x"])]>
   ∅).

(** function (0, declares [z]) <- if statement (1, declares [y]) <-
    then-clause (2, with [y] copied, declares [x]) <- inner block (3). *)
Definition nestedStore : Store :=
  <[0%nat := mkBlockNode KFuncDecl (namesBlock (Some 0%nat) None ["z"])]>
  (<[1%nat := mkBlockNode KIfStmt (namesBlock (Some 1%nat) (Some 0%nat) ["y"])]>
  (<[2%nat := mkBlockNode KIfCaseStmt (namesBlock (Some 2%nat) (Some 1%nat) ["y"; "x"])]>
  (<[3%nat := mkBlockNode KBlockStmt (namesBlock (Some 3%nat) (Some 2%nat) [])]>
   ∅))).

End Example.


(** * Properties *)

(** Case analysis on the outcome of the first call of a sequence. *)
Lemma bind_Ok {A B : Type} (m : res A) (k : A -> res B) (b : B) :
  m ≫= k = Ok b -> exists a, m = Ok a /\ k a = Ok b.
Proof. destruct m as [a| |]; simpl; intros E; [eauto | discriminate..]. Qed.

Lemma bind_Ok_l {A B : Type} (m : res A) (k : A -> res B) (a : A) :
  m = Ok a -> m ≫= k = k a.
Proof. intros ->. reflexivity. Qed.

Tactic Notation "inv_bind" hyp(E) "as" ident(a) ident(Ea) :=
  apply bind_Ok in E; destruct E as (a & Ea & E).

(** ** Value paths *)

Module ValuePathProofs.
Import VP.

Lemma validateDepth_Ok vp u : validateDepth vp = Ok u -> Depth vp <= 127.
Proof.
  unfold validateDepth, MaxValuePathDepth.
  destruct (Z.ltb_spec 127 (Depth vp)); [discriminate | lia].
Qed.

Lemma validateDepth_deep vp :
  127 < Depth vp -> validateDepth vp = Panic "exceeded maximum depth".
Proof.
  intros Hd. unfold validateDepth, MaxValuePathDepth.
  destruct (Z.ltb_spec 127 (Depth vp)); [reflexivity | lia].
Qed.

Lemma NewValuePath_Ok t d i n vp :
  NewValuePath t d i n = Ok vp -> vp = mkValuePath t d i n /\ d <= 127.
Proof.
  unfold NewValuePath. intros E. inv_bind E as u Ev. injection E as <-.
  split; [reflexivity |].
  unfold Validate in Ev. inv_bind Ev as u' Ed.
  apply validateDepth_Ok in Ed. exact Ed.
Qed.

Lemma NewValuePath_deep t d i n :
  127 < d -> NewValuePath t d i n = Panic "exceeded maximum depth".
Proof.
  intros Hd. unfold NewValuePath, Validate.
  rewrite validateDepth_deep by exact Hd. reflexivity.
Qed.

Lemma SetDepth_Ok vp0 d vp :
  SetDepth vp0 d = Ok vp -> Depth vp = d /\ d <= 127.
Proof.
  unfold SetDepth. intros E. inv_bind E as u Ed. injection E as <-.
  apply validateDepth_Ok in Ed. simpl in *. auto.
Qed.

Lemma SetDepth_deep vp0 d :
  127 < d -> SetDepth vp0 d = Panic "exceeded maximum depth".
Proof.
  intros Hd. unfold SetDepth. rewrite validateDepth_deep by exact Hd.
  reflexivity.
Qed.

Lemma NewValuePathBlock_shallow d i n :
  d <= 127 -> NewValuePathBlock d i n = Ok (mkValuePath VPBlock d i n).
Proof.
  intros Hd. unfold NewValuePathBlock, NewValuePath, Validate, validateDepth.
  unfold MaxValuePathDepth. simpl.
  destruct (Z.ltb_spec 127 d); [lia | reflexivity].
Qed.

Lemma Validate_cases vp :
  Validate vp = Ok tt \/ exists msg, Validate vp = Panic msg.
Proof.
  unfold Validate, validateDepth, require.
  repeat (case_match; simpl; eauto).
Qed.

Lemma NewValuePath_cases t d i n :
  NewValuePath t d i n = Ok (mkValuePath t d i n) \/
  exists msg, NewValuePath t d i n = Panic msg.
Proof.
  unfold NewValuePath.
  destruct (Validate_cases (mkValuePath t d i n)) as [->|[msg ->]]; simpl; eauto.
Qed.

Lemma Constructed_depth vp : Constructed vp -> Depth vp <= MaxValuePathDepth.
Proof.
  unfold MaxValuePathDepth.
  destruct 1 as [? ? ? ? ? E|? ? ? E|? ? ? ? E|? ? ? ? E|? ? ? E|? ? ? E|? ? E
                |? ? ? ? E|? ? ? ? E|? ? ? E|? ? ? E|? ? E|? ? ? E];
    try (apply NewValuePath_Ok in E; destruct E as [-> ?]; simpl; lia).
  apply SetDepth_Ok in E. lia.
Qed.

End ValuePathProofs.

(** ** Package names *)

Module PkgNameProofs.
Import PkgName.

Lemma fullmatch_Alt r1 r2 s :
  fullmatch (Alt r1 r2) s = fullmatch r1 s || fullmatch r2 s.
Proof.
  revert r1 r2. induction s as [|c s IH]; intros r1 r2; simpl; [reflexivity |].
  apply IH.
Qed.

Lemma fullmatch_Void_Cat r s : fullmatch (Cat Void r) s = false.
Proof. induction s as [|c s IH]; simpl; [reflexivity | exact IH]. Qed.

Lemma fullmatch_Eps_Cat r s : fullmatch (Cat Eps r) s = fullmatch r s.
Proof.
  destruct s as [|c s]; simpl; [reflexivity |].
  rewrite fullmatch_Alt, fullmatch_Void_Cat. reflexivity.
Qed.

Lemma fullmatch_Class_Cat rs r c s :
  fullmatch (Cat (Class rs) r) (String c s) = in_class c rs && fullmatch r s.
Proof.
  simpl. destruct (in_class c rs); simpl.
  - apply fullmatch_Eps_Cat.
  - apply fullmatch_Void_Cat.
Qed.

Lemma fullmatch_Star_Class rs s :
  fullmatch (Star (Class rs)) s = all_chars (fun c => in_class c rs) s.
Proof.
  induction s as [|c s IH]; [reflexivity |].
  change (fullmatch (Star (Class rs)) (String c s))
    with (fullmatch (Cat (deriv c (Class rs)) (Star (Class rs))) s).
  simpl. destruct (in_class c rs); simpl.
  - rewrite fullmatch_Eps_Cat. exact IH.
  - apply fullmatch_Void_Cat.
Qed.

Lemma fullmatch_Plus_Class rs s :
  fullmatch (Plus (Class rs)) s =
  match s with
  | EmptyString => false
  | String c s' => in_class c rs && all_chars (fun c => in_class c rs) s'
  end.
Proof.
  destruct s as [|c s]; [reflexivity |].
  change (fullmatch (Plus (Class rs)) (String c s))
    with (fullmatch (Cat (deriv c (Class rs)) (Star (Class rs))) s).
  simpl. destruct (in_class c rs); simpl.
  - rewrite fullmatch_Eps_Cat. apply fullmatch_Star_Class.
  - apply fullmatch_Void_Cat.
Qed.

(** What [rePkgName] accepts: a lowercase letter followed by at least one
    more character, all of them lowercase letters, digits or underscores. *)
Lemma rePkgName_accepts s :
  MatchString rePkgName s =
  match s with
  | String c (String d rest) => is_lower c && (is_word d && all_chars is_word rest)
  | _ => false
  end.
Proof.
  unfold MatchString, rePkgName.
  destruct s as [|c s]; [reflexivity |].
  rewrite fullmatch_Class_Cat, fullmatch_Plus_Class.
  destruct s as [|d rest].
  - apply andb_false_r.
  - reflexivity.
Qed.

Lemma validatePkgName_nil s :
  validatePkgName s = None <->
  spec_rule s = true /\ (2 <= String.length s)%nat.
Proof.
  unfold validatePkgName. rewrite rePkgName_accepts.
  destruct s as [|c [|d rest]]; simpl.
  - split; [discriminate | intros [? ?]; discriminate].
  - split; [discriminate | intros [_ ?]; lia].
  - destruct (is_lower c && (is_word d && all_chars is_word rest)) eqn:E; simpl.
    + split; [intros _; split; [reflexivity | lia] | reflexivity].
    + split; [discriminate | intros [? _]; discriminate].
Qed.

(** [ReadMemPackageFromList] returns an error for a package that is not empty
    and whose name [validatePkgName] rejects, and never returns such a
    package. *)
Lemma ReadMemPackageFromList_rejects
    ReadFile Base PackageNameFromFileBody IsEmpty paths pkgPath pkgName files err :
  readFiles ReadFile Base PackageNameFromFileBody paths "" [] = inr (pkgName, files) ->
  IsEmpty (mkMemPackage pkgName pkgPath files) = false ->
  validatePkgName pkgName = Some err ->
  ReadMemPackageFromList ReadFile Base PackageNameFromFileBody IsEmpty paths pkgPath
  = inl err.
Proof.
  intros Hread Hne Hbad. unfold ReadMemPackageFromList.
  rewrite Hread, Hne, Hbad. reflexivity.
Qed.

Lemma ReadMemPackageFromList_valid
    ReadFile Base PackageNameFromFileBody IsEmpty paths pkgPath mp :
  ReadMemPackageFromList ReadFile Base PackageNameFromFileBody IsEmpty paths pkgPath
  = inr mp ->
  IsEmpty mp = true \/ validatePkgName (MPName mp) = None.
Proof.
  unfold ReadMemPackageFromList.
  destruct (readFiles _ _ _ _ _ _) as [e|[pkgName files]]; [discriminate |].
  destruct (IsEmpty _) eqn:Hemp; simpl.
  - intros [= <-]. left. exact Hemp.
  - destruct (validatePkgName pkgName) eqn:Hv; [discriminate |].
    intros [= <-]. right. exact Hv.
Qed.

(** C8, at the input where code and rule part: the one-letter name [a]
    starts with a lowercase letter and has no further character, so the rule
    "starts with a lowercase letter, remaining characters lowercase letters,
    digits or underscore" admits it, yet [validatePkgName] returns an error:
    the [+] of [rePkgName] asks for a second character.  On every other
    string the two agree: [validatePkgName] accepts exactly the names of the
    rule that have at least two characters. *)
Theorem C8_one_letter_name_rejected :
  spec_rule "a" = true /\
  validatePkgName "a" = Some "cannot create package with invalid name" /\
  (forall s,
     validatePkgName s = None <->
     spec_rule s = true /\ String.length s <> 1%nat).
Proof.
  split; [reflexivity |]. split; [reflexivity |].
  intros s. rewrite validatePkgName_nil. split.
  - intros [Hrule Hlen]. split; [exact Hrule | lia].
  - intros [Hrule Hlen]. split; [exact Hrule |].
    destruct s as [|c [|d rest]]; simpl in *; [discriminate | lia | lia].
Qed.

End PkgNameProofs.

(** ** The crossing marker *)

Module CrossingProofs.
Import Syntax.

(** What [unwrapConstExpr] gives is a name exactly for a name and for a
    constant expression whose source is that name. *)
Lemma unwrapConstExpr_name e path nm ty :
  unwrapConstExpr e = NameExpr path nm ty <->
  e = NameExpr path nm ty \/ e = ConstExpr (NameExpr path nm ty).
Proof.
  split.
  - destruct e; simpl; intros E; try discriminate E.
    + left. exact E.
    + right. f_equal. exact E.
  - intros [->| ->]; reflexivity.
Qed.

Lemma isCrossing_true x :
  isCrossing x = true <->
  exists cx path ty,
    x = Some cx /\
    (Func cx = NameExpr path "crossing" ty \/
     Func cx = ConstExpr (NameExpr path "crossing" ty)).
Proof.
  split.
  - destruct x as [cx|]; simpl; [| discriminate].
    destruct (unwrapConstExpr (Func cx)) eqn:E; try discriminate.
    intros Hn. apply String.eqb_eq in Hn. subst.
    apply unwrapConstExpr_name in E. eauto.
  - intros (cx & path & ty & -> & E). apply unwrapConstExpr_name in E.
    simpl. rewrite E. reflexivity.
Qed.

(** C6: a body is crossing exactly when it is not empty and its first
    statement is an expression statement whose expression is a call whose
    function expression is the name [crossing], either as it stands or as
    the source of one constant expression around it; on an empty body, on a
    first statement of another kind and on a first expression that is not a
    call, the answer is [false] (the function is total: it never fails). *)
Theorem C6_IsCrossing_spec :
  (forall b : Body,
     IsCrossing b = true <->
     exists cx rest path ty,
       b = ExprStmt (ECall cx) :: rest /\
       (Func cx = NameExpr path "crossing" ty \/
        Func cx = ConstExpr (NameExpr path "crossing" ty))) /\
  IsCrossing [] = false /\
  (forall fs rest, (forall X, fs <> ExprStmt X) -> IsCrossing (fs :: rest) = false) /\
  (forall X rest, (forall cx, X <> ECall cx) -> IsCrossing (ExprStmt X :: rest) = false).
Proof.
  repeat split.
  - unfold IsCrossing, Body_isCrossing.
    destruct b as [|fs rest]; [discriminate |].
    destruct fs; try discriminate.
    intros Hc. apply isCrossing_true in Hc.
    destruct Hc as (cx & path & ty & Hx & Hn).
    destruct X; try discriminate. injection Hx as ->.
    exists cx, rest, path, ty. split; [reflexivity | exact Hn].
  - intros (cx & rest & path & ty & -> & Hn).
    unfold IsCrossing, Body_isCrossing. apply isCrossing_true. simpl.
    exists cx, path, ty. split; [reflexivity | exact Hn].
  - intros fs rest Hfs. unfold IsCrossing, Body_isCrossing.
    destruct fs; try reflexivity. exfalso. eapply Hfs. reflexivity.
  - intros X rest HX. unfold IsCrossing, Body_isCrossing.
    destruct X; try reflexivity. exfalso. eapply HX. reflexivity.
Qed.

End CrossingProofs.

(** ** Static blocks *)

Module ScopeProofs.
Import VP Scope ValuePathProofs.

Section Blocks.
Context {gt : GnoTypes} {ge : GnoEnv}.

Lemma GetLocalIndex_true sb n idx :
  GetLocalIndex sb n = (idx, true) ->
  exists i : nat,
    list_find (fun name => name = n) (Names sb) = Some (i, n) /\
    idx = uint16 (Z.of_nat i).
Proof.
  unfold GetLocalIndex.
  destruct (list_find _ (Names sb)) as [[i x]|] eqn:E; [| discriminate].
  intros [= <-]. exists i. split; [| reflexivity].
  apply list_find_Some in E as E'. destruct E' as (_ & -> & _). reflexivity.
Qed.

Lemma GetLocalIndex_false sb n idx :
  GetLocalIndex sb n = (idx, false) -> (n ∉ Names sb) /\ idx = 0.
Proof.
  unfold GetLocalIndex.
  destruct (list_find _ (Names sb)) as [[i x]|] eqn:E; [discriminate |].
  intros [= <-]. split; [| reflexivity].
  apply list_find_None in E. rewrite Forall_forall in E.
  intros Hin. exact (E n Hin eq_refl).
Qed.

Lemma GetLocalIndex_elem sb n :
  n ∈ Names sb -> exists idx, GetLocalIndex sb n = (idx, true).
Proof.
  intros Hin. unfold GetLocalIndex.
  destruct (list_find_elem_of (fun name => name = n) (Names sb) n Hin eq_refl)
    as [[i x] E].
  rewrite E. eauto.
Qed.

Lemma GetLocalIndex_absent sb n :
  n ∉ Names sb -> GetLocalIndex sb n = (0, false).
Proof.
  intros Hn. destruct (GetLocalIndex sb n) as [idx [|]] eqn:E.
  - apply GetLocalIndex_true in E as (i & E & _).
    apply list_find_Some in E as (Hi & _). apply list_elem_of_lookup_2 in Hi.
    contradiction.
  - apply GetLocalIndex_false in E as [_ ->]. reflexivity.
Qed.

Lemma GetLocalIndex_Names sb sb' n :
  Names sb = Names sb' -> GetLocalIndex sb n = GetLocalIndex sb' n.
Proof. unfold GetLocalIndex. intros ->. reflexivity. Qed.

Lemma GetLocalIndex_app sb sb' added n idx :
  Names sb' = Names sb ++ added ->
  GetLocalIndex sb n = (idx, true) ->
  GetLocalIndex sb' n = (idx, true).
Proof.
  intros Hn Hf. apply GetLocalIndex_true in Hf as (i & E & ->).
  unfold GetLocalIndex. rewrite Hn.
  rewrite (list_find_app_l _ _ added _ _ E). reflexivity.
Qed.

(** The position found is below the length of the name list. *)
Lemma GetLocalIndex_lookup sb n idx :
  GetLocalIndex sb n = (idx, true) ->
  Z.of_nat (length (Names sb)) <= 65536 ->
  Names sb !! Z.to_nat idx = Some n /\ 0 <= idx < Z.of_nat (length (Names sb)).
Proof.
  intros Hf Hlen. apply GetLocalIndex_true in Hf as (i & E & ->).
  apply list_find_Some in E as (Hi & _).
  apply lookup_lt_Some in Hi as Hlt.
  unfold uint16. rewrite Z.mod_small by lia.
  rewrite Nat2Z.id. split; [exact Hi | lia].
Qed.

(** The three ways in which [Define2] returns. *)
Inductive Define2_outcome (n : Name) (st : option GType) (tv : TypedValue)
    (sb sb' : StaticBlock) : Prop :=
| D2_blank : n = blankIdentifier -> sb' = sb -> Define2_outcome n st tv sb sb'
| D2_redefine idx tv' st' :
    n <> blankIdentifier ->
    GetLocalIndex sb n = (idx, true) ->
    Names sb' = Names sb ->
    NumNames sb' = NumNames sb ->
    HeapItems sb' = HeapItems sb ->
    Consts sb' = Consts sb ->
    Values (SBlock sb') = <[Z.to_nat idx := tv']> (Values (SBlock sb)) ->
    Types sb' = <[Z.to_nat idx := st']> (Types sb) ->
    Define2_outcome n st tv sb sb'
| D2_append idx :
    n <> blankIdentifier ->
    GetLocalIndex sb n = (idx, false) ->
    Names sb' = Names sb ++ [n] ->
    NumNames sb' = uint16 (NumNames sb + 1) ->
    HeapItems sb' = HeapItems sb ++ [false] ->
    Values (SBlock sb') = Values (SBlock sb) ++ [tv] ->
    Types sb' = Types sb ++ [st] ->
    Define2_outcome n st tv sb sb'.

Lemma Define2_Ok isConst n st tv sb sb' :
  Define2 isConst n st tv sb = Ok sb' -> Define2_outcome n st tv sb sb'.
Proof.
  unfold Define2.
  destruct (String.eqb n "") eqn:Hz; [discriminate |].
  destruct (negb (NumNames sb =? _)); [discriminate |].
  destruct (NumNames sb =? 65535); [discriminate |].
  destruct (bool_decide (T tv = None) && _); [discriminate |].
  destruct (String.eqb n blankIdentifier) eqn:Hb.
  { intros [= <-]. apply String.eqb_eq in Hb. apply D2_blank; auto. }
  apply String.eqb_neq in Hb.
  destruct (GetLocalIndex sb n) as [idx [|]] eqn:Hf.
  - destruct (negb (Bool.eqb isConst _)); [discriminate |].
    destruct (Values (SBlock sb) !! Z.to_nat idx) as [old|]; [| discriminate].
    intros E. inv_bind E as r Er. destruct r as [[tv' st'] ovs].
    destruct (Z.of_nat (length (Types sb)) <=? idx); [discriminate |].
    injection E as <-. eapply D2_redefine; eauto; reflexivity.
  - intros [= <-]. eapply D2_append; eauto.
Qed.

Lemma GetLocalIndex_nonneg sb n idx :
  GetLocalIndex sb n = (idx, true) -> 0 <= idx.
Proof.
  intros Hf. apply GetLocalIndex_true in Hf as (i & _ & ->).
  unfold uint16. apply Z.mod_pos_bound. lia.
Qed.

(** The two ways in which the redefinition branch goes on to the write. *)
Lemma redefine_Ok sb idx old st tv tv' st' ovs :
  redefine sb idx old st tv = Ok (tv', st', ovs) ->
  (isFuncUpgrade old tv = false /\
   tv' = tv /\ st' = st /\ ovs = oldValues sb) \/
  (isFuncUpgrade old tv = true /\
   exists v,
     V tv = Some v /\ isFuncValue v = true /\
     tv' = mkTypedValue (T old) (Some (setFuncValueType v (T old))) /\
     st' = T old /\
     ovs = oldValues sb ++ [mkOldValue idx (V old)]).
Proof.
  unfold redefine, isFuncUpgrade.
  destruct (T tv) as [tT|].
  2:{ rewrite andb_false_r. intros [= <- <- <-]. left. auto. }
  destruct (IsUndefined old); simpl.
  { intros [= <- <- <-]. left. auto. }
  destruct (isFuncKind tT && funcTypeIsZero tT).
  - destruct (V tv) as [v|]; [| discriminate].
    destruct (isFuncValue v) eqn:Hv; [| discriminate].
    intros [= <- <- <-]. right. split; [reflexivity |]. exists v. auto.
  - destruct (T old) as [oT|]; [| discriminate].
    destruct (negb (String.eqb (TypeID tT) (TypeID oT))); [discriminate |].
    destruct (negb (bool_decide (V tv = V old))); [discriminate |].
    intros [= <- <- <-]. left. auto.
Qed.

Lemma Define2_redefine_Ok isConst n st tv sb sb' idx :
  GetLocalIndex sb n = (idx, true) ->
  n <> blankIdentifier ->
  Define2 isConst n st tv sb = Ok sb' ->
  exists old tv' st' ovs,
    Values (SBlock sb) !! Z.to_nat idx = Some old /\
    redefine sb idx old st tv = Ok (tv', st', ovs) /\
    idx < Z.of_nat (length (Types sb)) /\
    sb' = setSlot sb idx tv' st' ovs.
Proof.
  intros Hf Hb. unfold Define2.
  destruct (String.eqb n ""); [discriminate |].
  destruct (negb (NumNames sb =? _)); [discriminate |].
  destruct (NumNames sb =? 65535); [discriminate |].
  destruct (bool_decide (T tv = None) && _); [discriminate |].
  apply String.eqb_neq in Hb. rewrite Hb, Hf.
  destruct (negb (Bool.eqb isConst _)); [discriminate |].
  destruct (Values (SBlock sb) !! Z.to_nat idx) as [old|]; [| discriminate].
  intros E. inv_bind E as r Er. destruct r as [[tv' st'] ovs].
  destruct (Z.leb_spec (Z.of_nat (length (Types sb))) idx); [discriminate |].
  injection E as <-. exists old, tv', st', ovs. auto.
Qed.

(** What the two assignments [sb.Block.Values[idx] = tv] and
    [sb.Types[idx] = st] leave behind. *)
Lemma setSlot_slot sb idx tv st ovs old :
  0 <= idx ->
  Values (SBlock sb) !! Z.to_nat idx = Some old ->
  idx < Z.of_nat (length (Types sb)) ->
  Names (setSlot sb idx tv st ovs) = Names sb /\
  length (Values (SBlock (setSlot sb idx tv st ovs))) = length (Values (SBlock sb)) /\
  length (Types (setSlot sb idx tv st ovs)) = length (Types sb) /\
  Values (SBlock (setSlot sb idx tv st ovs)) !! Z.to_nat idx = Some tv /\
  Types (setSlot sb idx tv st ovs) !! Z.to_nat idx = Some st /\
  (forall j, j <> Z.to_nat idx ->
     Values (SBlock (setSlot sb idx tv st ovs)) !! j = Values (SBlock sb) !! j /\
     Types (setSlot sb idx tv st ovs) !! j = Types sb !! j) /\
  oldValues (setSlot sb idx tv st ovs) = ovs.
Proof.
  intros Hpos Hold Hlen. apply lookup_lt_Some in Hold. simpl.
  rewrite !length_insert.
  split; [reflexivity |]. split; [reflexivity |]. split; [reflexivity |].
  split; [apply list_lookup_insert_eq; exact Hold |].
  split; [apply list_lookup_insert_eq; lia |].
  split; [| reflexivity].
  intros j Hj. split; apply list_lookup_insert_ne; congruence.
Qed.

Lemma Define2_Names isConst n st tv sb sb' :
  Define2 isConst n st tv sb = Ok sb' ->
  exists added, Names sb' = Names sb ++ added.
Proof.
  intros E. apply Define2_Ok in E.
  destruct E as [_ ->|idx tv' st' _ _ Hn|idx _ _ Hn].
  - exists []. symmetry. apply app_nil_r.
  - exists []. rewrite Hn. symmetry. apply app_nil_r.
  - exists [n]. exact Hn.
Qed.

Lemma Predefine_Names isConst n sb sb' :
  Predefine isConst n sb = Ok sb' ->
  exists added, Names sb' = Names sb ++ added.
Proof.
  unfold Predefine. destruct (GetLocalIndex sb n) as [idx [|]].
  - intros [= <-]. exists []. symmetry. apply app_nil_r.
  - apply Define2_Names.
Qed.

Lemma runOps_Names ops sb sb' :
  runOps ops sb = Ok sb' -> exists added, Names sb' = Names sb ++ added.
Proof.
  revert sb. induction ops as [|op ops IH]; intros sb; simpl.
  - intros [= <-]. exists []. symmetry. apply app_nil_r.
  - intros E. inv_bind E as sb1 E1.
    apply IH in E as [added2 Hn2].
    assert (exists added1, Names sb1 = Names sb ++ added1) as [added1 Hn1].
    { destruct op; simpl in E1;
        [eapply Define2_Names | eapply Predefine_Names]; exact E1. }
    exists (added1 ++ added2). rewrite Hn2, Hn1. symmetry. apply app_assoc.
Qed.

(** C4: whatever definitions and predefinitions follow in a block, the name
    list only grows at its end, so a name that has a slot keeps its index:
    [GetLocalIndex] answers the same before and after.  A redefinition leaves
    the name list and the lengths of the lists of values and types alone and
    writes in place: after it the slot of the name holds the new typed value
    and the declared type (in the function upgrade: the function value under
    the old type, and the old type), and every other slot holds what it held.
    A definition of a new name appends it after all the names already
    there. *)
Theorem C4_slot_index_stable :
  (forall ops sb sb',
     runOps ops sb = Ok sb' ->
     (exists added, Names sb' = Names sb ++ added) /\
     (forall n idx,
        GetLocalIndex sb n = (idx, true) -> GetLocalIndex sb' n = (idx, true))) /\
  (forall isConst n st tv sb sb' idx,
     GetLocalIndex sb n = (idx, true) ->
     n <> blankIdentifier ->
     Define2 isConst n st tv sb = Ok sb' ->
     Names sb' = Names sb /\
     GetLocalIndex sb' n = (idx, true) /\
     length (Values (SBlock sb')) = length (Values (SBlock sb)) /\
     length (Types sb') = length (Types sb) /\
     (forall j, j <> Z.to_nat idx ->
        Values (SBlock sb') !! j = Values (SBlock sb) !! j /\
        Types sb' !! j = Types sb !! j) /\
     exists old,
       Values (SBlock sb) !! Z.to_nat idx = Some old /\
       (isFuncUpgrade old tv = false ->
        Values (SBlock sb') !! Z.to_nat idx = Some tv /\
        Types sb' !! Z.to_nat idx = Some st) /\
       (isFuncUpgrade old tv = true ->
        exists v,
          V tv = Some v /\
          Values (SBlock sb') !! Z.to_nat idx =
            Some (mkTypedValue (T old) (Some (setFuncValueType v (T old)))) /\
          Types sb' !! Z.to_nat idx = Some (T old))) /\
  (forall isConst n st tv sb sb',
     n ∉ Names sb ->
     n <> blankIdentifier ->
     Define2 isConst n st tv sb = Ok sb' ->
     Names sb' = Names sb ++ [n] /\
     GetLocalIndex sb' n = (uint16 (Z.of_nat (length (Names sb))), true)).
Proof.
  split; [| split].
  - intros ops sb sb' E. apply runOps_Names in E as [added Hn].
    split; [eauto |]. intros n idx. apply (GetLocalIndex_app _ _ added); exact Hn.
  - intros isConst n st tv sb sb' idx Hf Hb E.
    pose proof (GetLocalIndex_nonneg _ _ _ Hf) as Hpos.
    destruct (Define2_redefine_Ok _ _ _ _ _ _ _ Hf Hb E)
      as (old & tv' & st' & ovs & Hold & Hr & Hlen & ->).
    destruct (setSlot_slot sb idx tv' st' ovs old Hpos Hold Hlen)
      as (Hn & Hlv & Hlt & Hv & Ht & Hrest & _).
    split; [exact Hn |].
    split; [unfold GetLocalIndex in *; rewrite Hn; exact Hf |].
    split; [exact Hlv |]. split; [exact Hlt |]. split; [exact Hrest |].
    exists old. split; [exact Hold |].
    apply redefine_Ok in Hr
      as [(Hup & -> & -> & _)|(Hup & v & HV & _ & -> & -> & _)].
    + split; [auto |]. rewrite Hup. discriminate.
    + split; [rewrite Hup; discriminate |]. intros _. exists v. auto.
  - intros isConst n st tv sb sb' Hnot Hb E. apply Define2_Ok in E.
    destruct E as [Hb' _|idx' tv' st' _ Hf' _|idx' _ Hf' Hn _ _ _ _].
    + contradiction.
    + apply GetLocalIndex_true in Hf' as (i & Hi & _).
      apply list_find_Some in Hi as (Hi & _).
      apply list_elem_of_lookup_2 in Hi. contradiction.
    + split; [exact Hn |]. unfold GetLocalIndex. rewrite Hn.
      rewrite list_find_app_r.
      2:{ apply list_find_None, Forall_forall. intros x Hx ->. contradiction. }
      simpl. rewrite decide_True by reflexivity. reflexivity.
Qed.

(** C10: [Predefine] of a name that already has a slot returns the block as
    it was, whatever [isConst] is: no field changes and there is no panic.
    Hence a second [Predefine] after a first one changes nothing. *)
Theorem C10_Predefine_present_noop :
  (forall isConst n sb, n ∈ Names sb -> Predefine isConst n sb = Ok sb) /\
  (forall isConst isConst' n sb sb',
     Predefine isConst n sb = Ok sb' -> Predefine isConst' n sb' = Ok sb').
Proof.
  assert (Hnoop : forall isConst n sb,
             n ∈ Names sb -> Predefine isConst n sb = Ok sb).
  { intros isConst n sb Hin. unfold Predefine.
    destruct (GetLocalIndex_elem sb n Hin) as [idx ->]. reflexivity. }
  split; [exact Hnoop |].
  intros isConst isConst' n sb sb' E. unfold Predefine in E.
  destruct (GetLocalIndex sb n) as [idx [|]] eqn:Hf.
  - injection E as <-. unfold Predefine. rewrite Hf. reflexivity.
  - pose proof E as E'. apply Define2_Ok in E'.
    destruct E' as [Hb ->|idx' tv' st' _ Hf' _|idx' _ _ Hn _ _ _ _].
    + unfold Predefine. rewrite Hf.
      unfold Define2 in *. subst n.
      destruct (String.eqb blankIdentifier ""); [discriminate |].
      destruct (negb (NumNames sb =? _)); [discriminate |].
      destruct (NumNames sb =? 65535); [discriminate |].
      destruct (bool_decide _ && _); [discriminate |].
      reflexivity.
    + rewrite Hf in Hf'. discriminate.
    + apply Hnoop. rewrite Hn. set_solver.
Qed.

(** The checks that precede the lookup in [Define2]. *)
Lemma Define2_past_guards isConst n st tv sb :
  n <> "" ->
  n <> blankIdentifier ->
  NumNames sb = Z.of_nat (length (Names sb)) ->
  NumNames sb <> 65535 ->
  T tv <> None ->
  Define2 isConst n st tv sb =
  match GetLocalIndex sb n with
  | (idx, true) =>
      if negb (Bool.eqb isConst (getLocalIsConst sb n)) then
        Panic "StaticBlock.Define2() cannot change const status"
      else
        match Values (SBlock sb) !! Z.to_nat idx with
        | None => Panic "index out of range"
        | Some old =>
            '(tv', st', ovs) ← redefine sb idx old st tv;
            if Z.of_nat (length (Types sb)) <=? idx then
              Panic "index out of range"
            else Ok (setSlot sb idx tv' st' ovs)
        end
  | (_, false) =>
      Ok (mkStaticBlock
            (mkBlock (Source (SBlock sb)) (Values (SBlock sb) ++ [tv]))
            (Types sb ++ [st]) (uint16 (NumNames sb + 1)) (Names sb ++ [n])
            (HeapItems sb ++ [false]) (UnassignableNames sb)
            (if isConst then Consts sb ++ [n] else Consts sb)
            (Externs sb) (Parent sb) (oldValues sb))
  end.
Proof.
  intros Hz Hb Hnum Hcap HT. unfold Define2.
  apply String.eqb_neq in Hz. rewrite Hz.
  apply String.eqb_neq in Hb. rewrite Hb.
  replace (NumNames sb =? Z.of_nat (length (Names sb))) with true
    by (symmetry; apply Z.eqb_eq; exact Hnum).
  replace (NumNames sb =? 65535) with false
    by (symmetry; apply Z.eqb_neq; exact Hcap).
  rewrite (bool_decide_eq_false_2 _ HT). reflexivity.
Qed.

Lemma Define2_not_OutOfFuel isConst n st tv sb :
  Define2 isConst n st tv sb <> OutOfFuel.
Proof.
  unfold Define2, redefine.
  repeat (case_match; simpl; try discriminate).
Qed.

(** C2, as the code has it.  [Define2] never compares the declared type
    [st]; it compares the type of the new value with the type of the old one.
    For a name that holds a defined value:
    - a [Define2] with the same const status whose value has a type that is
      not a zero function type, with the [TypeID] of the old value's type,
      and the same [V], returns for every declared type and reuses the slot:
      the names and the index of the name are as before, the slot holds the
      new typed value and the declared type, every other slot holds what it
      held and nothing is recorded for a rollback;
    - a [Define2] whose value has a type with another [TypeID] (the function
      upgrade apart) panics;
    - a [Define2] of a function value whose type is a zero function type is
      accepted and the slot keeps the old type, as declared type, as type of
      the value and inside the function value; the old [V] is recorded for a
      rollback;
    - a [Define2] whose value has another [V] (the function upgrade apart)
      panics, and so does one with another const status. *)
Theorem C2_redefinition_rule :
  (forall sb n idx old isConst st tv tT oT,
     n <> "" ->
     n <> blankIdentifier ->
     NumNames sb = Z.of_nat (length (Names sb)) ->
     NumNames sb <> 65535 ->
     GetLocalIndex sb n = (idx, true) ->
     Values (SBlock sb) !! Z.to_nat idx = Some old ->
     idx < Z.of_nat (length (Types sb)) ->
     IsUndefined old = false ->
     isConst = getLocalIsConst sb n ->
     T tv = Some tT ->
     T old = Some oT ->
     isFuncKind tT && funcTypeIsZero tT = false ->
     TypeID tT = TypeID oT ->
     V tv = V old ->
     exists sb',
       Define2 isConst n st tv sb = Ok sb' /\
       Names sb' = Names sb /\
       GetLocalIndex sb' n = (idx, true) /\
       Values (SBlock sb') !! Z.to_nat idx = Some tv /\
       Types sb' !! Z.to_nat idx = Some st /\
       (forall j, j <> Z.to_nat idx ->
          Values (SBlock sb') !! j = Values (SBlock sb) !! j /\
          Types sb' !! j = Types sb !! j) /\
       oldValues sb' = oldValues sb) /\
  (forall sb n idx old isConst st tv tT oT,
     n <> blankIdentifier ->
     GetLocalIndex sb n = (idx, true) ->
     Values (SBlock sb) !! Z.to_nat idx = Some old ->
     IsUndefined old = false ->
     T tv = Some tT ->
     T old = Some oT ->
     isFuncKind tT && funcTypeIsZero tT = false ->
     TypeID tT <> TypeID oT ->
     panics (Define2 isConst n st tv sb)) /\
  (forall sb n idx old isConst st tv tT v,
     n <> "" ->
     n <> blankIdentifier ->
     NumNames sb = Z.of_nat (length (Names sb)) ->
     NumNames sb <> 65535 ->
     GetLocalIndex sb n = (idx, true) ->
     Values (SBlock sb) !! Z.to_nat idx = Some old ->
     idx < Z.of_nat (length (Types sb)) ->
     IsUndefined old = false ->
     isConst = getLocalIsConst sb n ->
     T tv = Some tT ->
     isFuncKind tT && funcTypeIsZero tT = true ->
     V tv = Some v ->
     isFuncValue v = true ->
     exists sb',
       Define2 isConst n st tv sb = Ok sb' /\
       Names sb' = Names sb /\
       GetLocalIndex sb' n = (idx, true) /\
       Values (SBlock sb') !! Z.to_nat idx =
         Some (mkTypedValue (T old) (Some (setFuncValueType v (T old)))) /\
       Types sb' !! Z.to_nat idx = Some (T old) /\
       (forall j, j <> Z.to_nat idx ->
          Values (SBlock sb') !! j = Values (SBlock sb) !! j /\
          Types sb' !! j = Types sb !! j) /\
       oldValues sb' = oldValues sb ++ [mkOldValue idx (V old)]) /\
  (forall sb n idx old isConst st tv tT oT,
     n <> blankIdentifier ->
     GetLocalIndex sb n = (idx, true) ->
     Values (SBlock sb) !! Z.to_nat idx = Some old ->
     IsUndefined old = false ->
     T tv = Some tT ->
     T old = Some oT ->
     isFuncKind tT && funcTypeIsZero tT = false ->
     V tv <> V old ->
     panics (Define2 isConst n st tv sb)) /\
  (forall sb n idx isConst st tv,
     n <> blankIdentifier ->
     GetLocalIndex sb n = (idx, true) ->
     isConst <> getLocalIsConst sb n ->
     panics (Define2 isConst n st tv sb)).
Proof.
  assert (Hpanics : forall isConst n st tv sb,
             (forall sb', Define2 isConst n st tv sb <> Ok sb') ->
             panics (Define2 isConst n st tv sb)).
  { intros isConst n st tv sb Hno.
    destruct (Define2 isConst n st tv sb) as [sb'|msg|] eqn:E.
    - exfalso. exact (Hno sb' eq_refl).
    - exists msg. reflexivity.
    - exfalso. exact (Define2_not_OutOfFuel _ _ _ _ _ E). }
  split; [| split; [| split; [| split]]].
  - intros sb n idx old isConst st tv tT oT
      Hz Hb Hnum Hcap Hf Hold Hlen Hdef Hc HT HoT Hfz Hid HV.
    pose proof (GetLocalIndex_nonneg _ _ _ Hf) as Hpos.
    destruct (setSlot_slot sb idx tv st (oldValues sb) old Hpos Hold Hlen)
      as (Hn & _ & _ & Hv & Ht & Hrest & Hov).
    exists (setSlot sb idx tv st (oldValues sb)).
    split; [| split; [exact Hn | split; [| auto]]].
    + rewrite Define2_past_guards by (auto; rewrite HT; discriminate).
      rewrite Hf, Hc, Bool.eqb_reflx, Hold. simpl.
      unfold redefine. rewrite HT, Hdef, Hfz, HoT. simpl.
      rewrite Hid, String.eqb_refl. simpl.
      rewrite (bool_decide_eq_true_2 _ HV). simpl.
      destruct (Z.leb_spec (Z.of_nat (length (Types sb))) idx);
        [lia | reflexivity].
    + unfold GetLocalIndex in *. rewrite Hn. exact Hf.
  - intros sb n idx old isConst st tv tT oT Hb Hf Hold Hdef HT HoT Hfz Hid.
    apply Hpanics. intros sb' E. revert E. unfold Define2.
    apply String.eqb_neq in Hb. rewrite Hb, Hf, Hold.
    unfold redefine. rewrite HT, Hdef, Hfz, HoT. simpl.
    apply String.eqb_neq in Hid. rewrite Hid. simpl.
    repeat (case_match; try discriminate).
  - intros sb n idx old isConst st tv tT v
      Hz Hb Hnum Hcap Hf Hold Hlen Hdef Hc HT Hfz HV Hfv.
    pose proof (GetLocalIndex_nonneg _ _ _ Hf) as Hpos.
    destruct (setSlot_slot sb idx
                (mkTypedValue (T old) (Some (setFuncValueType v (T old))))
                (T old) (oldValues sb ++ [mkOldValue idx (V old)])
                old Hpos Hold Hlen)
      as (Hn & _ & _ & Hv & Ht & Hrest & Hov).
    eexists. split; [| split; [exact Hn | split; [| eauto]]].
    + rewrite Define2_past_guards by (auto; rewrite HT; discriminate).
      rewrite Hf, Hc, Bool.eqb_reflx, Hold. simpl.
      unfold redefine. rewrite HT, Hdef, Hfz, HV, Hfv. simpl.
      destruct (Z.leb_spec (Z.of_nat (length (Types sb))) idx);
        [lia | reflexivity].
    + unfold GetLocalIndex in *. rewrite Hn. exact Hf.
  - intros sb n idx old isConst st tv tT oT Hb Hf Hold Hdef HT HoT Hfz HV.
    apply Hpanics. intros sb' E. revert E. unfold Define2.
    apply String.eqb_neq in Hb. rewrite Hb, Hf, Hold.
    unfold redefine. rewrite HT, Hdef, Hfz, HoT. simpl.
    rewrite (bool_decide_eq_false_2 _ HV). simpl.
    repeat (case_match; try discriminate).
  - intros sb n idx isConst st tv Hb Hf Hc.
    apply Hpanics. intros sb' E. revert E. unfold Define2.
    apply String.eqb_neq in Hb. rewrite Hb, Hf.
    assert (Hne : Bool.eqb isConst (getLocalIsConst sb n) = false).
    { destruct isConst, (getLocalIsConst sb n); try reflexivity;
        exfalso; apply Hc; reflexivity. }
    rewrite Hne. simpl.
    repeat (case_match; try discriminate).
Qed.

End Blocks.

(** ** Resolution *)

Section Resolution.
Context {gt : GnoTypes} {ge : GnoEnv}.

Lemma withExtern_shape n nd : shape (withExtern n nd) = shape nd.
Proof.
  unfold shape, withExtern, addExternName. simpl.
  destruct (decide (n ∈ Externs (sblock nd))); reflexivity.
Qed.

Lemma withExtern_elem n nd : n ∈ Externs (sblock (withExtern n nd)).
Proof.
  unfold withExtern, addExternName. simpl.
  destruct (decide (n ∈ Externs (sblock nd))) as [Hin|Hout]; simpl.
  - exact Hin.
  - set_solver.
Qed.

Lemma addExternName_present sb n : n ∈ Externs sb -> addExternName sb n = sb.
Proof.
  intros Hin. unfold addExternName. rewrite decide_True by exact Hin.
  reflexivity.
Qed.

Lemma withExtern_present n nd :
  n ∈ Externs (sblock nd) -> withExtern n nd = nd.
Proof.
  intros Hin. unfold withExtern. rewrite addExternName_present by exact Hin.
  destruct nd. reflexivity.
Qed.

Lemma withExtern_idem n nd : withExtern n (withExtern n nd) = withExtern n nd.
Proof. apply withExtern_present, withExtern_elem. Qed.

Lemma touch_shape n ts t nd : shape (touch n ts t nd) = shape nd.
Proof.
  unfold touch. destruct (_ && _); [apply withExtern_shape | reflexivity].
Qed.

Lemma touch_idem n ts t nd : touch n ts t (touch n ts t nd) = touch n ts t nd.
Proof.
  unfold touch at 2 3. destruct (_ && _) eqn:E.
  - unfold touch. simpl. rewrite E. apply withExtern_idem.
  - unfold touch. rewrite E. reflexivity.
Qed.

Lemma touch_nil n t nd : touch n [] t nd = nd.
Proof.
  unfold touch. rewrite bool_decide_eq_false_2 by set_solver. reflexivity.
Qed.

Lemma shape_kind nd nd' : shape nd = shape nd' -> kind nd = kind nd'.
Proof. unfold shape. congruence. Qed.

Lemma shape_Names nd nd' :
  shape nd = shape nd' -> Names (sblock nd) = Names (sblock nd').
Proof. unfold shape. congruence. Qed.

Lemma shape_Parent nd nd' :
  shape nd = shape nd' -> Parent (sblock nd) = Parent (sblock nd').
Proof. unfold shape. congruence. Qed.

Lemma shape_Source nd nd' :
  shape nd = shape nd' ->
  Source (SBlock (sblock nd)) = Source (SBlock (sblock nd')).
Proof. unfold shape. congruence. Qed.

Lemma shape_NumNames nd nd' :
  shape nd = shape nd' -> NumNames (sblock nd) = NumNames (sblock nd').
Proof. unfold shape. congruence. Qed.

Lemma shape_GetLocalIndex nd nd' n :
  shape nd = shape nd' ->
  GetLocalIndex (sblock nd) n = GetLocalIndex (sblock nd') n.
Proof. intros Hs. apply GetLocalIndex_Names, shape_Names, Hs. Qed.

Lemma sameShape_refl h : sameShape h h.
Proof. intros t. reflexivity. Qed.

Lemma sameShape_sym h g : sameShape h g -> sameShape g h.
Proof. intros Hs t. symmetry. apply Hs. Qed.

Lemma sameShape_trans h g k : sameShape h g -> sameShape g k -> sameShape h k.
Proof. intros H1 H2 t. rewrite H1. apply H2. Qed.

Lemma sameShape_Some h g t nd :
  sameShape h g -> h !! t = Some nd ->
  exists nd', g !! t = Some nd' /\ shape nd' = shape nd.
Proof.
  intros Hs Ht. specialize (Hs t). rewrite Ht in Hs.
  destruct (g !! t) as [nd'|]; [| discriminate].
  assert (Some (shape nd) = Some (shape nd')) as Hs' by exact Hs.
  exists nd'. split; [reflexivity | congruence].
Qed.

Lemma sameShape_None h g t : sameShape h g -> h !! t = None -> g !! t = None.
Proof.
  intros Hs Ht. specialize (Hs t). rewrite Ht in Hs. simpl in Hs.
  destruct (g !! t); [discriminate | reflexivity].
Qed.

Lemma sameShape_insert h g t nd nd' :
  sameShape h g -> h !! t = Some nd -> shape nd' = shape nd ->
  sameShape h (<[t := nd']> g).
Proof.
  intros Hs Ht Hsh u. destruct (decide (t = u)) as [<-|Hne].
  - rewrite lookup_insert_eq, Ht. simpl. congruence.
  - rewrite lookup_insert_ne by exact Hne. apply Hs.
Qed.

Lemma sameShape_nodeKind h g bn :
  sameShape h g -> nodeKind h bn = nodeKind g bn.
Proof.
  intros Hs. destruct bn as [l|]; [| reflexivity]. simpl.
  destruct (h !! l) as [nd|] eqn:E.
  - destruct (sameShape_Some _ _ _ _ Hs E) as (nd' & -> & Hsh). simpl.
    f_equal. symmetry. apply shape_kind, Hsh.
  - rewrite (sameShape_None _ _ _ Hs E). reflexivity.
Qed.

Lemma sameShape_isFile h g bn : sameShape h g -> isFile h bn = isFile g bn.
Proof. intros Hs. unfold isFile. rewrite (sameShape_nodeKind h g bn Hs). reflexivity. Qed.

Lemma sameShape_faux h g bn :
  sameShape h g -> fauxChildBlockNode h bn = fauxChildBlockNode g bn.
Proof.
  intros Hs. unfold fauxChildBlockNode.
  rewrite (sameShape_nodeKind h g bn Hs). reflexivity.
Qed.

Lemma sameShape_GetParentNode h g bn :
  sameShape h g -> GetParentNode h bn = GetParentNode g bn.
Proof.
  intros Hs. unfold GetParentNode, getNode. destruct bn as [l|]; [| reflexivity].
  destruct (h !! l) as [nd|] eqn:E.
  - destruct (sameShape_Some _ _ _ _ Hs E) as (nd' & -> & Hsh). simpl.
    f_equal. symmetry. apply shape_Parent, Hsh.
  - rewrite (sameShape_None _ _ _ Hs E). reflexivity.
Qed.

Lemma sameShape_traversedFrom fuel h g sn n :
  sameShape h g -> traversedFrom fuel h sn n = traversedFrom fuel g sn n.
Proof.
  intros Hs. revert sn. induction fuel as [|fuel IH]; intros sn; [reflexivity |].
  simpl. destruct sn as [a|]; [| reflexivity].
  destruct (h !! a) as [nd|] eqn:E.
  - destruct (sameShape_Some _ _ _ _ Hs E) as (nd' & -> & Hsh).
    rewrite (shape_GetLocalIndex _ _ n Hsh), (shape_Parent _ _ Hsh), IH.
    reflexivity.
  - rewrite (sameShape_None _ _ _ Hs E). reflexivity.
Qed.

(** *** The ancestor walk *)

Lemma walk_O h sn gen fc n : walkAncestors O h sn gen fc n = OutOfFuel.
Proof. reflexivity. Qed.

Lemma walk_nil fuel h gen fc n :
  walkAncestors (S fuel) h None gen fc n =
  match GetLocalIndex UverseNode n with
  | (idx, true) => vp ← NewValuePathUverse idx n; Ok (h, vp)
  | (_, false) => Panic "name not declared"
  end.
Proof. reflexivity. Qed.

Lemma walk_dangling fuel h l gen fc n :
  h !! l = None ->
  walkAncestors (S fuel) h (Some l) gen fc n = Panic "nil pointer dereference".
Proof. intros E. simpl. rewrite E. reflexivity. Qed.

Lemma walk_found fuel h l nd gen fc n idx :
  h !! l = Some nd ->
  GetLocalIndex (sblock nd) n = (idx, true) ->
  walkAncestors (S fuel) h (Some l) gen fc n =
  if 0xff <? gen - fc then Panic "value path depth overflow"
  else vp ← NewValuePathBlock (uint8 (gen - fc)) idx n; Ok (h, vp).
Proof. intros E Hf. simpl. rewrite E. simpl. rewrite Hf. reflexivity. Qed.

Lemma walk_next fuel h l nd gen fc n idx :
  h !! l = Some nd ->
  GetLocalIndex (sblock nd) n = (idx, false) ->
  walkAncestors (S fuel) h (Some l) gen fc n =
  walkAncestors fuel
    (if isFileKind (kind nd) then h else recordExtern h l nd n)
    (Parent (sblock nd)) (gen + 1)
    (if fauxChildKind (kind nd) then fc + 1 else fc) n.
Proof. intros E Hf. simpl. rewrite E. simpl. rewrite Hf. reflexivity. Qed.

Lemma traversedFrom_found fuel h l nd n idx :
  h !! l = Some nd ->
  GetLocalIndex (sblock nd) n = (idx, true) ->
  traversedFrom (S fuel) h (Some l) n = [].
Proof. intros E Hf. simpl. rewrite E, Hf. reflexivity. Qed.

Lemma traversedFrom_next fuel h l nd n idx :
  h !! l = Some nd ->
  GetLocalIndex (sblock nd) n = (idx, false) ->
  traversedFrom (S fuel) h (Some l) n =
  l :: traversedFrom fuel h (Parent (sblock nd)) n.
Proof. intros E Hf. simpl. rewrite E, Hf. reflexivity. Qed.

Lemma fmap_touch_nil n (o : option BlockNode) t : touch n [] t <$> o = o.
Proof. destruct o as [nd|]; simpl; [rewrite touch_nil |]; reflexivity. Qed.

(** The store after recording the extern at a node met on the way. *)
Definition stepStore (h : Store) (l : loc) (nd : BlockNode) (n : Name) : Store :=
  if isFileKind (kind nd) then h else recordExtern h l nd n.

Lemma stepStore_shape h g l nd gnd n :
  sameShape h g -> h !! l = Some nd -> g !! l = Some gnd ->
  shape gnd = shape nd ->
  sameShape (stepStore h l nd n) (stepStore g l gnd n).
Proof.
  intros Hs E Eg Hsh. unfold stepStore.
  rewrite (shape_kind _ _ Hsh). destruct (isFileKind (kind nd)); [exact Hs |].
  unfold recordExtern. fold (withExtern n nd). fold (withExtern n gnd).
  intros u. destruct (decide (l = u)) as [<-|Hne].
  - rewrite !lookup_insert_eq. simpl. rewrite !withExtern_shape. congruence.
  - rewrite !lookup_insert_ne by exact Hne. apply Hs.
Qed.

Lemma stepStore_sameShape h l nd n :
  h !! l = Some nd -> sameShape h (stepStore h l nd n).
Proof.
  intros E. unfold stepStore. destruct (isFileKind (kind nd)).
  - apply sameShape_refl.
  - unfold recordExtern. fold (withExtern n nd).
    eapply sameShape_insert; [apply sameShape_refl | exact E |].
    apply withExtern_shape.
Qed.

Lemma touch_cons_ne n l ts t nd :
  l <> t -> touch n (l :: ts) t nd = touch n ts t nd.
Proof.
  intros Hne. unfold touch.
  rewrite (bool_decide_ext (t ∈ l :: ts) (t ∈ ts)); [reflexivity |].
  rewrite elem_of_cons. split; [intros [->|Hin]; [contradiction | exact Hin] |].
  intros Hin. right. exact Hin.
Qed.

Lemma stepStore_lookup h l nd n ts t :
  h !! l = Some nd ->
  touch n ts t <$> stepStore h l nd n !! t = touch n (l :: ts) t <$> h !! t.
Proof.
  intros E. unfold stepStore. destruct (isFileKind (kind nd)) eqn:Hfile.
  - destruct (decide (l = t)) as [<-|Hne].
    + rewrite E. simpl. unfold touch. rewrite Hfile, !andb_false_r. reflexivity.
    + destruct (h !! t) as [tnd|]; [| reflexivity]. simpl. f_equal.
      symmetry. apply touch_cons_ne. exact Hne.
  - unfold recordExtern. fold (withExtern n nd).
    destruct (decide (l = t)) as [<-|Hne].
    + rewrite lookup_insert_eq, E. simpl. f_equal.
      unfold touch. rewrite (bool_decide_eq_true_2 (l ∈ l :: ts)) by set_solver.
      simpl. rewrite Hfile. simpl.
      destruct (bool_decide (l ∈ ts)); simpl; [apply withExtern_idem | reflexivity].
    + rewrite lookup_insert_ne by exact Hne.
      destruct (h !! t) as [tnd|]; [| reflexivity]. simpl. f_equal.
      symmetry. apply touch_cons_ne. exact Hne.
Qed.

(** The walk reads the shape of the store only: on two stores of the same
    shape it returns the same path, and the store it returns is the store
    it got with the extern recorded at the traversed nodes that are not
    files. *)
Lemma walk_det fuel :
  forall h g sn gen fc n h' p,
    sameShape h g ->
    walkAncestors fuel h sn gen fc n = Ok (h', p) ->
    exists g',
      walkAncestors fuel g sn gen fc n = Ok (g', p) /\
      forall t, g' !! t = touch n (traversedFrom fuel h sn n) t <$> g !! t.
Proof.
  induction fuel as [|fuel IH]; intros h g sn gen fc n h' p Hs Hw.
  { discriminate. }
  destruct sn as [l|].
  - destruct (h !! l) as [nd|] eqn:E.
    2:{ rewrite walk_dangling in Hw by exact E. discriminate. }
    destruct (sameShape_Some _ _ _ _ Hs E) as (gnd & Eg & Hsh).
    destruct (GetLocalIndex (sblock nd) n) as [idx [|]] eqn:Hf.
    + rewrite (walk_found _ _ _ _ _ _ _ _ E Hf) in Hw.
      rewrite (walk_found _ _ _ gnd _ _ _ idx Eg)
        by (rewrite (shape_GetLocalIndex _ _ n Hsh); exact Hf).
      destruct (0xff <? gen - fc); [discriminate |].
      inv_bind Hw as vp Evp. injection Hw as <- <-.
      exists g. rewrite Evp. split; [reflexivity |].
      intros t. rewrite (traversedFrom_found _ _ _ _ _ _ E Hf).
      symmetry. apply fmap_touch_nil.
    + rewrite (walk_next _ _ _ _ _ _ _ _ E Hf) in Hw.
      rewrite (walk_next _ _ _ gnd _ _ _ idx Eg)
        by (rewrite (shape_GetLocalIndex _ _ n Hsh); exact Hf).
      rewrite (shape_kind _ _ Hsh), (shape_Parent _ _ Hsh).
      fold (stepStore h l nd n) in Hw.
      change (if isFileKind (kind nd) then g else recordExtern g l gnd n)
        with (if isFileKind (kind nd) then g else recordExtern g l gnd n).
      assert (Hs1 : sameShape (stepStore h l nd n) (stepStore g l gnd n))
        by (eapply stepStore_shape; eauto).
      destruct (IH _ _ _ _ _ _ _ _ Hs1 Hw) as (g' & Hg' & Hlook).
      exists g'. split.
      * unfold stepStore in Hg' at 1. rewrite (shape_kind _ _ Hsh) in Hg'.
        exact Hg'.
      * intros t. rewrite Hlook.
        rewrite (traversedFrom_next _ _ _ _ _ _ E Hf).
        rewrite <- (sameShape_traversedFrom fuel h (stepStore h l nd n))
          by (apply stepStore_sameShape; exact E).
        apply stepStore_lookup. exact Eg.
  - rewrite walk_nil in Hw.
    destruct (GetLocalIndex UverseNode n) as [idx [|]] eqn:Hu; [| discriminate].
    inv_bind Hw as vp Evp. injection Hw as <- <-.
    exists g. rewrite walk_nil, Hu, Evp. split; [reflexivity |].
    intros t. destruct fuel; simpl; symmetry; apply fmap_touch_nil.
Qed.

Lemma walk_spec fuel h sn gen fc n h' p :
  walkAncestors fuel h sn gen fc n = Ok (h', p) ->
  forall t, h' !! t = touch n (traversedFrom fuel h sn n) t <$> h !! t.
Proof.
  intros Hw.
  destruct (walk_det fuel h h sn gen fc n h' p (sameShape_refl h) Hw)
    as (g' & Hg' & Hlook).
  rewrite Hw in Hg'. injection Hg' as <-. exact Hlook.
Qed.

Lemma walk_sameShape fuel h sn gen fc n h' p :
  walkAncestors fuel h sn gen fc n = Ok (h', p) -> sameShape h h'.
Proof.
  intros Hw t. rewrite (walk_spec _ _ _ _ _ _ _ _ Hw t).
  destruct (h !! t) as [nd|]; simpl; [| reflexivity].
  rewrite touch_shape. reflexivity.
Qed.

Lemma walk_idem fuel h sn gen fc n h' p :
  walkAncestors fuel h sn gen fc n = Ok (h', p) ->
  walkAncestors fuel h' sn gen fc n = Ok (h', p).
Proof.
  intros Hw.
  destruct (walk_det fuel h h' sn gen fc n h' p
              (walk_sameShape _ _ _ _ _ _ _ _ Hw) Hw) as (g' & Hg' & Hlook).
  rewrite Hg'. f_equal. f_equal. apply map_eq. intros t.
  rewrite Hlook, (walk_spec _ _ _ _ _ _ _ _ Hw t).
  destruct (h !! t) as [nd|]; simpl; [| reflexivity].
  rewrite touch_idem. reflexivity.
Qed.

Lemma walk_depth fuel :
  forall h sn gen fc n h' p,
    walkAncestors fuel h sn gen fc n = Ok (h', p) -> Depth p <= 127.
Proof.
  induction fuel as [|fuel IH]; intros h sn gen fc n h' p Hw; [discriminate |].
  destruct sn as [l|].
  - destruct (h !! l) as [nd|] eqn:E.
    2:{ rewrite walk_dangling in Hw by exact E. discriminate. }
    destruct (GetLocalIndex (sblock nd) n) as [idx [|]] eqn:Hf.
    + rewrite (walk_found _ _ _ _ _ _ _ _ E Hf) in Hw.
      destruct (0xff <? gen - fc); [discriminate |].
      inv_bind Hw as vp Evp. injection Hw as _ <-.
      apply NewValuePath_Ok in Evp as [-> Hd]. exact Hd.
    + rewrite (walk_next _ _ _ _ _ _ _ _ E Hf) in Hw. eapply IH, Hw.
  - rewrite walk_nil in Hw.
    destruct (GetLocalIndex UverseNode n) as [idx [|]]; [| discriminate].
    inv_bind Hw as vp Evp. injection Hw as _ <-.
    apply NewValuePath_Ok in Evp as [-> Hd]. exact Hd.
Qed.

Lemma traversedFrom_undeclared fuel :
  forall h sn n t,
    t ∈ traversedFrom fuel h sn n ->
    exists nd, h !! t = Some nd /\ (n ∉ Names (sblock nd)).
Proof.
  induction fuel as [|fuel IH]; intros h sn n t Hin; simpl in Hin.
  { apply elem_of_nil in Hin. contradiction. }
  destruct sn as [a|]; [| apply elem_of_nil in Hin; contradiction].
  destruct (h !! a) as [nd|] eqn:E; [| apply elem_of_nil in Hin; contradiction].
  destruct (GetLocalIndex (sblock nd) n) as [idx [|]] eqn:Hf; simpl in Hin.
  { apply elem_of_nil in Hin. contradiction. }
  apply elem_of_cons in Hin as [->|Hin].
  - exists nd. split; [exact E |]. apply GetLocalIndex_false in Hf. tauto.
  - eapply IH, Hin.
Qed.

(** The walk does not depend on the fuel once it has enough of it, and a
    nil-terminated chain of ancestors needs one unit per node and one more. *)
Lemma walk_fuel_mono fuel :
  forall h sn gen fc n fuel',
    (fuel <= fuel')%nat ->
    walkAncestors fuel h sn gen fc n <> OutOfFuel ->
    walkAncestors fuel' h sn gen fc n = walkAncestors fuel h sn gen fc n.
Proof.
  induction fuel as [|fuel IH]; intros h sn gen fc n fuel' Hle Hne.
  { contradiction Hne. reflexivity. }
  destruct fuel' as [|fuel']; [lia |].
  destruct sn as [l|]; [| reflexivity].
  destruct (h !! l) as [nd|] eqn:E.
  2:{ rewrite !walk_dangling by exact E. reflexivity. }
  destruct (GetLocalIndex (sblock nd) n) as [idx [|]] eqn:Hf.
  - rewrite !(walk_found _ _ _ _ _ _ _ _ E Hf). reflexivity.
  - rewrite !(walk_next _ _ _ _ _ _ _ _ E Hf) in *.
    apply IH; [lia | exact Hne].
Qed.

Lemma walk_enough_fuel h sn chain :
  ancestry h sn chain ->
  forall g fuel gen fc n,
    sameShape h g ->
    (length chain < fuel)%nat ->
    walkAncestors fuel g sn gen fc n <> OutOfFuel.
Proof.
  intros Ha. induction Ha as [|l nd ls E Ha IH]; intros g fuel gen fc n Hs Hlen.
  - destruct fuel as [|fuel]; [simpl in Hlen; lia |]. rewrite walk_nil.
    destruct (GetLocalIndex UverseNode n) as [idx [|]]; [| discriminate].
    unfold NewValuePathUverse.
    destruct (NewValuePath_cases VPUverse 0 idx n) as [->|[msg ->]]; discriminate.
  - destruct fuel as [|fuel]; [simpl in Hlen; lia |]. simpl in Hlen.
    destruct (sameShape_Some _ _ _ _ Hs E) as (gnd & Eg & Hsh).
    destruct (GetLocalIndex (sblock gnd) n) as [idx [|]] eqn:Hf.
    + rewrite (walk_found _ _ _ _ _ _ _ _ Eg Hf).
      destruct (0xff <? gen - fc); [discriminate |].
      unfold NewValuePathBlock.
      destruct (NewValuePath_cases VPBlock (uint8 (gen - fc)) idx n)
        as [->|[msg ->]]; discriminate.
    + rewrite (walk_next _ _ _ _ _ _ _ _ Eg Hf), (shape_Parent _ _ Hsh).
      apply IH; [| lia].
      eapply sameShape_trans; [exact Hs |].
      apply stepStore_sameShape. exact Eg.
Qed.

(** *** [GetPathForName] *)

Lemma blank_path :
  NewValuePathBlock 0 0 blankIdentifier =
  Ok (mkValuePath VPBlock 0 0 blankIdentifier).
Proof. reflexivity. Qed.

Lemma GetPathForName_blank fuel h l :
  GetPathForName fuel h l blankIdentifier =
  Ok (h, mkValuePath VPBlock 0 0 blankIdentifier).
Proof. reflexivity. Qed.

Lemma GetPathForName_named fuel h l n sbn :
  n <> blankIdentifier ->
  h !! l = Some sbn ->
  GetPathForName fuel h l n =
  match GetLocalIndex (sblock sbn) n with
  | (idx, true) => vp ← NewValuePathBlock (uint8 1) idx n; Ok (h, vp)
  | (_, false) =>
      let sn := Source (SBlock (sblock sbn)) in
      let h1 := if isFile h sn then h else recordExtern h l sbn n in
      let fauxChild := if fauxChildBlockNode h1 sn then 1 else 0 in
      sn' ← GetParentNode h1 sn;
      walkAncestors fuel h1 sn' 2 fauxChild n
  end.
Proof.
  intros Hb E. unfold GetPathForName.
  apply String.eqb_neq in Hb. rewrite Hb. simpl. rewrite E. reflexivity.
Qed.

(** For a node initialized on itself, [GetPathForName] is the ancestor walk
    started at the node itself, at generation 1. *)
Lemma GetPathForName_as_walk fuel h l n :
  n <> blankIdentifier ->
  selfSourced h l ->
  GetPathForName fuel h l n = walkAncestors (S fuel) h (Some l) 1 0 n.
Proof.
  intros Hb (sbn & E & Hsrc).
  rewrite (GetPathForName_named _ _ _ _ _ Hb E).
  destruct (GetLocalIndex (sblock sbn) n) as [idx [|]] eqn:Hf.
  - rewrite (walk_found _ _ _ _ _ _ _ _ E Hf). reflexivity.
  - rewrite (walk_next _ _ _ _ _ _ _ _ E Hf). rewrite Hsrc. cbv zeta.
    assert (Hfile : isFile h (Some l) = isFileKind (kind sbn)).
    { unfold isFile. simpl. rewrite E. reflexivity. }
    rewrite Hfile.
    set (h1 := if isFileKind (kind sbn) then h else recordExtern h l sbn n).
    assert (Hs : sameShape h h1) by (apply stepStore_sameShape; exact E).
    rewrite <- (sameShape_faux h h1 (Some l) Hs).
    rewrite <- (sameShape_GetParentNode h h1 (Some l) Hs).
    unfold fauxChildBlockNode, GetParentNode. simpl. rewrite E. simpl.
    reflexivity.
Qed.

(** From a node initialized on itself whose ancestors end in nil,
    [GetPathForName] returns or panics as soon as the fuel covers the chain. *)
Lemma GetPathForName_enough_fuel fuel h l chain n :
  selfSourced h l ->
  ancestry h (Some l) chain ->
  (length chain <= fuel)%nat ->
  GetPathForName fuel h l n <> OutOfFuel.
Proof.
  intros Hself Ha Hlen.
  destruct (decide (n = blankIdentifier)) as [->|Hb].
  { rewrite GetPathForName_blank. discriminate. }
  rewrite (GetPathForName_as_walk _ _ _ _ Hb Hself).
  apply (walk_enough_fuel h (Some l) chain Ha); [apply sameShape_refl | lia].
Qed.

(** C1: a resolution that succeeded, repeated on the store it left, returns
    the same value path and leaves the store, hence the extern list of every
    scope, as it is; [addExternName] does not append a name that is already
    recorded. *)
Theorem C1_resolution_idempotent :
  (forall fuel h l n h' p,
     GetPathForName fuel h l n = Ok (h', p) ->
     GetPathForName fuel h' l n = Ok (h', p)) /\
  (forall sb n, n ∈ Externs sb -> addExternName sb n = sb).
Proof.
  split; [| apply addExternName_present].
  intros fuel h l n h' p Hg.
  destruct (decide (n = blankIdentifier)) as [->|Hb].
  { rewrite GetPathForName_blank in *. injection Hg as <- <-. reflexivity. }
  destruct (h !! l) as [sbn|] eqn:E.
  2:{ unfold GetPathForName in Hg. apply String.eqb_neq in Hb.
      rewrite Hb in Hg. simpl in Hg. rewrite E in Hg. discriminate. }
  rewrite (GetPathForName_named _ _ _ _ _ Hb E) in Hg.
  destruct (GetLocalIndex (sblock sbn) n) as [idx [|]] eqn:Hf.
  - inv_bind Hg as vp Evp. injection Hg as <- <-.
    rewrite (GetPathForName_named _ _ _ _ _ Hb E), Hf, Evp. reflexivity.
  - cbv zeta in Hg.
    set (sn := Source (SBlock (sblock sbn))) in *.
    set (h1 := if isFile h sn then h else recordExtern h l sbn n) in *.
    inv_bind Hg as sn' Eparent.
    pose proof (walk_sameShape _ _ _ _ _ _ _ _ Hg) as Hs1.
    pose proof (walk_spec _ _ _ _ _ _ _ _ Hg l) as Hl.
    set (ts := traversedFrom fuel h1 sn' n) in *.
    assert (Hs0 : sameShape h h1).
    { subst h1. destruct (isFile h sn); [apply sameShape_refl |].
      unfold recordExtern. fold (withExtern n sbn).
      eapply sameShape_insert; [apply sameShape_refl | exact E |].
      apply withExtern_shape. }
    assert (Hl' : exists sbn',
               h' !! l = Some sbn' /\ shape sbn' = shape sbn /\
               (isFile h sn = false -> n ∈ Externs (sblock sbn'))).
    { subst h1. destruct (isFile h sn).
      - rewrite E in Hl. simpl in Hl. eexists. split; [exact Hl |].
        split; [apply touch_shape | discriminate].
      - unfold recordExtern in Hl. fold (withExtern n sbn) in Hl.
        rewrite lookup_insert_eq in Hl. simpl in Hl.
        eexists. split; [exact Hl |].
        split; [rewrite touch_shape; apply withExtern_shape |].
        intros _. unfold touch. destruct (_ && _).
        + rewrite withExtern_idem. apply withExtern_elem.
        + apply withExtern_elem. }
    destruct Hl' as (sbn' & E' & Hsh & Hext).
    rewrite (GetPathForName_named _ _ _ _ _ Hb E').
    rewrite (shape_GetLocalIndex _ _ n Hsh), Hf. cbv zeta.
    rewrite (shape_Source _ _ Hsh). fold sn.
    rewrite <- (sameShape_isFile h h' sn (sameShape_trans _ _ _ Hs0 Hs1)).
    assert (Hfix : (if isFile h sn then h' else recordExtern h' l sbn' n) = h').
    { destruct (isFile h sn); [reflexivity |].
      unfold recordExtern. fold (withExtern n sbn').
      rewrite withExtern_present by (apply Hext; reflexivity).
      apply insert_id. exact E'. }
    rewrite Hfix.
    rewrite <- (sameShape_faux h1 h' sn Hs1).
    rewrite <- (sameShape_GetParentNode h1 h' sn Hs1), Eparent. simpl.
    eapply walk_idem. exact Hg.
Qed.

Lemma ancestry_sameShape h g sn chain :
  sameShape h g -> ancestry h sn chain -> ancestry g sn chain.
Proof.
  intros Hs Ha. induction Ha as [|l nd ls E _ IH]; [constructor |].
  destruct (sameShape_Some _ _ _ _ Hs E) as (gnd & Eg & Hsh).
  econstructor; [exact Eg |]. rewrite (shape_Parent _ _ Hsh). exact IH.
Qed.

(** On a chain without a declaration of [n], the walk ends with the panic
    of the undeclared name as soon as the fuel covers the chain, and is cut
    off before. *)
Lemma walk_undeclared h sn chain n :
  ancestry h sn chain ->
  (forall a nd, a ∈ chain -> h !! a = Some nd -> n ∉ Names (sblock nd)) ->
  n ∉ Names UverseNode ->
  forall g fuel gen fc,
    sameShape h g ->
    ((length chain < fuel)%nat ->
     walkAncestors fuel g sn gen fc n = Panic "name not declared") /\
    ((fuel <= length chain)%nat ->
     walkAncestors fuel g sn gen fc n = OutOfFuel).
Proof.
  intros Ha. induction Ha as [|l nd ls E Ha IH]; intros Hnames Hu g fuel gen fc Hs.
  - destruct fuel as [|fuel]; simpl length.
    + split; [lia | reflexivity].
    + split; [| lia]. intros _. rewrite walk_nil.
      rewrite (GetLocalIndex_absent _ _ Hu). reflexivity.
  - destruct fuel as [|fuel]; simpl length.
    + split; [lia | reflexivity].
    + destruct (sameShape_Some _ _ _ _ Hs E) as (gnd & Eg & Hsh).
      assert (Hf : GetLocalIndex (sblock gnd) n = (0, false)).
      { apply GetLocalIndex_absent. rewrite (shape_Names _ _ Hsh).
        eapply Hnames; [| exact E]. apply list_elem_of_here. }
      rewrite (walk_next _ _ _ _ _ _ _ _ Eg Hf).
      rewrite (shape_Parent _ _ Hsh).
      assert (Hs' : sameShape h (stepStore g l gnd n)).
      { eapply sameShape_trans; [exact Hs |].
        apply stepStore_sameShape. exact Eg. }
      destruct (IH (fun a and' Hin => Hnames a and' (list_elem_of_further _ _ _ Hin))
                  Hu _ fuel (gen + 1)
                  (if fauxChildKind (kind gnd) then fc + 1 else fc) Hs')
        as [Hp Ho].
      split; intros Hlen; [apply Hp | apply Ho]; lia.
Qed.

(** C3: from a block node initialized on itself, a name other than the
    blank identifier that neither the node, nor any ancestor, nor the
    universe block declares is not resolved: [GetPathForName] returns for no
    amount of fuel, and panics with "name not declared" once the fuel
    covers the chain. *)
Theorem C3_undeclared_name_fails h l chain n :
  selfSourced h l ->
  n <> blankIdentifier ->
  ancestry h (Some l) chain ->
  (forall a nd, a ∈ chain -> h !! a = Some nd -> n ∉ Names (sblock nd)) ->
  n ∉ Names UverseNode ->
  (forall fuel, ~ returns (GetPathForName fuel h l n)) /\
  (forall fuel,
     (length chain <= fuel)%nat ->
     GetPathForName fuel h l n = Panic "name not declared").
Proof.
  intros Hself Hb Ha Hnames Hu.
  assert (Hw : forall fuel,
             ((length chain < S fuel)%nat ->
              GetPathForName fuel h l n = Panic "name not declared") /\
             ((S fuel <= length chain)%nat ->
              GetPathForName fuel h l n = OutOfFuel)).
  { intros fuel. rewrite (GetPathForName_as_walk _ _ _ _ Hb Hself).
    apply (walk_undeclared h (Some l) chain n Ha Hnames Hu h (S fuel) 1 0).
    apply sameShape_refl. }
  split.
  - intros fuel [r Hr]. destruct (Hw fuel) as [Hp Ho].
    destruct (le_lt_dec (S fuel) (length chain)) as [Hle|Hlt].
    + rewrite (Ho Hle) in Hr. discriminate.
    + rewrite (Hp Hlt) in Hr. discriminate.
  - intros fuel Hlen. apply (Hw fuel). lia.
Qed.

(** C5, as the code has it.  After a resolution of [n] from a node
    initialized on itself: every traversed scope that is not a file has [n]
    among its externs (appended unless already there); file nodes are left as
    they were, traversed or not; so is every scope that was not traversed, in
    particular every scope that declares [n]; and when the starting scope
    declares [n] the whole store is unchanged. *)
Theorem C5_extern_recording fuel h l n h' p :
  n <> blankIdentifier ->
  selfSourced h l ->
  GetPathForName fuel h l n = Ok (h', p) ->
  (forall t nd,
     t ∈ traversed fuel h l n -> h !! t = Some nd ->
     isFileKind (kind nd) = false ->
     h' !! t = Some (withExtern n nd) /\ n ∈ Externs (sblock (withExtern n nd))) /\
  (forall t nd,
     h !! t = Some nd -> isFileKind (kind nd) = true -> h' !! t = Some nd) /\
  (forall t, t ∉ traversed fuel h l n -> h' !! t = h !! t) /\
  (forall t nd,
     h !! t = Some nd -> n ∈ Names (sblock nd) -> h' !! t = Some nd) /\
  (forall sbn, h !! l = Some sbn -> n ∈ Names (sblock sbn) -> h' = h).
Proof.
  intros Hb Hself Hg.
  rewrite (GetPathForName_as_walk _ _ _ _ Hb Hself) in Hg.
  pose proof (walk_spec _ _ _ _ _ _ _ _ Hg) as Hlook.
  fold (traversed fuel h l n) in Hlook.
  assert (Hout : forall t, t ∉ traversed fuel h l n -> h' !! t = h !! t).
  { intros t Hnot. rewrite Hlook.
    destruct (h !! t) as [nd|]; simpl; [| reflexivity].
    unfold touch. rewrite (bool_decide_eq_false_2 _ Hnot). reflexivity. }
  assert (Hdecl : forall t nd,
             h !! t = Some nd -> n ∈ Names (sblock nd) ->
             t ∉ traversed fuel h l n).
  { intros t nd Et Hin Htr.
    apply traversedFrom_undeclared in Htr as (nd' & Et' & Hnot).
    rewrite Et in Et'. injection Et' as <-. contradiction. }
  split; [| split; [| split; [| split]]].
  - intros t nd Htr Et Hfile. split; [| apply withExtern_elem].
    rewrite Hlook, Et. simpl. unfold touch.
    rewrite (bool_decide_eq_true_2 _ Htr), Hfile. reflexivity.
  - intros t nd Et Hfile. rewrite Hlook, Et. simpl. unfold touch.
    rewrite Hfile, andb_false_r. reflexivity.
  - exact Hout.
  - intros t nd Et Hin. rewrite (Hout t (Hdecl t nd Et Hin)). exact Et.
  - intros sbn E Hin. apply map_eq. intros t. apply Hout.
    destruct (GetLocalIndex_elem _ _ Hin) as [idx Hf].
    unfold traversed. rewrite (traversedFrom_found _ _ _ _ _ _ E Hf).
    apply not_elem_of_nil.
Qed.

(** C7: the constructors of value paths and [SetDepth] hand out depths of
    at most 127 and panic on a greater one, and so does [GetPathForName],
    which builds its result with these constructors, however long the chain of
    scopes. *)
Theorem C7_depth_bound :
  (forall vp, Constructed vp -> Depth vp <= MaxValuePathDepth) /\
  (forall t d i n, MaxValuePathDepth < d -> panics (NewValuePath t d i n)) /\
  (forall d i n,
     MaxValuePathDepth < d ->
     panics (NewValuePathBlock d i n) /\ panics (NewValuePathField d i n) /\
     panics (NewValuePathSubrefField d i n) /\
     panics (NewValuePathDerefField d i n)) /\
  (forall vp d, MaxValuePathDepth < d -> panics (SetDepth vp d)) /\
  (forall fuel h l n h' p,
     GetPathForName fuel h l n = Ok (h', p) -> Depth p <= MaxValuePathDepth).
Proof.
  unfold MaxValuePathDepth.
  split; [exact Constructed_depth |].
  split; [intros t d i n Hd; eexists; apply NewValuePath_deep, Hd |].
  split.
  { intros d i n Hd.
    repeat split; eexists; apply NewValuePath_deep, Hd. }
  split; [intros vp d Hd; eexists; apply SetDepth_deep, Hd |].
  intros fuel h l n h' p Hg.
  destruct (decide (n = blankIdentifier)) as [->|Hb].
  { rewrite GetPathForName_blank in Hg. injection Hg as _ <-. simpl. lia. }
  destruct (h !! l) as [sbn|] eqn:E.
  2:{ unfold GetPathForName in Hg. apply String.eqb_neq in Hb.
      rewrite Hb in Hg. simpl in Hg. rewrite E in Hg. discriminate. }
  rewrite (GetPathForName_named _ _ _ _ _ Hb E) in Hg.
  destruct (GetLocalIndex (sblock sbn) n) as [idx [|]].
  - inv_bind Hg as vp Evp. injection Hg as _ <-.
    apply NewValuePath_Ok in Evp as [-> Hd]. exact Hd.
  - cbv zeta in Hg. inv_bind Hg as sn' Eparent.
    eapply walk_depth, Hg.
Qed.

(** *** From a path back to its block *)

(** One iteration of the loop of [GetBlockNodeForPath]. *)
Definition ascendStep (h : Store) (bn : option loc) : res (option loc) :=
  bn1 ← (if fauxChildBlockNode h bn then GetParentNode h bn else Ok bn);
  GetParentNode h bn1.

(** The type switch that ends [GetBlockNodeForPath]. *)
Definition locate (h : Store) (bn : option loc) (idx : Z) : res (option loc) :=
  if fauxChildBlockNode h bn then
    pn ← GetParentNode h bn;
    pnd ← getNode h pn;
    if idx <? GetNumNames (sblock pnd) then Ok pn else Ok bn
  else Ok bn.

Lemma ascend_S h k bn :
  ascend h (S k) bn = (bn2 ← ascendStep h bn; ascend h k bn2).
Proof.
  simpl. unfold ascendStep.
  destruct (if fauxChildBlockNode h bn then GetParentNode h bn else Ok bn);
    reflexivity.
Qed.

Lemma ascend_snoc h k :
  forall bn, ascend h (S k) bn = (x ← ascend h k bn; ascendStep h x).
Proof.
  induction k as [|k IH]; intros bn.
  - rewrite ascend_S. simpl. destruct (ascendStep h bn); reflexivity.
  - rewrite ascend_S. rewrite (ascend_S h k bn).
    destruct (ascendStep h bn) as [bn2| |]; simpl; [apply IH | reflexivity..].
Qed.

Lemma faux_Some h l nd :
  h !! l = Some nd -> fauxChildBlockNode h (Some l) = fauxChildKind (kind nd).
Proof. intros E. unfold fauxChildBlockNode. simpl. rewrite E. reflexivity. Qed.

Lemma faux_true h bn :
  fauxChildBlockNode h bn = true ->
  exists c cnd, bn = Some c /\ h !! c = Some cnd /\ fauxChildKind (kind cnd) = true.
Proof.
  unfold fauxChildBlockNode. destruct bn as [c|]; simpl; [| discriminate].
  destruct (h !! c) as [cnd|] eqn:E; simpl; [| discriminate]. eauto.
Qed.

Lemma GetParentNode_Some h l nd :
  h !! l = Some nd -> GetParentNode h (Some l) = Ok (Parent (sblock nd)).
Proof. intros E. unfold GetParentNode. simpl. rewrite E. reflexivity. Qed.

Lemma node_GetLocalIndex_Some h l nd n :
  h !! l = Some nd ->
  node_GetLocalIndex h (Some l) n = Ok (GetLocalIndex (sblock nd) n).
Proof. intros E. unfold node_GetLocalIndex. simpl. rewrite E. reflexivity. Qed.

Lemma GetBlockNodeForPath_block h l sbn path :
  Type_ path = VPBlock ->
  h !! l = Some sbn ->
  GetBlockNodeForPath h l path =
  (bn ← ascend h (Z.to_nat (Depth path - 1)) (Source (SBlock (sblock sbn)));
   locate h bn (Index path)).
Proof.
  intros Ht E. unfold GetBlockNodeForPath. rewrite Ht. simpl. rewrite E.
  reflexivity.
Qed.

Lemma sameShape_ascendStep h g bn :
  sameShape h g -> ascendStep h bn = ascendStep g bn.
Proof.
  intros Hs. unfold ascendStep.
  rewrite (sameShape_faux h g bn Hs), (sameShape_GetParentNode h g bn Hs).
  destruct (if fauxChildBlockNode g bn then GetParentNode g bn else Ok bn);
    simpl; [apply sameShape_GetParentNode, Hs | reflexivity..].
Qed.

Lemma sameShape_ascend h g k :
  sameShape h g -> forall bn, ascend h k bn = ascend g k bn.
Proof.
  intros Hs. induction k as [|k IH]; intros bn; [reflexivity |].
  rewrite !ascend_S, (sameShape_ascendStep h g bn Hs).
  destruct (ascendStep g bn); simpl; [apply IH | reflexivity..].
Qed.

Lemma sameShape_locate h g bn idx :
  sameShape h g -> locate h bn idx = locate g bn idx.
Proof.
  intros Hs. unfold locate.
  rewrite (sameShape_faux h g bn Hs), (sameShape_GetParentNode h g bn Hs).
  destruct (fauxChildBlockNode g bn); [| reflexivity].
  destruct (GetParentNode g bn) as [pn| |]; simpl; [| reflexivity..].
  unfold getNode. destruct pn as [pl|]; [| reflexivity].
  destruct (h !! pl) as [pnd|] eqn:E.
  - destruct (sameShape_Some _ _ _ _ Hs E) as (gpnd & -> & Hsh). simpl.
    unfold GetNumNames. rewrite (shape_NumNames _ _ Hsh). reflexivity.
  - rewrite (sameShape_None _ _ _ Hs E). reflexivity.
Qed.

Lemma sameShape_node_GetLocalIndex h g bn n :
  sameShape h g -> node_GetLocalIndex h bn n = node_GetLocalIndex g bn n.
Proof.
  intros Hs. unfold node_GetLocalIndex, getNode. destruct bn as [l|]; [| reflexivity].
  destruct (h !! l) as [nd|] eqn:E.
  - destruct (sameShape_Some _ _ _ _ Hs E) as (gnd & -> & Hsh). simpl.
    rewrite (shape_GetLocalIndex _ _ n Hsh). reflexivity.
  - rewrite (sameShape_None _ _ _ Hs E). reflexivity.
Qed.

Lemma sameShape_GetBlockNodeForPath h g l path :
  sameShape h g -> GetBlockNodeForPath h l path = GetBlockNodeForPath g l path.
Proof.
  intros Hs. unfold GetBlockNodeForPath.
  destruct (negb (Type_ path =? VPBlock)); [reflexivity |].
  unfold getNode. destruct (h !! l) as [sbn|] eqn:E.
  - destruct (sameShape_Some _ _ _ _ Hs E) as (gsbn & -> & Hsh). simpl.
    unfold GetSource.
    rewrite (shape_Source _ _ Hsh), (sameShape_ascend h g _ Hs).
    destruct (ascend g _ _) as [bn| |]; simpl; [| reflexivity..].
    apply (sameShape_locate h g bn (Index path) Hs).
  - rewrite (sameShape_None _ _ _ Hs E). reflexivity.
Qed.

(** A name found in a faux child below the length of its faux parent's name
    list is found in the faux parent at the same index. *)
Lemma GetLocalIndex_prefix sbp sbc n idx :
  Names sbp `prefix_of` Names sbc ->
  Z.of_nat (length (Names sbc)) <= 65535 ->
  GetLocalIndex sbc n = (idx, true) ->
  idx < Z.of_nat (length (Names sbp)) ->
  GetLocalIndex sbp n = (idx, true).
Proof.
  intros [rest Hpre] Hlen Hf Hlt.
  apply GetLocalIndex_true in Hf as (i & Hi & ->).
  rewrite Hpre in Hi. apply list_find_Some in Hi as Hi'.
  destruct Hi' as (Hlook & _). apply lookup_lt_Some in Hlook.
  rewrite Hpre in Hlen. unfold uint16 in Hlt. rewrite Z.mod_small in Hlt by lia.
  apply list_find_app_Some in Hi as [Hi|(Hge & _)]; [| lia].
  unfold GetLocalIndex. rewrite Hi. reflexivity.
Qed.

Section Locate.
Variables (h : Store) (b : loc) (n : Name).
Hypothesis Hinv : storeInv h.

(** After [k] iterations from [b], the loop of [GetBlockNodeForPath] stands
    on the node the walk is about to inspect, or on a faux child whose parent
    that node is. *)
Definition landed (k : nat) (sn : option loc) : Prop :=
  exists land,
    ascend h k (Some b) = Ok land /\
    (land = sn \/
     (fauxChildBlockNode h land = true /\ GetParentNode h land = Ok sn)).

Lemma landed_next k l nd :
  h !! l = Some nd ->
  landed k (Some l) ->
  if fauxChildKind (kind nd) then landed k (Parent (sblock nd))
  else landed (S k) (Parent (sblock nd)).
Proof.
  intros E (land & Hasc & Hl).
  destruct Hl as [->|[Hfaux Hpar]].
  - destruct (fauxChildKind (kind nd)) eqn:Hk.
    + exists (Some l). split; [exact Hasc |]. right.
      rewrite (faux_Some _ _ _ E), (GetParentNode_Some _ _ _ E). auto.
    + exists (Parent (sblock nd)). split; [| left; reflexivity].
      rewrite ascend_snoc, Hasc. simpl. unfold ascendStep.
      rewrite (faux_Some _ _ _ E), Hk. simpl.
      apply GetParentNode_Some. exact E.
  - destruct (faux_true _ _ Hfaux) as (c & cnd & -> & Ec & Hck).
    destruct (inv_faux _ _ (Hinv c cnd Ec) Hck) as (pp & pnd & Hp & Epp & Hnf & _).
    rewrite (GetParentNode_Some _ _ _ Ec), Hp in Hpar.
    injection Hpar as ->. rewrite E in Epp. injection Epp as <-.
    rewrite Hnf.
    exists (Parent (sblock nd)). split; [| left; reflexivity].
    rewrite ascend_snoc, Hasc. simpl. unfold ascendStep.
    rewrite Hfaux, (GetParentNode_Some _ _ _ Ec), Hp. simpl.
    apply GetParentNode_Some. exact E.
Qed.

Lemma landed_found k l nd idx :
  h !! l = Some nd ->
  GetLocalIndex (sblock nd) n = (idx, true) ->
  landed k (Some l) ->
  exists r,
    (bn ← ascend h k (Some b); locate h bn idx) = Ok r /\
    node_GetLocalIndex h r n = Ok (idx, true).
Proof.
  intros E Hf (land & Hasc & Hl). rewrite Hasc. simpl.
  pose proof (Hinv l nd E) as Hnd.
  assert (Hidx : 0 <= idx < NumNames (sblock nd)).
  { rewrite (inv_numNames _ _ Hnd).
    apply (GetLocalIndex_lookup _ _ _ Hf).
    pose proof (inv_bound _ _ Hnd). rewrite (inv_numNames _ _ Hnd) in *. lia. }
  destruct Hl as [->|[Hfaux Hpar]].
  - unfold locate. rewrite (faux_Some _ _ _ E).
    destruct (fauxChildKind (kind nd)) eqn:Hk.
    + destruct (inv_faux _ _ Hnd Hk) as (pp & pnd & Hp & Epp & _ & Hpre).
      rewrite (GetParentNode_Some _ _ _ E), Hp. simpl. rewrite Epp. simpl.
      unfold GetNumNames.
      destruct (Z.ltb_spec idx (NumNames (sblock pnd))) as [Hlt|Hge].
      * exists (Some pp). split; [reflexivity |].
        rewrite (node_GetLocalIndex_Some _ _ _ _ Epp). f_equal.
        apply (GetLocalIndex_prefix _ (sblock nd)); auto.
        -- pose proof (inv_bound _ _ Hnd). rewrite (inv_numNames _ _ Hnd) in *. lia.
        -- rewrite <- (inv_numNames _ _ (Hinv pp pnd Epp)). exact Hlt.
      * exists (Some l). split; [reflexivity |].
        rewrite (node_GetLocalIndex_Some _ _ _ _ E), Hf. reflexivity.
    + exists (Some l). split; [reflexivity |].
      rewrite (node_GetLocalIndex_Some _ _ _ _ E), Hf. reflexivity.
  - unfold locate. rewrite Hfaux, Hpar. simpl. rewrite E. simpl.
    unfold GetNumNames.
    destruct (Z.ltb_spec idx (NumNames (sblock nd))) as [Hlt|Hge]; [| lia].
    exists (Some l). split; [reflexivity |].
    rewrite (node_GetLocalIndex_Some _ _ _ _ E), Hf. reflexivity.
Qed.

Lemma walk_locate fuel :
  forall g sn gen fc k h' p,
    sameShape h g ->
    walkAncestors fuel g sn gen fc n = Ok (h', p) ->
    Type_ p = VPBlock ->
    gen - fc = Z.of_nat k + 1 ->
    landed k sn ->
    exists r,
      (bn ← ascend h (Z.to_nat (Depth p - 1)) (Some b); locate h bn (Index p)) = Ok r /\
      node_GetLocalIndex h r n = Ok (Index p, true).
Proof.
  induction fuel as [|fuel IH]; intros g sn gen fc k h' p Hs Hw Ht Hk Hland.
  { discriminate. }
  destruct sn as [l|].
  2:{ rewrite walk_nil in Hw.
      destruct (GetLocalIndex UverseNode n) as [idx [|]]; [| discriminate].
      inv_bind Hw as vp Evp. injection Hw as _ <-.
      apply NewValuePath_Ok in Evp as [-> _]. discriminate. }
  destruct (g !! l) as [gnd|] eqn:Eg.
  2:{ rewrite walk_dangling in Hw by exact Eg. discriminate. }
  destruct (sameShape_Some _ _ _ _ (sameShape_sym _ _ Hs) Eg) as (nd & E & Hsh).
  destruct (GetLocalIndex (sblock gnd) n) as [idx [|]] eqn:Hf.
  - rewrite (walk_found _ _ _ _ _ _ _ _ Eg Hf) in Hw.
    destruct (Z.ltb_spec 0xff (gen - fc)) as [|Hov]; [discriminate |].
    inv_bind Hw as vp Evp. injection Hw as _ <-.
    apply NewValuePath_Ok in Evp as [-> _]. simpl.
    unfold uint8. rewrite Z.mod_small by lia.
    replace (Z.to_nat (gen - fc - 1)) with k by lia.
    apply (landed_found k l nd idx E); [| exact Hland].
    rewrite (shape_GetLocalIndex _ _ n Hsh). exact Hf.
  - rewrite (walk_next _ _ _ _ _ _ _ _ Eg Hf) in Hw.
    pose proof (landed_next k l nd E Hland) as Hnext.
    rewrite <- (shape_kind _ _ Hsh), <- (shape_Parent _ _ Hsh) in Hw.
    assert (Hs' : sameShape h (if isFileKind (kind nd) then g
                               else recordExtern g l gnd n)).
    { eapply sameShape_trans; [exact Hs |].
      rewrite (shape_kind _ _ Hsh). apply (stepStore_sameShape g l gnd n Eg). }
    destruct (fauxChildKind (kind nd)).
    + eapply (IH _ _ _ _ k _ _ Hs' Hw Ht); [lia | exact Hnext].
    + eapply (IH _ _ _ _ (S k) _ _ Hs' Hw Ht); [lia | exact Hnext].
Qed.

End Locate.

(** C9, as the code has it.  In a store laid out as [storeInv] says (name
    counts equal to the lengths of the name lists, every faux child below a
    node that is not a faux child and whose names it starts with), a block
    path returned by [GetPathForName] from a node initialized
    on itself leads [GetBlockNodeForPath] to a block that declares the name at
    the index of the path; the block is the faux parent when the index falls
    among the names the faux child shares with it. *)
Theorem C9_resolve_locate_round_trip fuel h b n h' p :
  storeInv h ->
  selfSourced h b ->
  n <> blankIdentifier ->
  GetPathForName fuel h b n = Ok (h', p) ->
  Type_ p = VPBlock ->
  1 <= Depth p ->
  exists r,
    GetBlockNodeForPath h' b p = Ok r /\
    node_GetLocalIndex h' r n = Ok (Index p, true).
Proof.
  intros Hinv Hself Hb Hg Ht _.
  rewrite (GetPathForName_as_walk _ _ _ _ Hb Hself) in Hg.
  pose proof (walk_sameShape _ _ _ _ _ _ _ _ Hg) as Hs.
  destruct (walk_locate h b n Hinv (S fuel) h (Some b) 1 0 0%nat h' p
              (sameShape_refl h) Hg Ht) as (r & Hr & Hidx).
  { reflexivity. }
  { exists (Some b). split; [reflexivity | left; reflexivity]. }
  exists r. destruct Hself as (sbn & E & Hsrc).
  rewrite <- (sameShape_GetBlockNodeForPath h h' b p Hs).
  rewrite <- (sameShape_node_GetLocalIndex h h' r n Hs).
  rewrite (GetBlockNodeForPath_block _ _ _ _ Ht E), Hsrc. auto.
Qed.

End Resolution.

End ScopeProofs.

(** * The properties on the small instance *)

Module Instances.
Import VP Scope Example ScopeProofs.

#[local] Existing Instance toyTypes.
#[local] Existing Instance toyEnv.

Ltac not_in_list :=
  let Hin := fresh "Hin" in
  intros Hin;
  repeat (apply elem_of_cons in Hin as [Hin|Hin]; [discriminate Hin |]);
  apply elem_of_nil in Hin; exact Hin.

Lemma pkgStore_self : selfSourced pkgStore 2%nat.
Proof. eexists. split; reflexivity. Qed.

Lemma nestedStore_self : selfSourced nestedStore 3%nat.
Proof. eexists. split; reflexivity. Qed.

Lemma ifStore_self : selfSourced ifStore 1%nat.
Proof. eexists. split; reflexivity. Qed.

Lemma nestedStore_inv : storeInv nestedStore.
Proof.
  unfold storeInv.
  change (map_Forall (fun (_ : loc) nd => nodeInv nestedStore nd) nestedStore).
  unfold nestedStore at 2.
  repeat apply map_Forall_insert_2; [.. | apply map_Forall_empty].
  - constructor; [reflexivity | simpl; lia | discriminate].
  - constructor; [reflexivity | simpl; lia | discriminate].
  - constructor; [reflexivity | simpl; lia |]. intros _.
    exists 1%nat. eexists. split; [reflexivity |]. split; [reflexivity |].
    split; [reflexivity |]. exists ["x"]. reflexivity.
  - constructor; [reflexivity | simpl; lia | discriminate].
Qed.

Lemma nestedStore_ancestry :
  ancestry nestedStore (Some 3%nat) [3%nat; 2%nat; 1%nat; 0%nat].
Proof.
  repeat (eapply ancestry_cons; [reflexivity | simpl]). constructor.
Qed.

Lemma nestedStore_nope a (nd : BlockNode) :
  a ∈ [3%nat; 2%nat; 1%nat; 0%nat] -> nestedStore !! a = Some nd ->
  "nope" ∉ Names (sblock nd).
Proof.
  intros Ha E.
  repeat (apply elem_of_cons in Ha as [->|Ha];
          [vm_compute in E; injection E as <-; simpl; not_in_list |]).
  apply elem_of_nil in Ha. contradiction.
Qed.

(** C1 on the package store: the function declaration resolves [x], twice. *)
Lemma C1_witness :
  exists h' p,
    GetPathForName 8 pkgStore 2%nat "x" = Ok (h', p) /\
    GetPathForName 8 h' 2%nat "x" = Ok (h', p).
Proof.
  eexists. eexists. split; [vm_compute; reflexivity |].
  apply (proj1 C1_resolution_idempotent 8%nat pkgStore). vm_compute.
  reflexivity.
Defined.

(** C2 as worded fails, in both directions.  [x] is declared with the type
    [Stringer] and holds a value of the type [A].  Defining it again with the
    declared type [Stringer] and a value of the type [B] panics with "cannot
    change .T": the declared type is identical, the definition is refused.
    Defining it again with the declared type [A] and a value of the type [A]
    returns: the declared type is another, the definition is accepted. *)
Lemma C2_counterexample :
  ~ sameDeclaredTypeRedefinitionSucceeds /\ ~ otherDeclaredTypeRedefinitionFails.
Proof.
  split.
  - intros Hc.
    destruct (Hc blockS "x" 0 (ofType "A") false (Some "Stringer") (ofType "B"))
      as [sb' Hsb']; [first [reflexivity | discriminate] .. |].
    vm_compute in Hsb'. discriminate Hsb'.
  - intros Hc.
    apply (Hc blockS "x" 0 (ofType "A") false "Stringer" "A" (ofType "A"));
      [reflexivity | reflexivity | reflexivity | reflexivity | |].
    + intros H. vm_compute in H. discriminate H.
    + eexists. vm_compute. reflexivity.
Qed.

(** C2 on the blocks [blockS] and [blockF]: [x] again with a value of the
    type it has, under another declared type; [x] with a value of another
    type; an upgrade of the function [f]; another function of the same type
    in place of [f]; [x] as a constant. *)
Lemma C2_witness :
  (exists sb',
     Define2 false "x" (Some "A") (ofType "A") blockS = Ok sb' /\
     Names sb' = ["x"] /\
     Values (SBlock sb') !! 0%nat = Some (ofType "A") /\
     Types sb' !! 0%nat = Some (Some "A")) /\
  panics (Define2 false "x" (Some "Stringer") (ofType "B") blockS) /\
  (exists sb',
     Define2 false "f" (Some "func()")
       (typed "func()" (FuncV (Some "func()") 9)) blockF = Ok sb' /\
     Values (SBlock sb') !! 0%nat =
       Some (typed "func(int)" (FuncV (Some "func(int)") 9)) /\
     Types sb' !! 0%nat = Some (Some "func(int)") /\
     oldValues sb' = [mkOldValue 0 (Some (FuncV (Some "func(int)") 7))]) /\
  panics (Define2 false "f" (Some "func(int)")
            (typed "func(int)" (FuncV (Some "func(int)") 9)) blockF) /\
  panics (Define2 true "x" (Some "Stringer") (ofType "A") blockS).
Proof.
  destruct (@C2_redefinition_rule toyTypes toyEnv)
    as (Hsame & Hdiff & Hfunc & Hval & Hconst).
  split; [| split; [| split; [| split]]].
  - destruct (Hsame blockS "x" 0 (ofType "A") false (Some "A") (ofType "A")
                "A" "A")
      as (sb' & E & Hn & _ & Hv & Ht & _);
      try reflexivity; try discriminate.
    exists sb'. split; [exact E |]. split; [exact Hn |].
    split; [exact Hv | exact Ht].
  - apply (Hdiff blockS "x" 0 (ofType "A") false (Some "Stringer")
             (ofType "B") "B" "A");
      first [reflexivity | discriminate].
  - destruct (Hfunc blockF "f" 0
                (typed "func(int)" (FuncV (Some "func(int)") 7))
                false (Some "func()")
                (typed "func()" (FuncV (Some "func()") 9))
                "func()" (FuncV (Some "func()") 9))
      as (sb' & E & _ & _ & Hv & Ht & _ & Ho);
      try reflexivity; try discriminate.
    exists sb'. split; [exact E |]. split; [exact Hv |].
    split; [exact Ht | exact Ho].
  - apply (Hval blockF "f" 0
             (typed "func(int)" (FuncV (Some "func(int)") 7))
             false (Some "func(int)")
             (typed "func(int)" (FuncV (Some "func(int)") 9))
             "func(int)" "func(int)");
      try reflexivity; try discriminate.
  - apply (Hconst blockS "x" 0 true (Some "Stringer") (ofType "A"));
      try reflexivity; try discriminate.
Defined.

(** C3 on the nested store: nothing declares [nope]. *)
Lemma C3_witness :
  (forall fuel, ~ returns (GetPathForName fuel nestedStore 3%nat "nope")) /\
  (forall fuel,
     (4 <= fuel)%nat ->
     GetPathForName fuel nestedStore 3%nat "nope" = Panic "name not declared").
Proof.
  apply (C3_undeclared_name_fails nestedStore 3%nat
           [3%nat; 2%nat; 1%nat; 0%nat] "nope").
  - exact nestedStore_self.
  - discriminate.
  - exact nestedStore_ancestry.
  - exact nestedStore_nope.
  - simpl. not_in_list.
Defined.

(** C4 on [blockX]: after a predefinition of [y], its definition and a
    definition of [z], [x] is still at index 0; the definition of [y] writes
    the typed value and the declared type at index 1, which held the
    undefined value of the predefinition, and leaves the slot of [x] alone. *)
Lemma C4_witness :
  (exists sb',
     runOps [OpPredefine false "y";
             OpDefine2 false "y" (Some "int") (ofType "int");
             OpDefine2 true "z" (Some "int") (ofType "int")] blockX = Ok sb' /\
     GetLocalIndex sb' "x" = (0, true)) /\
  (exists sb1 sb2,
     Predefine false "y" blockX = Ok sb1 /\
     Define2 false "y" (Some "int") (ofType "int") sb1 = Ok sb2 /\
     Values (SBlock sb1) !! 1%nat = Some (mkTypedValue None None) /\
     Types sb1 !! 1%nat = Some None /\
     GetLocalIndex sb2 "y" = (1, true) /\
     Values (SBlock sb2) !! 1%nat = Some (ofType "int") /\
     Types sb2 !! 1%nat = Some (Some "int") /\
     Values (SBlock sb2) !! 0%nat = Values (SBlock sb1) !! 0%nat).
Proof.
  destruct (@C4_slot_index_stable toyTypes toyEnv) as (Hops & Hredef & _).
  split.
  - assert (Hrun : exists sb',
               runOps [OpPredefine false "y";
                       OpDefine2 false "y" (Some "int") (ofType "int");
                       OpDefine2 true "z" (Some "int") (ofType "int")] blockX
               = Ok sb').
    { eexists. vm_compute. reflexivity. }
    destruct Hrun as (sb' & Hrun). exists sb'. split; [exact Hrun |].
    destruct (Hops _ _ _ Hrun) as [_ Hstable].
    apply Hstable. reflexivity.
  - assert (Hp : exists sb1, Predefine false "y" blockX = Ok sb1).
    { eexists. vm_compute. reflexivity. }
    destruct Hp as (sb1 & Hp).
    assert (Hd : exists sb2,
               Define2 false "y" (Some "int") (ofType "int") sb1 = Ok sb2).
    { vm_compute in Hp. injection Hp as <-. eexists. vm_compute. reflexivity. }
    destruct Hd as (sb2 & Hd).
    exists sb1, sb2. split; [exact Hp |]. split; [exact Hd |].
    assert (Hf : GetLocalIndex sb1 "y" = (1, true)).
    { vm_compute in Hp. injection Hp as <-. reflexivity. }
    destruct (Hredef false "y" (Some "int") (ofType "int") sb1 sb2 1 Hf)
      as (_ & Hf2 & _ & _ & Hrest & old & Hold & Hplain & _);
      [discriminate | exact Hd |].
    assert (Hundef : Values (SBlock sb1) !! 1%nat = Some (mkTypedValue None None)).
    { vm_compute in Hp. injection Hp as <-. reflexivity. }
    split; [exact Hundef |].
    split; [vm_compute in Hp; injection Hp as <-; reflexivity |].
    split; [exact Hf2 |].
    assert (Hold' : old = mkTypedValue None None).
    { change (Z.to_nat 1) with 1%nat in Hold. congruence. }
    subst old. destruct Hplain as [Hv Ht]; [reflexivity |].
    split; [exact Hv |]. split; [exact Ht |].
    apply (Hrest 0%nat). discriminate.
Defined.

(** C5 as worded fails: resolving [x] from the function declaration
    traverses the file node, which is not the defining scope and records
    nothing. *)
Lemma C5_counterexample : ~ everyTraversedScopeRecords.
Proof.
  intros Hc.
  assert (Hg : exists h' p,
             GetPathForName 8 pkgStore 2%nat "x" = Ok (h', p) /\
             h' !! 1%nat =
             Some (mkBlockNode KFileNode (namesBlock (Some 1%nat) (Some 0%nat) []))).
  { eexists. eexists. split; vm_compute; reflexivity. }
  destruct Hg as (h' & p & Hg & Hfile).
  destruct (Hc 8%nat pkgStore 2%nat "x" h' p) with (t := 1%nat)
    as (nd' & E & Hin); [discriminate | exact pkgStore_self | exact Hg | |].
  - vm_compute. apply list_elem_of_further, list_elem_of_here.
  - rewrite Hfile in E. injection E as <-. simpl in Hin.
    apply elem_of_nil in Hin. exact Hin.
Qed.

(** C5 on the package store: the function declaration records [x], the
    file and the package do not. *)
Lemma C5_witness :
  exists h' p,
    GetPathForName 8 pkgStore 2%nat "x" = Ok (h', p) /\
    (Externs ∘ sblock <$> h' !! 2%nat) = Some ["x"] /\
    (Externs ∘ sblock <$> h' !! 1%nat) = Some [] /\
    (Externs ∘ sblock <$> h' !! 0%nat) = Some [].
Proof.
  assert (Hg : exists h' p, GetPathForName 8 pkgStore 2%nat "x" = Ok (h', p)).
  { eexists. eexists. vm_compute. reflexivity. }
  destruct Hg as (h' & p & Hg). exists h', p. split; [exact Hg |].
  assert (Hb : "x" <> blankIdentifier) by discriminate.
  destruct (C5_extern_recording 8%nat pkgStore 2%nat "x" h' p Hb pkgStore_self Hg)
    as (Hrec & Hfile & _ & Hdecl & _).
  split; [| split].
  - destruct (Hrec 2%nat
                (mkBlockNode KFuncDecl (namesBlock (Some 2%nat) (Some 1%nat) ["a"])))
      as [-> _]; [vm_compute; apply list_elem_of_here | reflexivity..].
  - rewrite (Hfile 1%nat
               (mkBlockNode KFileNode (namesBlock (Some 1%nat) (Some 0%nat) [])));
      reflexivity.
  - rewrite (Hdecl 0%nat
               (mkBlockNode KPackageNode (namesBlock (Some 0%nat) None ["x"])));
      [reflexivity.. | simpl; apply list_elem_of_here].
Defined.

(** C7 on the nested store: the depth of the path of [z] seen from the
    inner block. *)
Lemma C7_witness :
  exists h' p,
    GetPathForName 8 nestedStore 3%nat "z" = Ok (h', p) /\
    Depth p <= MaxValuePathDepth /\
    panics (NewValuePathBlock 128 0 "z").
Proof.
  destruct (@C7_depth_bound toyTypes toyEnv) as (_ & _ & Hvar & _ & Hres).
  assert (Hg : exists h' p, GetPathForName 8 nestedStore 3%nat "z" = Ok (h', p)).
  { eexists. eexists. vm_compute. reflexivity. }
  destruct Hg as (h' & p & Hg). exists h', p.
  split; [exact Hg |]. split; [exact (Hres _ _ _ _ _ _ Hg) |].
  apply (Hvar 128 0 "z"). reflexivity.
Defined.

(** C9 as worded fails: the then-clause declares [x] only, its if statement
    declares [y]; the path of [x] has index 0, which is below the name count
    of the if statement, so [GetBlockNodeForPath] answers the if statement,
    and [x] is not declared there. *)
Lemma C9_counterexample : ~ resolveLocateRoundTrip.
Proof.
  intros Hc.
  destruct (Hc 8%nat ifStore 1%nat "x" ifStore (mkValuePath VPBlock 1 0 "x"))
    as (r & Hr & Hidx);
    [discriminate | exact ifStore_self | reflexivity | reflexivity
    | simpl; lia |].
  vm_compute in Hr. injection Hr as <-.
  vm_compute in Hidx. discriminate Hidx.
Qed.

(** C9 on the nested store, whose then-clause starts with the name of its
    if statement: the path of [y] seen from the inner block leads to the if
    statement, where [y] has the index of the path. *)
Lemma C9_witness :
  exists h' p r,
    GetPathForName 8 nestedStore 3%nat "y" = Ok (h', p) /\
    GetBlockNodeForPath h' 3%nat p = Ok r /\
    node_GetLocalIndex h' r "y" = Ok (Index p, true).
Proof.
  assert (Hg : exists h' p,
             GetPathForName 8 nestedStore 3%nat "y" = Ok (h', p) /\
             Type_ p = VPBlock /\ 1 <= Depth p).
  { eexists. eexists. split; [vm_compute; reflexivity |].
    split; [reflexivity | simpl; lia]. }
  destruct Hg as (h' & p & Hg & Ht & Hd).
  assert (Hb : "y" <> blankIdentifier) by discriminate.
  destruct (C9_resolve_locate_round_trip 8%nat nestedStore 3%nat "y" h' p
              nestedStore_inv nestedStore_self Hb Hg Ht Hd) as (r & Hr & Hidx).
  exists h', p, r. auto.
Defined.

(** C10 on [blockX]: predefining [x] as a constant changes nothing. *)
Lemma C10_witness :
  Predefine true "x" blockX = Ok blockX /\
  (forall sb', Predefine false "y" blockX = Ok sb' ->
               Predefine true "y" sb' = Ok sb').
Proof.
  split.
  - apply (proj1 C10_Predefine_present_noop). simpl. apply list_elem_of_here.
  - intros sb'. apply (proj2 C10_Predefine_present_noop).
Defined.

End Instances.

(** ** The crossing marker on three bodies *)

Module CrossingInstances.
Import VP Syntax.

(** The name [crossing], and the calls [crossing()] with the name as it
    stands, under one constant expression and under two. *)
Definition crossingName : Expr :=
  NameExpr (mkValuePath 0 0 0 "") "crossing" NameExprTypeNormal.

Definition callOf (f : Expr) : CallExpr := mkCallExpr f [] false 0 false.

(** C6 on three bodies: the marker is seen as it stands and under one
    constant expression, not under two. *)
Lemma C6_witness :
  IsCrossing [ExprStmt (ECall (callOf crossingName)); EmptyStmt] = true /\
  IsCrossing [ExprStmt (ECall (callOf (ConstExpr crossingName)))] = true /\
  IsCrossing [ExprStmt (ECall (callOf (ConstExpr (ConstExpr crossingName))))]
  = false.
Proof.
  destruct CrossingProofs.C6_IsCrossing_spec as (Hiff & _).
  split; [| split].
  - apply Hiff. eexists _, _, _, _. split; [reflexivity |]. left. reflexivity.
  - apply Hiff. eexists _, _, _, _. split; [reflexivity |]. right. reflexivity.
  - apply Bool.not_true_is_false. intros Ht. apply Hiff in Ht.
    destruct Ht as (cx & rest & path & ty & Hb & [Hf|Hf]);
      injection Hb as <-; discriminate Hf.
Defined.

End CrossingInstances.

(** * Further methods of [nodes.go] *)

(** ** More of the static block: heap items, rollback, lookups by name *)

Module ScopeExt.
Import VP Scope.

Section Methods.
Context {gt : GnoTypes} {ge : GnoEnv}.

Definition set_HeapItems (sb : StaticBlock) (hs : list bool) : StaticBlock :=
  mkStaticBlock (SBlock sb) (Types sb) (NumNames sb) (Names sb) hs
    (UnassignableNames sb) (Consts sb) (Externs sb) (Parent sb) (oldValues sb).

(** [SetIsHeapItem]: [sb.HeapItems[idx] = true] for the index of the name. *)
Definition SetIsHeapItem (sb : StaticBlock) (n : Name) : res StaticBlock :=
  match GetLocalIndex sb n with
  | (idx, true) =>
      if Z.of_nat (length (HeapItems sb)) <=? idx then Panic "index out of range"
      else Ok (set_HeapItems sb (<[Z.to_nat idx := true]> (HeapItems sb)))
  | (_, false) => Panic "name not found in block"
  end.

(** The loop of [revertToOld]: [sb.Block.Values[ov.idx].V = ov.value]. *)
Fixpoint revertValues (ovs : list oldValue) (vals : list TypedValue)
  : res (list TypedValue) :=
  match ovs with
  | [] => Ok vals
  | ov :: rest =>
      match vals !! Z.to_nat (ov_idx ov) with
      | None => Panic "index out of range"
      | Some tv =>
          revertValues rest
            (<[Z.to_nat (ov_idx ov) := mkTypedValue (T tv) (ov_value ov)]> vals)
      end
  end.

(** revert values upon failure of redefinitions. *)
Definition revertToOld (sb : StaticBlock) : res StaticBlock :=
  vals ← revertValues (oldValues sb) (Values (SBlock sb));
  Ok (mkStaticBlock (mkBlock (Source (SBlock sb)) vals) (Types sb) (NumNames sb)
        (Names sb) (HeapItems sb) (UnassignableNames sb) (Consts sb)
        (Externs sb) (Parent sb) []).

(** The [for] loop of [GetIsConst]: [sb] is the block under inspection, [ok]
    whether it declares [n], [bp] its parent. *)
Fixpoint GetIsConst_loop (fuel : nat) (h : Store) (sb : StaticBlock) (ok : bool)
    (bp : option loc) (n : Name) : res bool :=
  match fuel with
  | O => OutOfFuel
  | S fuel' =>
      if ok then Ok (getLocalIsConst sb n)
      else
        match bp with
        | Some _ =>
            nd ← getNode h bp;
            GetIsConst_loop fuel' h (sblock nd)
              (snd (GetLocalIndex (sblock nd) n)) (Parent (sblock nd)) n
        | None => Panic "name not declared"
        end
  end.

Definition GetIsConst (fuel : nat) (h : Store) (l : loc) (n : Name) : res bool :=
  sbn ← getNode h (Some l);
  GetIsConst_loop fuel h (sblock sbn) (snd (GetLocalIndex (sblock sbn) n))
    (Parent (sblock sbn)) n.

Definition GetIsConstAt (h : Store) (l : loc) (path : ValuePath) : res bool :=
  bn ← GetBlockNodeForPath h l path;
  nd ← getNode h bn;
  Ok (getLocalIsConst (sblock nd) (PName path)).

(** The [for] loop of [IsAssignable]: [un] is the list of unassignable names
    of the block under inspection. *)
Fixpoint IsAssignable_loop (fuel : nat) (h : Store) (ok : bool) (un : list Name)
    (bp : option loc) (n : Name) : res bool :=
  match fuel with
  | O => OutOfFuel
  | S fuel' =>
      if ok then Ok (negb (bool_decide (n ∈ un)))
      else
        match bp with
        | Some _ =>
            nd ← getNode h bp;
            IsAssignable_loop fuel' h (snd (GetLocalIndex (sblock nd) n))
              (UnassignableNames (sblock nd)) (Parent (sblock nd)) n
        | None =>
            if snd (GetLocalIndex UverseNode n) then Ok false else Ok true
        end
  end.

Definition IsAssignable (fuel : nat) (h : Store) (l : loc) (n : Name) : res bool :=
  sbn ← getNode h (Some l);
  IsAssignable_loop fuel h (snd (GetLocalIndex (sblock sbn) n))
    (UnassignableNames (sblock sbn)) (Parent (sblock sbn)) n.

(** [ts[idx]] *)
Definition typeAt (ts : list (option GType)) (idx : Z) : res (option GType) :=
  match ts !! Z.to_nat idx with
  | Some t => Ok t
  | None => Panic "index out of range"
  end.

Section StaticTypes.

(** [Uverse().GetValueAt(store, path)] is outside nodes.go: the typed value
    of the universe block at a universe path. *)
Variable UverseValueAt : ValuePath -> TypedValue.

(** The [for] loop of [GetStaticTypeOf]: [idx], [ok] is the lookup of [n] in
    the block under inspection, [ts] its list of types. *)
Fixpoint GetStaticTypeOf_loop (fuel : nat) (h : Store) (idx : Z) (ok : bool)
    (ts : list (option GType)) (bp : option loc) (n : Name)
  : res (option GType) :=
  match fuel with
  | O => OutOfFuel
  | S fuel' =>
      if ok then typeAt ts idx
      else
        match bp with
        | Some _ =>
            nd ← getNode h bp;
            GetStaticTypeOf_loop fuel' h
              (fst (GetLocalIndex (sblock nd) n))
              (snd (GetLocalIndex (sblock nd) n))
              (Types (sblock nd)) (Parent (sblock nd)) n
        | None =>
            match GetLocalIndex UverseNode n with
            | (uidx, true) =>
                path ← NewValuePathUverse uidx n;
                Ok (T (UverseValueAt path))
            | (_, false) => Panic "name not declared"
            end
        end
  end.

Definition GetStaticTypeOf (fuel : nat) (h : Store) (l : loc) (n : Name)
  : res (option GType) :=
  sbn ← getNode h (Some l);
  GetStaticTypeOf_loop fuel h
    (fst (GetLocalIndex (sblock sbn) n)) (snd (GetLocalIndex (sblock sbn) n))
    (Types (sblock sbn)) (Parent (sblock sbn)) n.

End StaticTypes.

(** [GetStaticTypeOfAt], without the check that is made under [debug]. *)
Definition GetStaticTypeOfAt (h : Store) (l : loc) (path : ValuePath)
  : res (option GType) :=
  bn ← GetBlockNodeForPath h l path;
  nd ← getNode h bn;
  typeAt (Types (sblock nd)) (Index path).

(** *** Vocabulary *)

(** The layout that [Define2] keeps in a block: parallel lists of the length
    of the name list, a name count that is this length, no name twice, and
    neither the empty name nor the blank identifier among the names. *)
Record blockInv (sb : StaticBlock) : Prop := mkBlockInv {
  bi_numNames : NumNames sb = Z.of_nat (length (Names sb));
  bi_bound : NumNames sb <= 65535;
  bi_values : length (Values (SBlock sb)) = length (Names sb);
  bi_types : length (Types sb) = length (Names sb);
  bi_heapItems : length (HeapItems sb) = length (Names sb);
  bi_nodup : NoDup (Names sb);
  bi_blank : blankIdentifier ∉ Names sb;
  bi_empty : "" ∉ Names sb;
  bi_consts : forall n, n ∈ Consts sb -> n ∈ Names sb
}.

(** [d] is the nearest scope that declares [n], seen from [sn]: the scopes
    [pre] come first on the chain of ancestors and do not declare it. *)
Definition nearest (h : Store) (sn : option loc) (n : Name)
    (pre : list loc) (d : loc) (dnd : BlockNode) : Prop :=
  exists post,
    ancestry h sn (pre ++ d :: post) /\
    (forall a nd, a ∈ pre -> h !! a = Some nd -> n ∉ Names (sblock nd)) /\
    h !! d = Some dnd /\
    n ∈ Names (sblock dnd).

(** No scope on the chain of ancestors of [sn] declares [n]. *)
Definition undeclared (h : Store) (sn : option loc) (n : Name)
    (chain : list loc) : Prop :=
  ancestry h sn chain /\
  forall a nd, a ∈ chain -> h !! a = Some nd -> n ∉ Names (sblock nd).

(** The number of faux child blocks among the nodes [ls]. *)
Definition fauxCount (h : Store) (ls : list loc) : Z :=
  Z.of_nat (length (filter (fun a => fauxChildBlockNode h (Some a) = true) ls)).

End Methods.

End ScopeExt.

(** ** More of the program tree: literals, result names, declarations,
       file sets *)

Module TreeExt.
Import VP Syntax PkgName.

(** [ValuePath.IsDerefType]: [vp.Type&0x10 > 0]. *)
Definition IsDerefType (vp : ValuePath) : bool :=
  0 <? Z.land (Type_ vp) 0x10.

(** The same call with [WithCross] set. *)
Definition withCross (x : CallExpr) : CallExpr :=
  match x with
  | mkCallExpr f args varg numArgs _ => mkCallExpr f args varg numArgs true
  end.

Definition SetWithCross (x : CallExpr) : res CallExpr :=
  if negb (isWithCross x) then Panic "expected cross(fn)(...)"
  else Ok (withCross x).

Definition IsWithCross (x : CallExpr) : bool :=
  match x with mkCallExpr _ _ _ _ wc => wc end.

(** *** [CompositeLitExpr.IsKeyed] *)

(** The two [for i := 1; ...] loops of [IsKeyed] over the elements after the
    first: each element must be keyed, or none. *)
Fixpoint sameKeying (keyed : bool) (elts : list (option Expr * Expr)) : res unit :=
  match elts with
  | [] => Ok tt
  | (key, _) :: rest =>
      if Bool.eqb (bool_decide (key <> None)) keyed then sameKeying keyed rest
      else Panic "mixed keyed and unkeyed elements"
  end.

(** Returns true if any elements are keyed.  Panics if inconsistent. *)
Definition IsKeyed (elts : list (option Expr * Expr)) : res bool :=
  match elts with
  | [] => Ok false
  | (None, _) :: rest => _ ← sameKeying false rest; Ok false
  | (Some _, _) :: rest => _ ← sameKeying true rest; Ok true
  end.

(** *** Result names and [FieldTypeExprs.IsNamed] *)

Definition missingResultNamePrefix : string := ".res.".
Definition underscoreResultNamePrefix : string := ".res_".

Definition isMissingResult (name : Name) : bool :=
  has_prefix missingResultNamePrefix name.

Definition isUnderscoreResult (name : Name) : bool :=
  has_prefix underscoreResultNamePrefix name.

Definition isUnnamedResult (name : Name) : bool :=
  isMissingResult name || isUnderscoreResult name.

(** [ftx.Name == "" || isMissingResult(ftx.Name)] *)
Definition fieldUnnamed (name : Name) : bool :=
  String.eqb name "" || isMissingResult name.

(** The iterations of [IsNamed] after the first, [named] being decided. *)
Fixpoint sameNamedness (named : bool) (names : list Name) : res unit :=
  match names with
  | [] => Ok tt
  | name :: rest =>
      if named && fieldUnnamed name then
        Panic "[]FieldTypeExpr has inconsistent namedness (starts named)"
      else if negb named && negb (fieldUnnamed name) then
        Panic "[]FieldTypeExpr has inconsistent namedness (starts unnamed)"
      else sameNamedness named rest
  end.

(** [FieldTypeExprs.IsNamed] reads the [Name] of each field only; the fields
    are given by their names. *)
Definition IsNamed (names : list Name) : res bool :=
  match names with
  | [] => Ok false
  | name :: rest =>
      let named := negb (fieldUnnamed name) in
      _ ← sameNamedness named rest; Ok named
  end.

(** *** Declarations and file sets *)

Inductive Decl : Type :=
| FuncDecl (name : Name) (isMethod : bool) (body : Body)
| ImportDecl (name : Name) (pkgPath : string)
| ValueDecl (names : list Name) (type : option Expr) (values : list Expr)
    (const : bool)
| TypeDecl (name : Name) (type : Expr) (isAlias : bool).

Definition GetDeclNames (d : Decl) : list Name :=
  match d with
  | FuncDecl name isMethod _ => if isMethod then [] else [name]
  | ImportDecl name _ => if String.eqb name "." then [] else [name]
  | ValueDecl names _ _ _ =>
      filter (fun nm => nm <> Scope.blankIdentifier) names
  | TypeDecl name _ _ =>
      if String.eqb name Scope.blankIdentifier then [] else [name]
  end.

Definition HasDeclName (d : Decl) (n2 : Name) : bool :=
  bool_decide (n2 ∈ GetDeclNames d).

Definition isImport (d : Decl) : bool :=
  match d with ImportDecl _ _ => true | _ => false end.

Record FileNode : Type := mkFileNode {
  FileName : Name;
  PkgName : Name;
  Decls : list Decl
}.

(** [FileSet.Files]; a pointer to a file is its position in the list, a
    pointer to a declaration the position of the file and of the
    declaration in it. *)
Definition FileSet : Type := list FileNode.

Definition AddFiles (fs : FileSet) (fns : list FileNode) : FileSet := fs ++ fns.

Definition GetFileByName (fs : FileSet) (n : Name) : option nat :=
  fst <$> list_find (fun fn => FileName fn = n) fs.

Definition FileNames (fs : FileSet) : list string := map FileName fs.

(** The inner loop of [GetDeclForSafe]: the first declaration of the file
    that is not an import and declares [n]. *)
Definition declaresHere (n : Name) (d : Decl) : Prop :=
  isImport d = false /\ HasDeclName d n = true.

#[global] Instance declaresHere_dec n d : Decision (declaresHere n d).
Proof. unfold declaresHere. apply _. Defined.

Definition findDecl (decls : list Decl) (n : Name) : option nat :=
  fst <$> list_find (declaresHere n) decls.

(** The outer loop, [for i := len(fs.Files) - 1; i >= 0; i--], over the
    files from the last one down; [filesRev] is [fs.Files[0..i]] reversed. *)
Fixpoint scanFiles (i : nat) (filesRev : list FileNode) (n : Name)
    {struct filesRev} : option (nat * nat) :=
  match filesRev with
  | [] => None
  | fn :: rest =>
      match findDecl (Decls fn) n with
      | Some j => Some (i, j)
      | None =>
          match i with
          | O => None
          | S i' => scanFiles i' rest n
          end
      end
  end.

Definition GetDeclForSafe (fs : FileSet) (n : Name) : option (nat * nat) :=
  scanFiles (length fs - 1) (rev fs) n.

Definition GetDeclFor (fs : FileSet) (n : Name) : res (nat * nat) :=
  match GetDeclForSafe fs n with
  | Some r => Ok r
  | None => Panic "name not defined in fileset"
  end.

(** *** [ParseMemPackage] *)

Definition endsWithAny (str : string) (suffixes : list string) : bool :=
  existsb (fun s => has_suffix s str) suffixes.

(** skip spurious or test file. *)
Definition skipped (name : string) : bool :=
  negb (has_suffix ".gno" name) ||
  endsWithAny name ["_test.gno"; "_filetest.gno"].

Section Parse.

(** [ParseFile] is outside nodes.go; [inl] is its error. *)
Variable ParseFile : string -> string -> string + FileNode.

(** The loop of [ParseMemPackage], threading the collected errors and the
    file set. *)
Fixpoint parseFiles (pkgName : string) (mfiles : list MemFile)
    (errs : list string) (fset : FileSet) : res (list string * FileSet) :=
  match mfiles with
  | [] => Ok (errs, fset)
  | mfile :: rest =>
      if skipped (FName mfile) then parseFiles pkgName rest errs fset
      else
        match ParseFile (FName mfile) (FBody mfile) with
        | inl err => parseFiles pkgName rest (errs ++ [err]) fset
        | inr n =>
            if negb (String.eqb pkgName (PkgName n)) then
              Panic "expected package name"
            else parseFiles pkgName rest errs (AddFiles fset [n])
        end
  end.

Definition ParseMemPackage (memPkg : MemPackage) : res FileSet :=
  '(errs, fset) ← parseFiles (MPName memPkg) (MPFiles memPkg) [] [];
  match errs with
  | [] => Ok fset
  | _ :: _ => Panic "errors parsing the files"
  end.

End Parse.

End TreeExt.

(** * Properties of the further methods *)

Module ScopeExtProofs.
Import VP Scope ScopeExt ValuePathProofs ScopeProofs.

Section Blocks.
Context {gt : GnoTypes} {ge : GnoEnv}.

Lemma Define2_guards isConst n st tv sb sb' :
  Define2 isConst n st tv sb = Ok sb' ->
  n <> "" /\ NumNames sb = Z.of_nat (length (Names sb)) /\ NumNames sb <> 65535.
Proof.
  unfold Define2.
  destruct (String.eqb_spec n ""); [discriminate |].
  destruct (Z.eqb_spec (NumNames sb) (Z.of_nat (length (Names sb))));
    [| discriminate].
  destruct (Z.eqb_spec (NumNames sb) 65535); [discriminate |].
  auto.
Qed.

Lemma Define2_Consts isConst n st tv sb sb' m :
  Define2 isConst n st tv sb = Ok sb' ->
  m ∈ Consts sb' -> m ∈ Consts sb \/ (m = n /\ n ∈ Names sb').
Proof.
  intros E. pose proof (Define2_Ok _ _ _ _ _ _ E) as Ho.
  destruct Ho as [_ ->|idx tv' st' _ _ _ _ _ Hc _ _|idx Hb Hf Hn _ _ _ _].
  - auto.
  - rewrite Hc. auto.
  - revert E. unfold Define2.
    apply String.eqb_neq in Hb. rewrite Hb, Hf.
    repeat (case_match; try discriminate).
    + intros [= <-]. simpl. intros [Hin|Hin%list_elem_of_singleton]%elem_of_app;
        [auto | right; split; [exact Hin | set_solver]].
    + intros [= <-]. simpl. auto.
Qed.

Lemma Define2_blockInv isConst n st tv sb sb' :
  blockInv sb -> Define2 isConst n st tv sb = Ok sb' -> blockInv sb'.
Proof.
  intros Hinv E.
  pose proof (Define2_guards _ _ _ _ _ _ E) as (Hz & Hnum & Hcap).
  pose proof (fun m => Define2_Consts _ _ _ _ _ _ m E) as Hconsts.
  pose proof (Define2_Ok _ _ _ _ _ _ E) as Ho.
  destruct Hinv as [Hn Hb Hv Ht Hh Hnd Hbl He Hc].
  destruct Ho as [_ ->|idx tv' st' _ _ Hn' Hnum' Hh' Hc' Hv' Ht'
                 |idx Hblank Hf Hn' Hnum' Hh' Hv' Ht'].
  - constructor; assumption.
  - constructor; rewrite ?Hn', ?Hnum', ?Hh', ?Hv', ?Ht', ?length_insert;
      try assumption.
    intros m Hm. rewrite Hc' in Hm. auto.
  - apply GetLocalIndex_false in Hf as [Hnot _].
    constructor; rewrite ?Hn', ?Hnum', ?Hh', ?Hv', ?Ht', ?length_app; simpl.
    + unfold uint16. rewrite Z.mod_small by lia. lia.
    + unfold uint16. rewrite Z.mod_small by lia. lia.
    + lia.
    + lia.
    + lia.
    + apply NoDup_app. split; [exact Hnd |]. split; [| apply NoDup_singleton].
      intros x Hx Hx'. apply list_elem_of_singleton in Hx'. subst. contradiction.
    + intros [Hin|Hin%list_elem_of_singleton]%elem_of_app; [contradiction |].
      apply Hblank. symmetry. exact Hin.
    + intros [Hin|Hin%list_elem_of_singleton]%elem_of_app; [contradiction |].
      apply Hz. symmetry. exact Hin.
    + intros m Hm. destruct (Hconsts m Hm) as [Hm'|[-> Hm']].
      * apply elem_of_app. left. auto.
      * rewrite Hn' in Hm'. exact Hm'.
Qed.

Lemma Predefine_blockInv isConst n sb sb' :
  blockInv sb -> Predefine isConst n sb = Ok sb' -> blockInv sb'.
Proof.
  intros Hinv. unfold Predefine. destruct (GetLocalIndex sb n) as [idx [|]].
  - intros [= <-]. exact Hinv.
  - apply Define2_blockInv. exact Hinv.
Qed.

(** X1: every sequence of definitions keeps the layout of the block: the
    lists of values, types and heap flags run parallel to the list of names,
    the name count is its length and at most 65535, no name is listed twice,
    the empty name and the blank identifier are never listed, and every
    constant is a listed name. *)
Theorem X1_definitions_keep_block_layout ops sb sb' :
  blockInv sb -> runOps ops sb = Ok sb' -> blockInv sb'.
Proof.
  revert sb. induction ops as [|op ops IH]; intros sb Hinv; simpl.
  - intros [= <-]. exact Hinv.
  - intros E. inv_bind E as sb1 E1. apply (IH sb1); [| exact E].
    destruct op; simpl in E1.
    + eapply Define2_blockInv; eauto.
    + eapply Predefine_blockInv; eauto.
Qed.

Lemma GetLocalIndex_of_lookup sb n idx :
  blockInv sb ->
  0 <= idx ->
  Names sb !! Z.to_nat idx = Some n ->
  GetLocalIndex sb n = (idx, true).
Proof.
  intros Hinv Hpos Hl. pose proof (bi_numNames _ Hinv) as Hn.
  pose proof (bi_bound _ Hinv) as Hb.
  destruct (GetLocalIndex_elem sb n (list_elem_of_lookup_2 _ _ _ Hl)) as [idx' Hf].
  destruct (GetLocalIndex_lookup _ _ _ Hf) as [Hl' Hr']; [lia |].
  assert (Z.to_nat idx' = Z.to_nat idx)
    by (eapply NoDup_lookup; [apply (bi_nodup _ Hinv) | exact Hl' | exact Hl]).
  replace idx with idx' by lia. exact Hf.
Qed.

(** X2: in a block with this layout the index that [GetLocalIndex] answers
    is not truncated by its conversion to [uint16]: the name has an index
    exactly when it stands at that position of the name list. *)
Theorem X2_GetLocalIndex_exact sb n idx :
  blockInv sb ->
  (GetLocalIndex sb n = (idx, true) <->
   0 <= idx /\ Names sb !! Z.to_nat idx = Some n).
Proof.
  intros Hinv. pose proof (bi_numNames _ Hinv) as Hn.
  pose proof (bi_bound _ Hinv) as Hb. split.
  - intros Hf. destruct (GetLocalIndex_lookup _ _ _ Hf) as [Hl Hr]; [lia |].
    split; [lia | exact Hl].
  - intros [Hpos Hl]. apply GetLocalIndex_of_lookup; assumption.
Qed.

Lemma blockInv_slot sb n idx :
  blockInv sb ->
  GetLocalIndex sb n = (idx, true) ->
  0 <= idx < Z.of_nat (length (Names sb)) /\
  (exists old, Values (SBlock sb) !! Z.to_nat idx = Some old) /\
  idx < Z.of_nat (length (Types sb)) /\
  idx < Z.of_nat (length (HeapItems sb)).
Proof.
  intros Hinv Hf.
  pose proof (bi_numNames _ Hinv). pose proof (bi_bound _ Hinv).
  destruct (GetLocalIndex_lookup _ _ _ Hf) as [_ Hr]; [lia |].
  split; [exact Hr |]. split.
  - apply lookup_lt_is_Some. rewrite (bi_values _ Hinv). lia.
  - rewrite (bi_types _ Hinv), (bi_heapItems _ Hinv). lia.
Qed.

(** X3: in a block with this layout neither [Define2] nor [SetIsHeapItem]
    indexes a list out of range. *)
Theorem X3_no_index_out_of_range isConst n st tv sb :
  blockInv sb ->
  Define2 isConst n st tv sb <> Panic "index out of range" /\
  SetIsHeapItem sb n <> Panic "index out of range".
Proof.
  intros Hinv. split.
  - unfold Define2.
    destruct (String.eqb n ""); [discriminate |].
    destruct (negb _); [discriminate |].
    destruct (NumNames sb =? 65535); [discriminate |].
    destruct (bool_decide _ && _); [discriminate |].
    destruct (String.eqb n blankIdentifier); [discriminate |].
    destruct (GetLocalIndex sb n) as [idx [|]] eqn:Hf; [| discriminate].
    destruct (negb (Bool.eqb _ _)); [discriminate |].
    destruct (blockInv_slot _ _ _ Hinv Hf) as (_ & [old Hold] & Ht & _).
    rewrite Hold.
    destruct (redefine sb idx old st tv) as [[[tv' st'] ovs]|msg|] eqn:Hr; simpl.
    + destruct (Z.leb_spec (Z.of_nat (length (Types sb))) idx); [lia | discriminate].
    + unfold redefine in Hr.
      repeat (case_match; try discriminate); injection Hr as <-; discriminate.
    + discriminate.
  - unfold SetIsHeapItem.
    destruct (GetLocalIndex sb n) as [idx [|]] eqn:Hf; [| discriminate].
    destruct (blockInv_slot _ _ _ Hinv Hf) as (_ & _ & _ & Hh).
    destruct (Z.leb_spec (Z.of_nat (length (HeapItems sb))) idx); [lia | discriminate].
Qed.

(** X4: [SetIsHeapItem] panics exactly on a name that the block does not
    list; on a listed name it sets the flag of that name, keeps the flag of
    every other name and the layout of the block. *)
Theorem X4_SetIsHeapItem sb n :
  blockInv sb ->
  (n ∉ Names sb -> SetIsHeapItem sb n = Panic "name not found in block") /\
  (n ∈ Names sb ->
   exists sb' idx,
     SetIsHeapItem sb n = Ok sb' /\
     GetLocalIndex sb n = (idx, true) /\
     HeapItems sb' !! Z.to_nat idx = Some true /\
     (forall j, j <> Z.to_nat idx -> HeapItems sb' !! j = HeapItems sb !! j) /\
     Names sb' = Names sb /\
     blockInv sb').
Proof.
  intros Hinv. split.
  - intros Hnot. unfold SetIsHeapItem.
    rewrite (GetLocalIndex_absent _ _ Hnot). reflexivity.
  - intros Hin. destruct (GetLocalIndex_elem _ _ Hin) as [idx Hf].
    destruct (blockInv_slot _ _ _ Hinv Hf) as (Hidx & _ & _ & Hh).
    unfold SetIsHeapItem. rewrite Hf.
    destruct (Z.leb_spec (Z.of_nat (length (HeapItems sb))) idx); [lia |].
    eexists. exists idx. split; [reflexivity |]. split; [reflexivity |].
    simpl. split; [apply list_lookup_insert_eq; lia |].
    split; [intros j Hj; apply list_lookup_insert_ne; congruence |].
    split; [reflexivity |].
    destruct Hinv. constructor; simpl; rewrite ?length_insert; assumption.
Qed.

(** [Define2] after the [Predefine] of a new name, in terms of the
    assignments to the slot. *)
Lemma predefine_then_define_setSlot isConst n st tv sb sb1 :
  blockInv sb ->
  n ∉ Names sb ->
  n <> blankIdentifier ->
  IsUndefined (anyValue None) = true ->
  Predefine isConst n sb = Ok sb1 ->
  NumNames sb1 <> 65535 ->
  (T tv = None -> V tv = None) ->
  GetLocalIndex sb1 n = (Z.of_nat (length (Names sb)), true) /\
  Define2 isConst n st tv sb1 =
    Ok (setSlot sb1 (Z.of_nat (length (Names sb))) tv st (oldValues sb1)) /\
  Define2 (negb isConst) n st tv sb1 =
    Panic "StaticBlock.Define2() cannot change const status".
Proof.
  intros Hinv Hnot Hb Hund Hpre Hcap HTV.
  unfold Predefine in Hpre. rewrite (GetLocalIndex_absent _ _ Hnot) in Hpre.
  pose proof (Define2_guards _ _ _ _ _ _ Hpre) as (Hz & Hnum & Hcap0).
  pose proof (Define2_blockInv _ _ _ _ _ _ Hinv Hpre) as Hinv1.
  assert (Hsb1 : sb1 =
            mkStaticBlock
              (mkBlock (Source (SBlock sb)) (Values (SBlock sb) ++ [anyValue None]))
              (Types sb ++ [None]) (uint16 (NumNames sb + 1)) (Names sb ++ [n])
              (HeapItems sb ++ [false]) (UnassignableNames sb)
              (if isConst then Consts sb ++ [n] else Consts sb)
              (Externs sb) (Parent sb) (oldValues sb)).
  { revert Hpre. unfold Define2.
    apply String.eqb_neq in Hz. rewrite Hz.
    apply String.eqb_neq in Hb. rewrite Hb.
    rewrite (GetLocalIndex_absent _ _ Hnot).
    repeat (case_match; try discriminate); intros [= <-]; reflexivity. }
  assert (Hf : GetLocalIndex sb1 n = (Z.of_nat (length (Names sb)), true)).
  { apply (GetLocalIndex_of_lookup sb1 n _ Hinv1); [lia |].
    rewrite Nat2Z.id, Hsb1. simpl. apply list_lookup_middle. reflexivity. }
  assert (Hconst : getLocalIsConst sb1 n = isConst).
  { unfold getLocalIsConst. rewrite Hsb1. simpl.
    assert (Hnc : n ∉ Consts sb) by (intros Hc; apply Hnot, (bi_consts _ Hinv), Hc).
    destruct isConst.
    - apply bool_decide_eq_true_2. set_solver.
    - apply bool_decide_eq_false_2. exact Hnc. }
  assert (HT : bool_decide (T tv = None) && negb (bool_decide (V tv = None)) = false).
  { destruct (T tv) as [t|].
    - rewrite bool_decide_eq_false_2 by discriminate. reflexivity.
    - rewrite (bool_decide_eq_true_2 (V tv = None)) by auto. apply andb_false_r. }
  assert (Hguards : forall c,
             Define2 c n st tv sb1 =
             if negb (Bool.eqb c isConst) then
               Panic "StaticBlock.Define2() cannot change const status"
             else Ok (setSlot sb1 (Z.of_nat (length (Names sb))) tv st (oldValues sb1))).
  { intros c. unfold Define2.
    apply String.eqb_neq in Hz. rewrite Hz.
    replace (NumNames sb1 =? Z.of_nat (length (Names sb1))) with true
      by (symmetry; apply Z.eqb_eq, (bi_numNames _ Hinv1)).
    replace (NumNames sb1 =? 65535) with false
      by (symmetry; apply Z.eqb_neq; exact Hcap).
    apply String.eqb_neq in Hb. rewrite Hb. simpl. rewrite HT, Hf, Hconst.
    destruct (negb (Bool.eqb c isConst)); [reflexivity |].
    rewrite Nat2Z.id.
    assert (Hold : Values (SBlock sb1) !! length (Names sb) = Some (anyValue None)).
    { rewrite Hsb1. simpl. rewrite <- (bi_values _ Hinv).
      apply list_lookup_middle. reflexivity. }
    rewrite Hold. unfold redefine. rewrite Hund. simpl.
    assert (Hlen : (Z.of_nat (length (Types sb1)) <=? Z.of_nat (length (Names sb)))
                   = false).
    { apply Z.leb_gt. rewrite Hsb1. simpl. rewrite length_app, (bi_types _ Hinv).
      simpl. lia. }
    destruct (T tv); simpl; rewrite Hlen; reflexivity. }
  split; [exact Hf |]. split.
  - rewrite Hguards, Bool.eqb_reflx. reflexivity.
  - rewrite Hguards. destruct isConst; reflexivity.
Qed.

(** X5: forward declaration.  After [Predefine] has reserved a new name,
    a [Define2] of that name with the same const status returns, whatever the
    type, and writes in place: the names are as before, the reserved slot
    holds the new typed value and the declared type, every other slot holds
    what it held.  With the other const status it panics.  The block must
    have room for one more name after the reservation: the check of the
    capacity comes first in [Define2], also for a name that is already
    listed. *)
Theorem X5_predefine_then_define isConst n st tv sb sb1 :
  blockInv sb ->
  n ∉ Names sb ->
  n <> blankIdentifier ->
  IsUndefined (anyValue None) = true ->
  Predefine isConst n sb = Ok sb1 ->
  NumNames sb1 <> 65535 ->
  (T tv = None -> V tv = None) ->
  GetLocalIndex sb1 n = (Z.of_nat (length (Names sb)), true) /\
  (exists sb2,
     Define2 isConst n st tv sb1 = Ok sb2 /\
     Names sb2 = Names sb1 /\
     GetLocalIndex sb2 n = (Z.of_nat (length (Names sb)), true) /\
     Values (SBlock sb2) !! length (Names sb) = Some tv /\
     Types sb2 !! length (Names sb) = Some st /\
     (forall j, j <> length (Names sb) ->
        Values (SBlock sb2) !! j = Values (SBlock sb1) !! j /\
        Types sb2 !! j = Types sb1 !! j)) /\
  Define2 (negb isConst) n st tv sb1 =
    Panic "StaticBlock.Define2() cannot change const status".
Proof.
  intros Hinv Hnot Hb Hund Hpre Hcap HTV.
  destruct (predefine_then_define_setSlot isConst n st tv sb sb1
              Hinv Hnot Hb Hund Hpre Hcap HTV) as (Hf & Hd & Hc).
  split; [exact Hf |]. split; [| exact Hc].
  pose proof Hpre as Hpre'. unfold Predefine in Hpre'.
  rewrite (GetLocalIndex_absent _ _ Hnot) in Hpre'.
  pose proof (Define2_blockInv _ _ _ _ _ _ Hinv Hpre') as Hinv1.
  destruct (blockInv_slot sb1 n _ Hinv1 Hf) as (_ & [old Hold] & Hlen & _).
  destruct (setSlot_slot sb1 (Z.of_nat (length (Names sb))) tv st
              (oldValues sb1) old ltac:(lia) Hold Hlen)
    as (Hn & _ & _ & Hv & Ht & Hrest & _).
  rewrite Nat2Z.id in Hv, Ht, Hrest.
  eexists. split; [exact Hd |]. split; [exact Hn |].
  split; [unfold GetLocalIndex in *; rewrite Hn; exact Hf |].
  split; [exact Hv |]. split; [exact Ht | exact Hrest].
Qed.

Lemma typedValue_eta (tv : TypedValue) : mkTypedValue (T tv) (V tv) = tv.
Proof. destruct tv. reflexivity. Qed.

(** X6: rollback of a function upgrade.  When a name that holds a defined
    value is redefined with a function value of a zero function type and
    [revertToOld] follows, the slot holds the old typed value again, the list
    of values is the one before the upgrade and the rollback list is empty;
    the declared type of the slot stays the type of the old value. *)
Theorem X6_upgrade_then_revert sb n idx old isConst st tv tT v sb' :
  oldValues sb = [] ->
  n <> blankIdentifier ->
  GetLocalIndex sb n = (idx, true) ->
  Values (SBlock sb) !! Z.to_nat idx = Some old ->
  IsUndefined old = false ->
  T tv = Some tT ->
  isFuncKind tT && funcTypeIsZero tT = true ->
  V tv = Some v ->
  Define2 isConst n st tv sb = Ok sb' ->
  exists sb'',
    revertToOld sb' = Ok sb'' /\
    Values (SBlock sb'') = Values (SBlock sb) /\
    Types sb'' = <[Z.to_nat idx := T old]> (Types sb) /\
    Names sb'' = Names sb /\
    oldValues sb'' = [].
Proof.
  intros Hovs Hb Hf Hold Hdef HT Hfz HV E.
  assert (Hsb' : sb' =
            setSlot sb idx
              (mkTypedValue (T old) (Some (setFuncValueType v (T old))))
              (T old) [mkOldValue idx (V old)]).
  { revert E. unfold Define2.
    apply String.eqb_neq in Hb. rewrite Hb, Hf, Hold.
    unfold redefine. rewrite HT, Hdef, Hfz, HV, Hovs. simpl.
    repeat (case_match; simpl; try discriminate); intros [= <-]; reflexivity. }
  subst sb'. unfold revertToOld, setSlot. simpl.
  assert (Hlt : (Z.to_nat idx < length (Values (SBlock sb)))%nat)
    by (eapply lookup_lt_Some; exact Hold).
  rewrite list_lookup_insert_eq by exact Hlt. simpl.
  eexists. split; [reflexivity |]. simpl.
  split; [| auto].
  rewrite list_insert_insert_eq, typedValue_eta.
  apply list_insert_id. exact Hold.
Qed.

Lemma Define2_frame isConst n st tv sb sb' :
  Define2 isConst n st tv sb = Ok sb' ->
  Externs sb' = Externs sb /\ Parent sb' = Parent sb /\
  Source (SBlock sb') = Source (SBlock sb) /\
  UnassignableNames sb' = UnassignableNames sb.
Proof.
  unfold Define2.
  destruct (String.eqb n ""); [discriminate |].
  destruct (negb _); [discriminate |].
  destruct (NumNames sb =? 65535); [discriminate |].
  destruct (bool_decide _ && _); [discriminate |].
  destruct (String.eqb n blankIdentifier); [intros [= <-]; auto |].
  destruct (GetLocalIndex sb n) as [idx [|]].
  - destruct (negb (Bool.eqb _ _)); [discriminate |].
    destruct (Values (SBlock sb) !! Z.to_nat idx); [| discriminate].
    intros E. inv_bind E as r Er. destruct r as [[tv' st'] ovs].
    destruct (_ <=? _); [discriminate |]. injection E as <-. simpl. auto.
  - intros [= <-]. simpl. auto.
Qed.

End Blocks.

Section Resolution.
Context {gt : GnoTypes} {ge : GnoEnv}.

Lemma ancestry_inv h sn x rest :
  ancestry h sn (x :: rest) ->
  sn = Some x /\
  exists nd, h !! x = Some nd /\ ancestry h (Parent (sblock nd)) rest.
Proof. intros Ha. inversion Ha; subst. eauto. Qed.

Lemma fauxCount_nil h : fauxCount h [] = 0.
Proof. reflexivity. Qed.

Lemma fauxCount_cons h a nd ls :
  h !! a = Some nd ->
  fauxCount h (a :: ls) =
  (if fauxChildKind (kind nd) then 1 else 0) + fauxCount h ls.
Proof.
  intros E. unfold fauxCount. rewrite filter_cons.
  rewrite (faux_Some _ _ _ E).
  destruct (fauxChildKind (kind nd)).
  - rewrite decide_True by reflexivity. simpl length. lia.
  - rewrite decide_False by discriminate. lia.
Qed.

Lemma fauxCount_bounds h ls : 0 <= fauxCount h ls <= Z.of_nat (length ls).
Proof.
  unfold fauxCount. pose proof (length_filter
    (fun a => fauxChildBlockNode h (Some a) = true) ls). lia.
Qed.

(** The walk from [sn] when the nearest declaration of [n] is [d], after the
    scopes [pre]. *)
Lemma walk_nearest h n pre :
  forall sn d dnd,
    nearest h sn n pre d dnd ->
    forall g fuel gen fc,
      sameShape h g ->
      (length pre < fuel)%nat ->
      exists g',
        walkAncestors fuel g sn gen fc n =
        if 0xff <? gen - fc + Z.of_nat (length pre) - fauxCount h pre
        then Panic "value path depth overflow"
        else
          vp ← NewValuePathBlock
                 (uint8 (gen - fc + Z.of_nat (length pre) - fauxCount h pre))
                 (fst (GetLocalIndex (sblock dnd) n)) n;
          Ok (g', vp).
Proof.
  induction pre as [|a pre IH]; intros sn d dnd (post & Ha & Hpre & Ed & Hin)
    g fuel gen fc Hs Hlen.
  - destruct fuel as [|fuel]; [simpl in Hlen; lia |].
    simpl in Ha. apply ancestry_inv in Ha as (-> & _).
    destruct (sameShape_Some _ _ _ _ Hs Ed) as (gnd & Eg & Hsh).
    destruct (GetLocalIndex_elem _ _ Hin) as [idx Hf].
    rewrite (walk_found _ _ _ gnd _ _ _ idx Eg)
      by (rewrite (shape_GetLocalIndex _ _ n Hsh); exact Hf).
    exists g. rewrite Hf, fauxCount_nil. simpl length. simpl fst.
    replace (gen - fc + Z.of_nat 0 - 0) with (gen - fc) by lia. reflexivity.
  - destruct fuel as [|fuel]; [simpl in Hlen; lia |]. simpl in Hlen.
    simpl in Ha. apply ancestry_inv in Ha as (-> & nd & E & Ha).
    destruct (sameShape_Some _ _ _ _ Hs E) as (gnd & Eg & Hsh).
    assert (Hf : GetLocalIndex (sblock gnd) n = (0, false)).
    { apply GetLocalIndex_absent. rewrite (shape_Names _ _ Hsh).
      eapply Hpre; [apply list_elem_of_here | exact E]. }
    rewrite (walk_next _ _ _ _ _ _ _ _ Eg Hf), (shape_Parent _ _ Hsh).
    rewrite (shape_kind _ _ Hsh).
    assert (Hs' : sameShape h (if isFileKind (kind nd) then g
                               else recordExtern g a gnd n)).
    { eapply sameShape_trans; [exact Hs |].
      rewrite <- (shape_kind _ _ Hsh). apply (stepStore_sameShape g a gnd n Eg). }
    destruct (IH (Parent (sblock nd)) d dnd) with
      (g := if isFileKind (kind nd) then g else recordExtern g a gnd n)
      (fuel := fuel) (gen := gen + 1)
      (fc := if fauxChildKind (kind nd) then fc + 1 else fc)
      as (g' & Hw); [| exact Hs' | lia |].
    { exists post. split; [exact Ha |]. split; [| auto].
      intros b bnd Hb. apply Hpre. apply list_elem_of_further. exact Hb. }
    exists g'. rewrite Hw. rewrite (fauxCount_cons _ _ _ _ E).
    replace (gen + 1 - (if fauxChildKind (kind nd) then fc + 1 else fc)
             + Z.of_nat (length pre) - fauxCount h pre)
      with (gen - fc + Z.of_nat (length (a :: pre))
            - ((if fauxChildKind (kind nd) then 1 else 0) + fauxCount h pre))
      by (simpl length; destruct (fauxChildKind (kind nd)); lia).
    reflexivity.
Qed.

(** X7: the path of a name.  When the nearest scope that declares [n] comes
    after the scopes [pre] on the chain of ancestors (the starting scope
    first), the path is a block path whose index is the index of [n] in that
    scope and whose depth is one more than the number of scopes passed, faux
    child blocks not counted; a depth above 127 is a panic. *)
Theorem X7_path_of_nearest_declaration fuel h l n pre d dnd :
  selfSourced h l ->
  n <> blankIdentifier ->
  nearest h (Some l) n pre d dnd ->
  (length pre <= fuel)%nat ->
  (1 + Z.of_nat (length pre) - fauxCount h pre <= 127 ->
   exists h',
     GetPathForName fuel h l n =
     Ok (h', mkValuePath VPBlock (1 + Z.of_nat (length pre) - fauxCount h pre)
               (fst (GetLocalIndex (sblock dnd) n)) n)) /\
  (127 < 1 + Z.of_nat (length pre) - fauxCount h pre ->
   panics (GetPathForName fuel h l n)).
Proof.
  intros Hself Hb Hnear Hlen.
  rewrite (GetPathForName_as_walk _ _ _ _ Hb Hself).
  destruct (walk_nearest h n pre (Some l) d dnd Hnear h (S fuel) 1 0
              (sameShape_refl h)) as (g' & Hw); [lia |].
  rewrite Hw. clear Hw.
  pose proof (fauxCount_bounds h pre) as Hfc.
  replace (1 - 0 + Z.of_nat (length pre) - fauxCount h pre)
    with (1 + Z.of_nat (length pre) - fauxCount h pre) by lia.
  set (D := 1 + Z.of_nat (length pre) - fauxCount h pre) in *.
  split.
  - intros HD. destruct (Z.ltb_spec 0xff D); [lia |].
    unfold uint8. rewrite Z.mod_small by lia.
    rewrite (NewValuePathBlock_shallow _ _ _ HD). exists g'. reflexivity.
  - intros HD. destruct (Z.ltb_spec 0xff D); [eexists; reflexivity |].
    unfold uint8. rewrite Z.mod_small by lia.
    unfold NewValuePathBlock. rewrite (NewValuePath_deep _ _ _ _ HD).
    eexists. reflexivity.
Qed.

(** The walk and the loops of the lookups by name on a chain that does not
    declare [n]. *)
Lemma walk_universe h sn chain n idx :
  ancestry h sn chain ->
  (forall a nd, a ∈ chain -> h !! a = Some nd -> n ∉ Names (sblock nd)) ->
  GetLocalIndex UverseNode n = (idx, true) ->
  forall g fuel gen fc,
    sameShape h g ->
    (length chain < fuel)%nat ->
    exists g',
      walkAncestors fuel g sn gen fc n = Ok (g', mkValuePath VPUverse 0 idx n).
Proof.
  intros Ha. induction Ha as [|l nd ls E Ha IH]; intros Hnames Hu g fuel gen fc Hs Hlen.
  - destruct fuel as [|fuel]; [simpl in Hlen; lia |].
    rewrite walk_nil, Hu. exists g. reflexivity.
  - destruct fuel as [|fuel]; [simpl in Hlen; lia |]. simpl in Hlen.
    destruct (sameShape_Some _ _ _ _ Hs E) as (gnd & Eg & Hsh).
    assert (Hf : GetLocalIndex (sblock gnd) n = (0, false)).
    { apply GetLocalIndex_absent. rewrite (shape_Names _ _ Hsh).
      eapply Hnames; [apply list_elem_of_here | exact E]. }
    rewrite (walk_next _ _ _ _ _ _ _ _ Eg Hf), (shape_Parent _ _ Hsh).
    apply IH; [| exact Hu | | lia].
    + intros a and' Hin. apply Hnames. apply list_elem_of_further. exact Hin.
    + eapply sameShape_trans; [exact Hs |].
      apply (stepStore_sameShape g l gnd n Eg).
Qed.

Lemma GetIsConst_loop_undeclared h bp chain n :
  ancestry h bp chain ->
  (forall a nd, a ∈ chain -> h !! a = Some nd -> n ∉ Names (sblock nd)) ->
  forall fuel sb,
    (length chain < fuel)%nat ->
    GetIsConst_loop fuel h sb false bp n = Panic "name not declared".
Proof.
  intros Ha. induction Ha as [|l nd ls E Ha IH]; intros Hnames fuel sb Hlen.
  - destruct fuel as [|fuel]; [simpl in Hlen; lia |]. reflexivity.
  - destruct fuel as [|fuel]; [simpl in Hlen; lia |]. simpl in Hlen.
    simpl. rewrite E. simpl.
    rewrite (GetLocalIndex_absent (sblock nd) n)
      by (eapply Hnames; [apply list_elem_of_here | exact E]).
    apply IH; [| lia].
    intros a and' Hin. apply Hnames. apply list_elem_of_further. exact Hin.
Qed.

Lemma IsAssignable_loop_undeclared h bp chain n :
  ancestry h bp chain ->
  (forall a nd, a ∈ chain -> h !! a = Some nd -> n ∉ Names (sblock nd)) ->
  forall fuel un,
    (length chain < fuel)%nat ->
    IsAssignable_loop fuel h false un bp n =
    Ok (negb (snd (GetLocalIndex UverseNode n))).
Proof.
  intros Ha. induction Ha as [|l nd ls E Ha IH]; intros Hnames fuel un Hlen.
  - destruct fuel as [|fuel]; [simpl in Hlen; lia |]. simpl.
    destruct (snd (GetLocalIndex UverseNode n)); reflexivity.
  - destruct fuel as [|fuel]; [simpl in Hlen; lia |]. simpl in Hlen.
    simpl. rewrite E. simpl.
    rewrite (GetLocalIndex_absent (sblock nd) n)
      by (eapply Hnames; [apply list_elem_of_here | exact E]).
    apply IH; [| lia].
    intros a and' Hin. apply Hnames. apply list_elem_of_further. exact Hin.
Qed.

Lemma GetStaticTypeOf_loop_undeclared U h bp chain n :
  ancestry h bp chain ->
  (forall a nd, a ∈ chain -> h !! a = Some nd -> n ∉ Names (sblock nd)) ->
  forall fuel idx ts,
    (length chain < fuel)%nat ->
    GetStaticTypeOf_loop U fuel h idx false ts bp n =
    match GetLocalIndex UverseNode n with
    | (uidx, true) => Ok (T (U (mkValuePath VPUverse 0 uidx n)))
    | (_, false) => Panic "name not declared"
    end.
Proof.
  intros Ha. induction Ha as [|l nd ls E Ha IH]; intros Hnames fuel idx ts Hlen.
  - destruct fuel as [|fuel]; [simpl in Hlen; lia |]. simpl.
    destruct (GetLocalIndex UverseNode n) as [uidx [|]]; reflexivity.
  - destruct fuel as [|fuel]; [simpl in Hlen; lia |]. simpl in Hlen.
    simpl. rewrite E. simpl.
    rewrite (GetLocalIndex_absent (sblock nd) n)
      by (eapply Hnames; [apply list_elem_of_here | exact E]).
    apply IH; [| lia].
    intros a and' Hin. apply Hnames. apply list_elem_of_further. exact Hin.
Qed.

(** The three lookups by name started at a node whose chain does not
    declare [n]. *)
Lemma lookups_undeclared U fuel h l n chain :
  undeclared h (Some l) n chain ->
  (length chain <= fuel)%nat ->
  GetIsConst fuel h l n = Panic "name not declared" /\
  IsAssignable fuel h l n = Ok (negb (snd (GetLocalIndex UverseNode n))) /\
  GetStaticTypeOf U fuel h l n =
    match GetLocalIndex UverseNode n with
    | (uidx, true) => Ok (T (U (mkValuePath VPUverse 0 uidx n)))
    | (_, false) => Panic "name not declared"
    end.
Proof.
  intros [Ha Hnames] Hlen.
  destruct chain as [|x rest]; [inversion Ha |].
  apply ancestry_inv in Ha as (Hx & nd & E & Ha). injection Hx as <-.
  simpl in Hlen.
  assert (Hf : GetLocalIndex (sblock nd) n = (0, false)).
  { apply GetLocalIndex_absent. eapply Hnames; [apply list_elem_of_here | exact E]. }
  assert (Hrest : forall a and', a ∈ rest -> h !! a = Some and' ->
                                n ∉ Names (sblock and')).
  { intros a and' Hin. apply Hnames. apply list_elem_of_further. exact Hin. }
  unfold GetIsConst, IsAssignable, GetStaticTypeOf. simpl. rewrite E. simpl.
  rewrite Hf. simpl. split; [| split].
  - apply (GetIsConst_loop_undeclared h _ rest n Ha Hrest). lia.
  - apply (IsAssignable_loop_undeclared h _ rest n Ha Hrest). lia.
  - apply (GetStaticTypeOf_loop_undeclared U h _ rest n Ha Hrest). lia.
Qed.

(** X8: names of the universe block.  A name that no scope of the chain
    declares and that the universe block lists at [idx] resolves to the
    universe path of depth 0 and index [idx]; [IsAssignable] answers false
    for it, its static type is the type of the universe value at that path,
    and [GetIsConst], which does not consult the universe block, panics. *)
Theorem X8_universe_names U fuel h l n chain idx :
  selfSourced h l ->
  n <> blankIdentifier ->
  undeclared h (Some l) n chain ->
  GetLocalIndex UverseNode n = (idx, true) ->
  (length chain <= fuel)%nat ->
  (exists h', GetPathForName fuel h l n = Ok (h', mkValuePath VPUverse 0 idx n)) /\
  IsAssignable fuel h l n = Ok false /\
  GetStaticTypeOf U fuel h l n = Ok (T (U (mkValuePath VPUverse 0 idx n))) /\
  GetIsConst fuel h l n = Panic "name not declared".
Proof.
  intros Hself Hb Hund Hu Hlen.
  destruct (lookups_undeclared U fuel h l n chain Hund Hlen) as (Hc & Ha & Ht).
  rewrite Hu in Ha, Ht. destruct Hund as [Hanc Hnames].
  split; [| auto].
  rewrite (GetPathForName_as_walk _ _ _ _ Hb Hself).
  apply (walk_universe h (Some l) chain n idx Hanc Hnames Hu h (S fuel) 1 0);
    [apply sameShape_refl | lia].
Qed.

(** X9: a name declared nowhere.  When neither the chain nor the universe
    block declares [n], [GetIsConst] and [GetStaticTypeOf] panic like
    [GetPathForName], while [IsAssignable] returns, and answers true. *)
Theorem X9_name_declared_nowhere U fuel h l n chain :
  undeclared h (Some l) n chain ->
  n ∉ Names UverseNode ->
  (length chain <= fuel)%nat ->
  IsAssignable fuel h l n = Ok true /\
  GetIsConst fuel h l n = Panic "name not declared" /\
  GetStaticTypeOf U fuel h l n = Panic "name not declared".
Proof.
  intros Hund Hu Hlen.
  destruct (lookups_undeclared U fuel h l n chain Hund Hlen) as (Hc & Ha & Ht).
  rewrite (GetLocalIndex_absent _ _ Hu) in Ha, Ht. auto.
Qed.

Lemma nearest_here h a n d dnd :
  nearest h (Some a) n [] d dnd -> d = a.
Proof.
  intros (post & Ha & _). simpl in Ha. apply ancestry_inv in Ha as (Hx & _).
  congruence.
Qed.

Lemma nearest_step h a n x pre d dnd :
  nearest h (Some a) n (x :: pre) d dnd ->
  x = a /\
  exists nd,
    h !! a = Some nd /\ (n ∉ Names (sblock nd)) /\
    exists a', Parent (sblock nd) = Some a' /\ nearest h (Some a') n pre d dnd.
Proof.
  intros (post & Ha & Hpre & Ed & Hin). simpl in Ha.
  apply ancestry_inv in Ha as (Hx & nd & E & Ha). injection Hx as <-.
  split; [reflexivity |]. exists nd. split; [exact E |].
  split; [eapply Hpre; [apply list_elem_of_here | exact E] |].
  assert (exists a', Parent (sblock nd) = Some a') as [a' Hp].
  { destruct pre; simpl in Ha; apply ancestry_inv in Ha as (Hp & _); eauto. }
  exists a'. split; [exact Hp |]. rewrite Hp in Ha.
  exists post. split; [exact Ha |]. split; [| auto].
  intros b bnd Hb. apply Hpre. apply list_elem_of_further. exact Hb.
Qed.

(** The three loops, started on a node from which the nearest declaration
    of [n] is [d]. *)
Lemma loops_nearest U h n pre :
  forall a nd d dnd fuel,
    nearest h (Some a) n pre d dnd ->
    h !! a = Some nd ->
    (length pre < fuel)%nat ->
    GetIsConst_loop fuel h (sblock nd) (snd (GetLocalIndex (sblock nd) n))
      (Parent (sblock nd)) n = Ok (getLocalIsConst (sblock dnd) n) /\
    IsAssignable_loop fuel h (snd (GetLocalIndex (sblock nd) n))
      (UnassignableNames (sblock nd)) (Parent (sblock nd)) n =
      Ok (negb (bool_decide (n ∈ UnassignableNames (sblock dnd)))) /\
    GetStaticTypeOf_loop U fuel h (fst (GetLocalIndex (sblock nd) n))
      (snd (GetLocalIndex (sblock nd) n)) (Types (sblock nd))
      (Parent (sblock nd)) n =
      typeAt (Types (sblock dnd)) (fst (GetLocalIndex (sblock dnd) n)).
Proof.
  induction pre as [|x pre IH]; intros a nd d dnd fuel Hnear E Hlen.
  - pose proof (nearest_here _ _ _ _ _ Hnear) as ->.
    destruct Hnear as (post & _ & _ & Ed & Hin).
    rewrite E in Ed. injection Ed as <-.
    destruct (GetLocalIndex_elem _ _ Hin) as [idx Hf]. rewrite Hf.
    destruct fuel as [|fuel]; [simpl in Hlen; lia |]. simpl. auto.
  - destruct (nearest_step _ _ _ _ _ _ _ Hnear)
      as (-> & nd' & E' & Hnot & a' & Hp & Hnear').
    rewrite E in E'. injection E' as <-.
    destruct fuel as [|fuel]; [simpl in Hlen; lia |]. simpl in Hlen.
    rewrite (GetLocalIndex_absent _ _ Hnot), Hp.
    assert (exists nd1, h !! a' = Some nd1) as [nd1 E1].
    { destruct Hnear' as (post & Ha & _).
      destruct pre; simpl in Ha;
        apply ancestry_inv in Ha as (Hx & nd1 & E1 & _);
        injection Hx as ->; eauto. }
    simpl. rewrite E1. simpl.
    apply (IH a' nd1 d dnd fuel Hnear' E1). lia.
Qed.

(** X10: the lookups by name answer from the nearest scope that declares
    the name: [GetIsConst] says whether that scope lists it among its
    constants, [IsAssignable] whether that scope does not list it as
    unassignable, [GetStaticTypeOf] the type at its index there. *)
Theorem X10_lookups_from_nearest_declaration U fuel h l n pre d dnd :
  nearest h (Some l) n pre d dnd ->
  (length pre < fuel)%nat ->
  GetIsConst fuel h l n = Ok (getLocalIsConst (sblock dnd) n) /\
  IsAssignable fuel h l n =
    Ok (negb (bool_decide (n ∈ UnassignableNames (sblock dnd)))) /\
  GetStaticTypeOf U fuel h l n =
    typeAt (Types (sblock dnd)) (fst (GetLocalIndex (sblock dnd) n)).
Proof.
  intros Hnear Hlen.
  assert (exists nd, h !! l = Some nd) as [nd E].
  { destruct Hnear as (post & Ha & _).
    destruct pre; simpl in Ha; apply ancestry_inv in Ha as (Hx & nd & E & _);
      injection Hx as ->; eauto. }
  unfold GetIsConst, IsAssignable, GetStaticTypeOf. simpl. rewrite E. simpl.
  apply (loops_nearest U h n pre l nd d dnd fuel Hnear E Hlen).
Qed.

(** X11: definition, then resolution.  After a [Define2] of [n] in the
    block of a node, [GetPathForName] from that node finds [n] in the block
    itself: the path has depth 1 and the index of the slot, and the store is
    left alone.  The definition does not touch the extern list, so a name
    that was resolved as an extern before stays recorded as one. *)
Theorem X11_define_then_resolve fuel h l nd isConst n st tv sb' :
  h !! l = Some nd ->
  n <> blankIdentifier ->
  Define2 isConst n st tv (sblock nd) = Ok sb' ->
  exists idx,
    GetLocalIndex sb' n = (idx, true) /\
    GetPathForName fuel (<[l := mkBlockNode (kind nd) sb']> h) l n =
      Ok (<[l := mkBlockNode (kind nd) sb']> h, mkValuePath VPBlock 1 idx n) /\
    Externs sb' = Externs (sblock nd).
Proof.
  intros E Hb Hd.
  pose proof (Define2_frame _ _ _ _ _ _ Hd) as (Hext & _).
  assert (Hin : n ∈ Names sb').
  { pose proof (Define2_Ok _ _ _ _ _ _ Hd) as Ho.
    destruct Ho as [Hb' _|idx tv' st' _ Hf Hn _ _ _ _ _|idx _ _ Hn _ _ _ _].
    - contradiction.
    - rewrite Hn. apply GetLocalIndex_true in Hf as (i & Hi & _).
      apply list_find_Some in Hi as (Hi & _).
      eapply list_elem_of_lookup_2. exact Hi.
    - rewrite Hn. apply elem_of_app. right. apply list_elem_of_here. }
  destruct (GetLocalIndex_elem _ _ Hin) as [idx Hf].
  exists idx. split; [exact Hf |]. split; [| exact Hext].
  rewrite (GetPathForName_named _ _ _ _ (mkBlockNode (kind nd) sb') Hb)
    by apply lookup_insert_eq.
  simpl. rewrite Hf. reflexivity.
Qed.

(** A block path returned by the walk has a depth of at least 1. *)
Lemma walk_depth_positive fuel :
  forall h sn gen fc n h' p,
    1 <= gen - fc ->
    walkAncestors fuel h sn gen fc n = Ok (h', p) ->
    Type_ p = VPBlock ->
    1 <= Depth p.
Proof.
  induction fuel as [|fuel IH]; intros h sn gen fc n h' p Hg Hw Ht; [discriminate |].
  destruct sn as [l|].
  - destruct (h !! l) as [nd|] eqn:E.
    2:{ rewrite walk_dangling in Hw by exact E. discriminate. }
    destruct (GetLocalIndex (sblock nd) n) as [idx [|]] eqn:Hf.
    + rewrite (walk_found _ _ _ _ _ _ _ _ E Hf) in Hw.
      destruct (Z.ltb_spec 0xff (gen - fc)); [discriminate |].
      inv_bind Hw as vp Evp. injection Hw as _ <-.
      apply NewValuePath_Ok in Evp as [-> _]. simpl.
      unfold uint8. rewrite Z.mod_small by lia. exact Hg.
    + rewrite (walk_next _ _ _ _ _ _ _ _ E Hf) in Hw.
      eapply IH; [| exact Hw | exact Ht].
      destruct (fauxChildKind (kind nd)); lia.
  - rewrite walk_nil in Hw.
    destruct (GetLocalIndex UverseNode n) as [idx [|]]; [| discriminate].
    inv_bind Hw as vp Evp. injection Hw as _ <-.
    apply NewValuePath_Ok in Evp as [-> _]. discriminate.
Qed.

(** X12: the blank path stands for the blank identifier only:
    [GetPathForName] returns a path that [IsBlockBlankPath] accepts exactly
    when the name is the blank identifier. *)
Theorem X12_blank_path_iff_blank_name fuel h l n h' p :
  GetPathForName fuel h l n = Ok (h', p) ->
  (IsBlockBlankPath p = true <-> n = blankIdentifier).
Proof.
  intros Hg. split.
  - intros Hblank. destruct (decide (n = blankIdentifier)) as [|Hb]; [assumption |].
    exfalso. unfold IsBlockBlankPath in Hblank.
    apply andb_prop in Hblank as [Hblank _].
    apply andb_prop in Hblank as [Ht Hd].
    apply Z.eqb_eq in Ht, Hd.
    destruct (h !! l) as [sbn|] eqn:E.
    2:{ unfold GetPathForName in Hg. apply String.eqb_neq in Hb.
        rewrite Hb in Hg. simpl in Hg. rewrite E in Hg. discriminate. }
    rewrite (GetPathForName_named _ _ _ _ _ Hb E) in Hg.
    destruct (GetLocalIndex (sblock sbn) n) as [idx [|]].
    + inv_bind Hg as vp Evp. injection Hg as _ <-.
      apply NewValuePath_Ok in Evp as [-> _]. simpl in Hd. discriminate.
    + cbv zeta in Hg. inv_bind Hg as sn' Eparent.
      assert (1 <= Depth p); [| lia].
      eapply walk_depth_positive; [| exact Hg | exact Ht].
      destruct (fauxChildBlockNode _ _); lia.
  - intros ->. rewrite GetPathForName_blank in Hg. injection Hg as _ <-.
    reflexivity.
Qed.

Lemma touch_Types n ts t nd : Types (sblock (touch n ts t nd)) = Types (sblock nd).
Proof.
  unfold touch, withExtern, addExternName.
  destruct (_ && _); [| reflexivity]. simpl.
  destruct (decide _); reflexivity.
Qed.

Lemma touch_Consts n ts t nd :
  Consts (sblock (touch n ts t nd)) = Consts (sblock nd).
Proof.
  unfold touch, withExtern, addExternName.
  destruct (_ && _); [| reflexivity]. simpl.
  destruct (decide _); reflexivity.
Qed.

Lemma landed_nearest h b n pre :
  storeInv h ->
  forall a d dnd k,
    nearest h (Some a) n pre d dnd ->
    landed h b k (Some a) ->
    exists k',
      landed h b k' (Some d) /\
      Z.of_nat k' = Z.of_nat k + Z.of_nat (length pre) - fauxCount h pre.
Proof.
  intros Hinv. induction pre as [|x pre IH]; intros a d dnd k Hnear Hland.
  - rewrite (nearest_here _ _ _ _ _ Hnear). exists k.
    split; [exact Hland |]. rewrite fauxCount_nil. simpl. lia.
  - destruct (nearest_step _ _ _ _ _ _ _ Hnear)
      as (-> & nd & E & _ & a' & Hp & Hnear').
    pose proof (landed_next h b Hinv k a nd E Hland) as Hnext.
    rewrite Hp in Hnext. rewrite (fauxCount_cons _ _ _ _ E).
    destruct (fauxChildKind (kind nd)).
    + destruct (IH a' d dnd k Hnear' Hnext) as (k' & Hl & Hk).
      exists k'. split; [exact Hl |]. simpl length. lia.
    + destruct (IH a' d dnd (S k) Hnear' Hnext) as (k' & Hl & Hk).
      exists k'. split; [exact Hl |]. simpl length. lia.
Qed.

Lemma locate_exact h b n k d dnd idx :
  storeInv h ->
  h !! d = Some dnd ->
  fauxChildKind (kind dnd) = false ->
  GetLocalIndex (sblock dnd) n = (idx, true) ->
  landed h b k (Some d) ->
  (bn ← ascend h k (Some b); locate h bn idx) = Ok (Some d).
Proof.
  intros Hinv E Hk Hf (land & Hasc & Hl). rewrite Hasc. simpl.
  destruct Hl as [->|[Hfaux Hpar]].
  - unfold locate. rewrite (faux_Some _ _ _ E), Hk. reflexivity.
  - unfold locate. rewrite Hfaux, Hpar. simpl. rewrite E. simpl.
    pose proof (Hinv d dnd E) as Hnd.
    destruct (GetLocalIndex_lookup _ _ _ Hf) as [_ Hr].
    { pose proof (inv_bound _ _ Hnd). rewrite (inv_numNames _ _ Hnd) in *. lia. }
    unfold GetNumNames. rewrite (inv_numNames _ _ Hnd).
    destruct (Z.ltb_spec idx (Z.of_nat (length (Names (sblock dnd)))));
      [reflexivity | lia].
Qed.

(** X13: lookups through the path.  When the nearest scope that declares
    [n] is not a faux child block, the path that [GetPathForName] returns
    leads [GetBlockNodeForPath] to that very scope, and [GetStaticTypeOfAt]
    and [GetIsConstAt] give the answers of [GetStaticTypeOf] and
    [GetIsConst]: the type at the index of the name in that scope, and
    whether that scope lists it among its constants. *)
Theorem X13_lookups_through_the_path fuel h l n pre d dnd h' p :
  storeInv h ->
  selfSourced h l ->
  n <> blankIdentifier ->
  nearest h (Some l) n pre d dnd ->
  fauxChildKind (kind dnd) = false ->
  GetPathForName fuel h l n = Ok (h', p) ->
  GetBlockNodeForPath h' l p = Ok (Some d) /\
  GetStaticTypeOfAt h' l p =
    typeAt (Types (sblock dnd)) (fst (GetLocalIndex (sblock dnd) n)) /\
  GetIsConstAt h' l p = Ok (getLocalIsConst (sblock dnd) n).
Proof.
  intros Hinv Hself Hb Hnear Hk Hg.
  rewrite (GetPathForName_as_walk _ _ _ _ Hb Hself) in Hg.
  pose proof (walk_sameShape _ _ _ _ _ _ _ _ Hg) as Hs.
  pose proof (walk_spec _ _ _ _ _ _ _ _ Hg d) as Hd.
  pose proof Hnear as (post & _ & _ & Ed & Hin).
  destruct (GetLocalIndex_elem _ _ Hin) as [idx Hf].
  pose proof (fauxCount_bounds h pre) as Hfc.
  set (D := 1 + Z.of_nat (length pre) - fauxCount h pre).
  assert (Hp : p = mkValuePath VPBlock D idx n).
  { assert (Hw : walkAncestors (S fuel + S (length pre)) h (Some l) 1 0 n = Ok (h', p)).
    { rewrite <- Hg. apply walk_fuel_mono; [lia |]. rewrite Hg. discriminate. }
    destruct (walk_nearest h n pre (Some l) d dnd Hnear h
                (S fuel + S (length pre))%nat 1 0 (sameShape_refl h))
      as (g' & Hw'); [lia |].
    rewrite Hw in Hw'. rewrite Hf in Hw'. simpl fst in Hw'.
    replace (1 - 0 + Z.of_nat (length pre) - fauxCount h pre) with D in Hw'
      by (unfold D; lia).
    destruct (Z.ltb_spec 0xff D); [discriminate |].
    symmetry in Hw'. inv_bind Hw' as vp Evp. injection Hw' as _ ->.
    apply NewValuePath_Ok in Evp as [-> _].
    unfold uint8. rewrite Z.mod_small by (unfold D; lia). reflexivity. }
  assert (Hloc : GetBlockNodeForPath h' l p = Ok (Some d)).
  { rewrite <- (sameShape_GetBlockNodeForPath h h' l p Hs).
    destruct Hself as (sbn & E & Hsrc).
    rewrite (GetBlockNodeForPath_block _ _ sbn) by (subst p; auto).
    rewrite Hsrc, Hp. simpl.
    destruct (landed_nearest h l n pre Hinv l d dnd 0%nat Hnear) as (k' & Hl & Hk').
    { exists (Some l). split; [reflexivity | left; reflexivity]. }
    replace (Z.to_nat (D - 1)) with k' by (unfold D; lia).
    apply (locate_exact h l n k' d dnd idx Hinv Ed Hk Hf Hl). }
  rewrite Ed in Hd. simpl in Hd.
  split; [exact Hloc |].
  unfold GetStaticTypeOfAt, GetIsConstAt. rewrite Hloc. simpl.
  rewrite Hd. simpl. rewrite touch_Types. unfold getLocalIsConst.
  rewrite touch_Consts, Hf, Hp. simpl. auto.
Qed.

End Resolution.

End ScopeExtProofs.

Module TreeExtProofs.
Import VP Syntax PkgName TreeExt ValuePathProofs.

(** *** Value path types *)

Lemma Validate_types vp u :
  Validate vp = Ok u ->
  Type_ vp ∈ [VPUverse; VPBlock; VPField; VPValMethod; VPPtrMethod; VPInterface;
              VPSubrefField; VPDerefField; VPDerefValMethod; VPDerefPtrMethod;
              VPDerefInterface].
Proof.
  unfold Validate. intros E. inv_bind E as u' Ed.
  repeat match type of E with
         | (if ?t =? ?c then _ else _) = _ =>
             destruct (Z.eqb_spec t c) as [->|_]; [set_solver |]
         end.
  discriminate.
Qed.

(** X14: on a path that [Validate] accepts, [IsDerefType], which tests the
    bit [0x10] of the type, holds exactly for the four deref types, each of
    which is [0x10] above the type it dereferences to. *)
Theorem X14_IsDerefType_valid_paths vp :
  Validate vp = Ok tt ->
  (IsDerefType vp = true <->
   exists base,
     base ∈ [VPField; VPValMethod; VPPtrMethod; VPInterface] /\
     Type_ vp = 0x10 + base).
Proof.
  intros Hv. apply Validate_types in Hv. unfold IsDerefType.
  repeat (apply elem_of_cons in Hv as [->|Hv]);
    try (apply elem_of_nil in Hv; contradiction);
    (split;
     [ first
         [ discriminate
         | intros _; first
             [ exists VPField; split; [set_solver | reflexivity]
             | exists VPValMethod; split; [set_solver | reflexivity]
             | exists VPPtrMethod; split; [set_solver | reflexivity]
             | exists VPInterface; split; [set_solver | reflexivity] ] ]
     | intros (base & Hb & Ht);
       repeat (apply elem_of_cons in Hb as [->|Hb]);
       try (apply elem_of_nil in Hb; contradiction);
       first [reflexivity | discriminate] ]).
Qed.

(** *** Crossing calls *)

Lemma isWithCross_true x :
  isWithCross x = true <->
  exists fnc path ty,
    Func x = ECall fnc /\
    (Func fnc = NameExpr path "cross" ty \/
     Func fnc = ConstExpr (NameExpr path "cross" ty)).
Proof.
  unfold isWithCross. split.
  - destruct (Func x) eqn:Ex; try discriminate.
    destruct (unwrapConstExpr (Func cx)) eqn:Ef; try discriminate.
    intros Hn. apply String.eqb_eq in Hn. subst.
    apply CrossingProofs.unwrapConstExpr_name in Ef. eauto.
  - intros (fnc & path & ty & -> & Ef).
    apply CrossingProofs.unwrapConstExpr_name in Ef. rewrite Ef. reflexivity.
Qed.

(** X15: the two call forms exclude each other and [SetWithCross] accepts
    only the first.  A call is of the form [cross(fn)(...)] exactly when its
    function expression is a call whose function expression is the name
    [cross], as it stands or as the source of one constant expression; such
    a call is never of the form [crossing()]; [SetWithCross] panics on every
    other call, and on a call of that form it returns the call with the same
    function expression, arguments, variadic flag and argument count and
    with the mark set, which [IsWithCross] then reads. *)
Theorem X15_cross_call_form :
  (forall x,
     isWithCross x = true <->
     exists fnc path ty,
       Func x = ECall fnc /\
       (Func fnc = NameExpr path "cross" ty \/
        Func fnc = ConstExpr (NameExpr path "cross" ty))) /\
  (forall x, isWithCross x = true -> isCrossing (Some x) = false) /\
  (forall x, isWithCross x = false -> SetWithCross x = Panic "expected cross(fn)(...)") /\
  (forall f args varg numArgs wc,
     isWithCross (mkCallExpr f args varg numArgs wc) = true ->
     SetWithCross (mkCallExpr f args varg numArgs wc)
     = Ok (mkCallExpr f args varg numArgs true)) /\
  (forall x x',
     SetWithCross x = Ok x' ->
     IsWithCross x' = true /\ isWithCross x' = true /\
     isCrossing (Some x') = false).
Proof.
  assert (Hexcl : forall x, isWithCross x = true -> isCrossing (Some x) = false).
  { intros x Hx. apply isWithCross_true in Hx as (fnc & path & ty & Hf & _).
    simpl. rewrite Hf. reflexivity. }
  assert (Hset : forall f args varg numArgs wc,
             isWithCross (mkCallExpr f args varg numArgs wc) = true ->
             SetWithCross (mkCallExpr f args varg numArgs wc)
             = Ok (mkCallExpr f args varg numArgs true)).
  { intros f args varg numArgs wc Hx. unfold SetWithCross. rewrite Hx.
    reflexivity. }
  split; [exact isWithCross_true |]. split; [exact Hexcl |]. split; [| split].
  - intros x Hx. unfold SetWithCross. rewrite Hx. reflexivity.
  - exact Hset.
  - intros [f args varg numArgs wc] x' E.
    destruct (isWithCross (mkCallExpr f args varg numArgs wc)) eqn:Hx.
    + rewrite (Hset _ _ _ _ _ Hx) in E. injection E as <-.
      assert (Hx' : isWithCross (mkCallExpr f args varg numArgs true) = true)
        by exact Hx.
      split; [reflexivity |]. split; [exact Hx' | apply Hexcl, Hx'].
    + unfold SetWithCross in E. rewrite Hx in E. discriminate E.
Qed.

(** *** Composite literals and field lists *)

Lemma sameKeying_cases keyed elts :
  (sameKeying keyed elts = Ok tt /\
   Forall (fun e => bool_decide (e.1 <> None) = keyed) elts) \/
  (sameKeying keyed elts = Panic "mixed keyed and unkeyed elements" /\
   Exists (fun e => bool_decide (e.1 <> None) <> keyed) elts).
Proof.
  induction elts as [|[key value] rest IH]; simpl.
  - left. split; [reflexivity | constructor].
  - destruct (Bool.eqb_spec (bool_decide (key <> None)) keyed) as [Hk|Hk].
    + destruct IH as [[-> Hall]|[-> Hex]].
      * left. split; [reflexivity |]. constructor; assumption.
      * right. split; [reflexivity |]. apply Exists_cons_tl. exact Hex.
    + right. split; [reflexivity |]. apply Exists_cons_hd. exact Hk.
Qed.

(** X16: [IsKeyed] answers true exactly when the literal has elements and
    all of them have a key, false exactly when no element has a key (in
    particular for the empty literal), and panics exactly when keyed and
    unkeyed elements are mixed. *)
Theorem X16_IsKeyed elts :
  (IsKeyed elts = Ok true <->
   elts <> [] /\ Forall (fun e => e.1 <> None) elts) /\
  (IsKeyed elts = Ok false <-> Forall (fun e => e.1 = None) elts) /\
  (panics (IsKeyed elts) <->
   Exists (fun e => e.1 <> None) elts /\ Exists (fun e => e.1 = None) elts).
Proof.
  destruct elts as [|[[k|] value] rest]; simpl.
  - split; [| split].
    + split; [discriminate | intros [Hne _]; contradiction].
    + split; [constructor | reflexivity].
    + split; [intros [msg Hm]; discriminate |].
      intros [Hex _]. apply Exists_nil in Hex. contradiction.
  - destruct (sameKeying_cases true rest) as [[-> Hall]|[-> Hex]]; simpl.
    + assert (Hall' : Forall (fun e : option Expr * Expr => e.1 <> None) rest).
      { eapply Forall_impl; [exact Hall |]. intros e He.
        apply bool_decide_eq_true in He. exact He. }
      split; [| split].
      * split; [intros _; split; [discriminate | constructor; [discriminate | exact Hall']]
               | reflexivity].
      * split; [discriminate |]. intros Hf. apply Forall_cons in Hf as [Hf _].
        discriminate.
      * split; [intros [msg Hm]; discriminate |].
        intros [_ Hex]. apply Exists_cons in Hex as [Hex|Hex]; [discriminate |].
        apply Exists_exists in Hex as (e & Hin & He).
        rewrite Forall_forall in Hall'. exfalso. exact (Hall' e Hin He).
    + assert (Hex' : Exists (fun e : option Expr * Expr => e.1 = None) rest).
      { eapply Exists_impl; [exact Hex |]. intros e He. simpl in He.
        destruct (e.1); [| reflexivity].
        exfalso. apply He. apply bool_decide_eq_true_2. discriminate. }
      split; [| split].
      * split; [discriminate |]. intros [_ Hf]. apply Forall_cons in Hf as [_ Hf].
        apply Exists_exists in Hex' as (e & Hin & He).
        rewrite Forall_forall in Hf. exfalso. exact (Hf e Hin He).
      * split; [discriminate |]. intros Hf. apply Forall_cons in Hf as [Hf _].
        discriminate.
      * split; [| intros _; eexists; reflexivity].
        intros _. split; [apply Exists_cons_hd; discriminate |].
        apply Exists_cons_tl. exact Hex'.
  - destruct (sameKeying_cases false rest) as [[-> Hall]|[-> Hex]]; simpl.
    + assert (Hall' : Forall (fun e : option Expr * Expr => e.1 = None) rest).
      { eapply Forall_impl; [exact Hall |]. intros e He.
        apply bool_decide_eq_false in He. destruct (e.1); [| reflexivity].
        exfalso. apply He. discriminate. }
      split; [| split].
      * split; [discriminate |]. intros [_ Hf]. apply Forall_cons in Hf as [Hf _].
        contradiction.
      * split; [intros _; constructor; [reflexivity | exact Hall'] | reflexivity].
      * split; [intros [msg Hm]; discriminate |].
        intros [Hex _]. apply Exists_cons in Hex as [Hex|Hex]; [contradiction |].
        apply Exists_exists in Hex as (e & Hin & He).
        rewrite Forall_forall in Hall'. exfalso. exact (He (Hall' e Hin)).
    + assert (Hex' : Exists (fun e : option Expr * Expr => e.1 <> None) rest).
      { eapply Exists_impl; [exact Hex |]. intros e He. simpl in He.
        intros Hnone. apply He. apply bool_decide_eq_false_2.
        intros Hne. contradiction. }
      split; [| split].
      * split; [discriminate |]. intros [_ Hf]. apply Forall_cons in Hf as [Hf _].
        contradiction.
      * split; [discriminate |]. intros Hf. apply Forall_cons in Hf as [_ Hf].
        apply Exists_exists in Hex' as (e & Hin & He).
        rewrite Forall_forall in Hf. exfalso. exact (He (Hf e Hin)).
      * split; [| intros _; eexists; reflexivity].
        intros _. split; [apply Exists_cons_tl; exact Hex' |].
        apply Exists_cons_hd. reflexivity.
Qed.

Lemma has_prefix_app p s :
  has_prefix p s = true -> exists r, s = (p ++ r)%string.
Proof.
  revert s. induction p as [|a p IH]; intros s H.
  - exists s. reflexivity.
  - destruct s as [|b s]; [discriminate |]. simpl in H.
    destruct (Ascii.eqb_spec a b) as [->|]; [| discriminate].
    destruct (IH s H) as [r ->]. exists r. reflexivity.
Qed.

Lemma sameNamedness_cases named names :
  (sameNamedness named names = Ok tt /\
   Forall (fun nm => fieldUnnamed nm = negb named) names) \/
  ((exists msg, sameNamedness named names = Panic msg) /\
   Exists (fun nm => fieldUnnamed nm = named) names).
Proof.
  induction names as [|nm rest IH]; simpl.
  - left. split; [reflexivity | constructor].
  - destruct named, (fieldUnnamed nm) eqn:Hu; simpl.
    + right. split; [eexists; reflexivity | apply Exists_cons_hd; exact Hu].
    + destruct IH as [[-> Hall]|[Hp Hex]].
      * left. split; [reflexivity |]. constructor; assumption.
      * right. split; [exact Hp | apply Exists_cons_tl; exact Hex].
    + destruct IH as [[-> Hall]|[Hp Hex]].
      * left. split; [reflexivity |]. constructor; assumption.
      * right. split; [exact Hp | apply Exists_cons_tl; exact Hex].
    + right. split; [eexists; reflexivity | apply Exists_cons_hd; exact Hu].
Qed.

(** X17: [IsNamed] answers true exactly when the list has fields and every
    field has a name that is neither empty nor a missing-result name, false
    exactly when every field is unnamed in this sense (in particular for the
    empty list), and panics exactly when the two kinds are mixed.  A name
    with the underscore-result prefix counts as a name. *)
Theorem X17_IsNamed names :
  (IsNamed names = Ok true <->
   names <> [] /\ Forall (fun nm => fieldUnnamed nm = false) names) /\
  (IsNamed names = Ok false <-> Forall (fun nm => fieldUnnamed nm = true) names) /\
  (panics (IsNamed names) <->
   Exists (fun nm => fieldUnnamed nm = false) names /\
   Exists (fun nm => fieldUnnamed nm = true) names) /\
  (forall nm, isUnderscoreResult nm = true -> fieldUnnamed nm = false).
Proof.
  split; [| split; [| split]].
  4:{ intros nm Hu. apply has_prefix_app in Hu as [r ->]. reflexivity. }
  all: destruct names as [|nm rest]; simpl.
  - split; [discriminate | intros [Hne _]; contradiction].
  - destruct (sameNamedness_cases (negb (fieldUnnamed nm)) rest)
      as [[-> Hall]|[[msg ->] Hex]]; simpl.
    + rewrite Bool.negb_involutive in Hall.
      destruct (fieldUnnamed nm) eqn:Hu; simpl.
      * split; [discriminate |]. intros [_ Hf]. apply Forall_cons in Hf as [Hf _].
        congruence.
      * split; [| reflexivity]. intros _. split; [discriminate |].
        constructor; assumption.
    + split; [discriminate |]. intros [_ Hf]. apply Forall_cons in Hf as [Hn Hf].
      rewrite Hn in Hex. simpl in Hex.
      apply Exists_exists in Hex as (e & Hin & He).
      rewrite Forall_forall in Hf. rewrite (Hf e Hin) in He. discriminate.
  - split; [constructor | reflexivity].
  - destruct (sameNamedness_cases (negb (fieldUnnamed nm)) rest)
      as [[-> Hall]|[[msg ->] Hex]]; simpl.
    + rewrite Bool.negb_involutive in Hall.
      destruct (fieldUnnamed nm) eqn:Hu; simpl.
      * split; [| reflexivity]. intros _. constructor; assumption.
      * split; [discriminate |]. intros Hf. apply Forall_cons in Hf as [Hf _].
        congruence.
    + split; [discriminate |]. intros Hf. apply Forall_cons in Hf as [Hn Hf].
      rewrite Hn in Hex. simpl in Hex.
      apply Exists_exists in Hex as (e & Hin & He).
      rewrite Forall_forall in Hf. rewrite (Hf e Hin) in He. discriminate.
  - split; [intros [msg Hm]; discriminate |].
    intros [Hex _]. apply Exists_nil in Hex. contradiction.
  - destruct (sameNamedness_cases (negb (fieldUnnamed nm)) rest)
      as [[-> Hall]|[[msg ->] Hex]]; simpl.
    + rewrite Bool.negb_involutive in Hall. rewrite Forall_forall in Hall.
      split; [intros [msg Hm]; discriminate |].
      intros [Hf Ht]. exfalso.
      destruct (fieldUnnamed nm) eqn:Hu.
      * apply Exists_cons in Hf as [Hf|Hf]; [congruence |].
        apply Exists_exists in Hf as (e & Hin & He).
        rewrite (Hall e Hin) in He. discriminate.
      * apply Exists_cons in Ht as [Ht|Ht]; [congruence |].
        apply Exists_exists in Ht as (e & Hin & He).
        rewrite (Hall e Hin) in He. discriminate.
    + split; [| intros _; eexists; reflexivity].
      intros _. destruct (fieldUnnamed nm) eqn:Hu; simpl in Hex.
      * split; [apply Exists_cons_tl; exact Hex | apply Exists_cons_hd; exact Hu].
      * split; [apply Exists_cons_hd; exact Hu | apply Exists_cons_tl; exact Hex].
Qed.

(** *** Declarations and file sets *)

Lemma findDecl_Some decls n j :
  findDecl decls n = Some j <->
  exists d,
    decls !! j = Some d /\ declaresHere n d /\
    forall j' d', decls !! j' = Some d' -> (j' < j)%nat -> ~ declaresHere n d'.
Proof.
  unfold findDecl. split.
  - intros E. apply fmap_Some in E as ([j0 d] & E & ->).
    apply list_find_Some in E. exists d. exact E.
  - intros (d & E). rewrite (proj2 (list_find_Some _ _ _ _) E). reflexivity.
Qed.

Lemma findDecl_None decls n :
  findDecl decls n = None <-> Forall (fun d => ~ declaresHere n d) decls.
Proof.
  unfold findDecl. rewrite fmap_None. apply list_find_None.
Qed.

(** The scan seen from the last file. *)
Lemma GetDeclForSafe_snoc fs fn n :
  GetDeclForSafe (fs ++ [fn]) n =
  match findDecl (Decls fn) n with
  | Some j => Some (length fs, j)
  | None => GetDeclForSafe fs n
  end.
Proof.
  unfold GetDeclForSafe. rewrite rev_unit, length_app. simpl length.
  replace (length fs + 1 - 1)%nat with (length fs) by lia.
  cbn [scanFiles].
  destruct (findDecl (Decls fn) n); [reflexivity |].
  destruct (length fs) as [|k] eqn:El.
  - apply length_zero_iff_nil in El. subst fs. reflexivity.
  - replace (S k - 1)%nat with k by lia. reflexivity.
Qed.

Lemma GetDeclForSafe_findDecl fs n :
  (forall i j,
     GetDeclForSafe fs n = Some (i, j) <->
     exists fn,
       fs !! i = Some fn /\ findDecl (Decls fn) n = Some j /\
       forall i' fn', fs !! i' = Some fn' -> (i < i')%nat ->
                      findDecl (Decls fn') n = None) /\
  (GetDeclForSafe fs n = None <->
   forall fn, fn ∈ fs -> findDecl (Decls fn) n = None).
Proof.
  induction fs as [|fn fs IH] using rev_ind.
  - split.
    + intros i j. split; [discriminate |]. intros (fn & E & _). discriminate.
    + split; [intros _ fn Hin; apply elem_of_nil in Hin; contradiction | reflexivity].
  - destruct IH as [IHs IHn]. rewrite GetDeclForSafe_snoc.
    destruct (findDecl (Decls fn) n) as [j0|] eqn:Ef.
    + split.
      * intros i j. split.
        -- intros [= <- <-]. exists fn.
           split; [apply list_lookup_middle; reflexivity |]. split; [exact Ef |].
           intros i' fn' E' Hlt. apply lookup_lt_Some in E'.
           rewrite length_app in E'. simpl in E'. lia.
        -- intros (fn' & E & Ej & Hlater).
           destruct (lt_eq_lt_dec i (length fs)) as [[Hlt|Heq]|Hgt];
             [| subst i |].
           ++ specialize (Hlater (length fs) fn
                            (list_lookup_middle fs [] fn _ eq_refl) Hlt).
              congruence.
           ++ apply lookup_app_Some in E as [E|[_ E]].
              ** apply lookup_lt_Some in E. lia.
              ** rewrite Nat.sub_diag in E. injection E as E. subst fn'.
                 congruence.
           ++ apply lookup_lt_Some in E. rewrite length_app in E. simpl in E. lia.
      * split; [discriminate |]. intros Hall.
        rewrite Hall in Ef; [discriminate |].
        apply elem_of_app. right. apply list_elem_of_singleton. reflexivity.
    + split.
      * intros i j. rewrite IHs. split.
        -- intros (fn' & E & Ej & Hlater). exists fn'.
           split; [apply lookup_app_l_Some; exact E |]. split; [exact Ej |].
           intros i' fn'' E' Hlt.
           apply lookup_app_Some in E' as [E'|[Hge E']].
           ++ eapply Hlater; eauto.
           ++ destruct (i' - length fs)%nat; simpl in E'; [| discriminate].
              injection E' as <-. exact Ef.
        -- intros (fn' & E & Ej & Hlater).
           apply lookup_app_Some in E as [E|[Hge E]].
           ++ exists fn'. split; [exact E |]. split; [exact Ej |].
              intros i' fn'' E' Hlt. eapply Hlater; [| exact Hlt].
              apply lookup_app_l_Some. exact E'.
           ++ destruct (i - length fs)%nat; simpl in E; [| discriminate].
              injection E as <-. congruence.
      * rewrite IHn. split.
        -- intros Hall fn' [Hin|Hin%list_elem_of_singleton]%elem_of_app;
             [auto | subst; exact Ef].
        -- intros Hall fn' Hin. apply Hall. apply elem_of_app. left. exact Hin.
Qed.

(** X18: [GetDeclForSafe] answers the first declaration of [n] that is not
    an import in the last file that has one: the answer [(i, j)] is
    declaration [j] of file [i], which is not an import and declares [n]; no
    earlier declaration of that file and no declaration of a later file is
    one.  There is no answer exactly when no file has such a declaration,
    which is when [GetDeclFor] panics; an import never counts, also when it
    is the only declaration of the name. *)
Theorem X18_GetDeclForSafe fs n :
  (forall i j,
     GetDeclForSafe fs n = Some (i, j) <->
     exists fn d,
       fs !! i = Some fn /\ Decls fn !! j = Some d /\
       isImport d = false /\ HasDeclName d n = true /\
       (forall j' d', Decls fn !! j' = Some d' -> (j' < j)%nat ->
                      ~ (isImport d' = false /\ HasDeclName d' n = true)) /\
       (forall i' fn' d', fs !! i' = Some fn' -> (i < i')%nat ->
                          d' ∈ Decls fn' ->
                          ~ (isImport d' = false /\ HasDeclName d' n = true))) /\
  (GetDeclForSafe fs n = None <->
   forall fn d, fn ∈ fs -> d ∈ Decls fn ->
                ~ (isImport d = false /\ HasDeclName d n = true)) /\
  (panics (GetDeclFor fs n) <-> GetDeclForSafe fs n = None).
Proof.
  destruct (GetDeclForSafe_findDecl fs n) as [Hs Hn].
  split; [| split].
  - intros i j. rewrite Hs. split.
    + intros (fn & E & Ej & Hlater).
      apply findDecl_Some in Ej as (d & Ed & [Hi Hd] & Hfirst).
      exists fn, d. repeat split; try assumption.
      intros i' fn' d' E' Hlt Hin.
      specialize (Hlater i' fn' E' Hlt). apply findDecl_None in Hlater.
      rewrite Forall_forall in Hlater. exact (Hlater d' Hin).
    + intros (fn & d & E & Ed & Hi & Hd & Hfirst & Hlater).
      exists fn. split; [exact E |]. split.
      * apply findDecl_Some. exists d. repeat split; assumption.
      * intros i' fn' E' Hlt. apply findDecl_None. apply Forall_forall.
        intros d' Hin. exact (Hlater i' fn' d' E' Hlt Hin).
  - rewrite Hn. split.
    + intros Hall fn d Hfn Hd. specialize (Hall fn Hfn).
      apply findDecl_None in Hall. rewrite Forall_forall in Hall.
      exact (Hall d Hd).
    + intros Hall fn Hfn. apply findDecl_None. apply Forall_forall.
      intros d Hd. exact (Hall fn d Hfn Hd).
  - unfold GetDeclFor. destruct (GetDeclForSafe fs n) as [r|].
    + split; [intros [msg Hm]; discriminate | discriminate].
    + split; [reflexivity | intros _; eexists; reflexivity].
Qed.

(** X19: files added later.  After [AddFiles], a file that was found by its
    name is still found, at the same place, also when an added file bears the
    same name; a file with a new name is found at the place where it was
    added.  For declarations it is the other way round: a declaration of [n]
    in the added file takes precedence over those of the files before. *)
Theorem X19_AddFiles fs fn n :
  (forall m i fns,
     GetFileByName fs m = Some i -> GetFileByName (AddFiles fs fns) m = Some i) /\
  (GetFileByName fs (FileName fn) = None ->
   GetFileByName (AddFiles fs [fn]) (FileName fn) = Some (length fs)) /\
  (forall j,
     findDecl (Decls fn) n = Some j ->
     GetDeclForSafe (AddFiles fs [fn]) n = Some (length fs, j)) /\
  (findDecl (Decls fn) n = None ->
   GetDeclForSafe (AddFiles fs [fn]) n = GetDeclForSafe fs n).
Proof.
  unfold GetFileByName, AddFiles. split; [| split; [| split]].
  - intros m i fns E. apply fmap_Some in E as ([i0 f] & E & ->).
    rewrite (list_find_app_l _ _ fns _ _ E). reflexivity.
  - intros E. apply fmap_None in E. rewrite list_find_app_r by exact E.
    simpl. rewrite decide_True by reflexivity. reflexivity.
  - intros j Ej. rewrite GetDeclForSafe_snoc, Ej. reflexivity.
  - intros Ej. rewrite GetDeclForSafe_snoc, Ej. reflexivity.
Qed.

(** *** Parsing and reading a package *)

Fixpoint lefts {A B} (l : list (A + B)) : list A :=
  match l with
  | [] => []
  | inl a :: rest => a :: lefts rest
  | inr _ :: rest => lefts rest
  end.

Fixpoint rights {A B} (l : list (A + B)) : list B :=
  match l with
  | [] => []
  | inl _ :: rest => rights rest
  | inr b :: rest => b :: rights rest
  end.

Lemma lefts_rights {A B} (l : list (A + B)) (bs : list B) :
  lefts l = [] /\ rights l = bs <-> l = map inr bs.
Proof.
  revert bs. induction l as [|[a|b] l IH]; intros bs; simpl.
  - split; [intros [_ <-]; reflexivity |]. destruct bs; [auto | discriminate].
  - split; [intros [? _]; discriminate |]. destruct bs; discriminate.
  - destruct bs as [|b' bs]; simpl.
    + split; [intros [_ ?]; discriminate | discriminate].
    + split.
      * intros [Hl [= -> Hr]]. f_equal. apply IH. auto.
      * intros [= -> Hl]. apply IH in Hl as [Hl Hr].
        split; [assumption | f_equal; assumption].
Qed.

(** The files that [ParseMemPackage] hands to [ParseFile], with the
    results. *)
Definition parsed (ParseFile : string -> string -> string + FileNode)
    (mfiles : list MemFile) : list (string + FileNode) :=
  map (fun f => ParseFile (FName f) (FBody f))
      (List.filter (fun f => negb (skipped (FName f))) mfiles).

Lemma parseFiles_spec ParseFile pkgName mfiles errs fset :
  parseFiles ParseFile pkgName mfiles errs fset =
  if forallb (fun fn => String.eqb pkgName (PkgName fn))
             (rights (parsed ParseFile mfiles))
  then Ok (errs ++ lefts (parsed ParseFile mfiles),
           fset ++ rights (parsed ParseFile mfiles))
  else Panic "expected package name".
Proof.
  revert errs fset. unfold parsed.
  induction mfiles as [|mfile rest IH]; intros errs fset; simpl.
  - rewrite !app_nil_r. reflexivity.
  - destruct (skipped (FName mfile)); simpl; [apply IH |].
    destruct (ParseFile (FName mfile) (FBody mfile)) as [err|fn]; simpl.
    + rewrite IH, <- app_assoc. reflexivity.
    + destruct (String.eqb pkgName (PkgName fn)); simpl; [| reflexivity].
      unfold AddFiles. rewrite IH, <- app_assoc. reflexivity.
Qed.

(** X20: [ParseMemPackage] returns a file set exactly when [ParseFile]
    succeeds on every file whose name ends in .gno but not in _test.gno or
    _filetest.gno, each with the package name of the package; the file set
    then holds the results for these files, in the order of the package, and
    does not depend on the other files.  In every other case it panics. *)
Theorem X20_ParseMemPackage ParseFile memPkg :
  (forall fset,
     ParseMemPackage ParseFile memPkg = Ok fset <->
     map (fun f => ParseFile (FName f) (FBody f))
         (List.filter (fun f => negb (skipped (FName f))) (MPFiles memPkg))
     = map inr fset /\
     Forall (fun fn => PkgName fn = MPName memPkg) fset) /\
  ((exists fset, ParseMemPackage ParseFile memPkg = Ok fset) \/
   panics (ParseMemPackage ParseFile memPkg)).
Proof.
  unfold ParseMemPackage. rewrite parseFiles_spec.
  fold (parsed ParseFile (MPFiles memPkg)).
  set (rs := parsed ParseFile (MPFiles memPkg)).
  destruct (forallb _ (rights rs)) eqn:Hall; simpl.
  - rewrite forallb_forall in Hall.
    assert (Hnames : Forall (fun fn => PkgName fn = MPName memPkg) (rights rs)).
    { apply Forall_forall. intros fn Hin. symmetry. apply String.eqb_eq.
      apply Hall. apply list_elem_of_In. exact Hin. }
    destruct (lefts rs) as [|e es] eqn:Hl.
    + split; [| left; eexists; reflexivity].
      intros fset. split.
      * intros [= <-]. split; [| exact Hnames]. apply lefts_rights. auto.
      * intros [Hrs _]. apply lefts_rights in Hrs as [_ ->]. reflexivity.
    + split; [| right; eexists; reflexivity].
      intros fset. split; [discriminate |].
      intros [Hrs _]. apply lefts_rights in Hrs as [Hrs _]. congruence.
  - split; [| right; eexists; reflexivity].
    intros fset. split; [discriminate |].
    intros [Hrs Hnames]. apply lefts_rights in Hrs as [_ Hrs].
    assert (forallb (fun fn => String.eqb (MPName memPkg) (PkgName fn))
                    (rights rs) = true); [| congruence].
    apply forallb_forall. intros fn Hin. apply String.eqb_eq. symmetry.
    rewrite Forall_forall in Hnames. apply Hnames. rewrite <- Hrs.
    apply list_elem_of_In. exact Hin.
Qed.

(** [pkgName[:len(pkgName)-len("_test")]] for a name with that suffix. *)
Definition trimTest (pn : Name) : Name :=
  if has_suffix "_test" pn
  then take_bytes (String.length pn - String.length "_test")%nat pn
  else pn.

Section Reading.
Variable ReadFile : string -> string + string.
Variable Base : string -> string.
Variable IsEmpty : MemPackage -> bool.

Lemma readFiles_files PN paths pkgName files pkgName' files' :
  readFiles ReadFile Base PN paths pkgName files = inr (pkgName', files') ->
  exists new,
    files' = files ++ new /\
    Forall2 (fun path f => FName f = Base path /\ ReadFile path = inr (FBody f))
            paths new.
Proof.
  revert pkgName files. induction paths as [|fpath rest IH];
    intros pkgName files; simpl.
  - intros [= <- <-]. exists []. rewrite app_nil_r. split; [reflexivity | constructor].
  - destruct (ReadFile fpath) as [err|bz] eqn:Er; [discriminate |].
    match goal with
    | |- match ?named with _ => _ end = _ -> _ =>
        destruct named as [err|pkgName1]; [discriminate |]
    end.
    intros E. apply IH in E as (new & -> & Hnew).
    exists (mkMemFile (Base fpath) bz :: new).
    split; [rewrite <- app_assoc; reflexivity |].
    constructor; [split; [reflexivity | exact Er] | exact Hnew].
Qed.

Lemma readFiles_named PN PN' paths pkgName files :
  pkgName <> "" ->
  readFiles ReadFile Base PN' paths pkgName files
  = readFiles ReadFile Base PN paths pkgName files /\
  forall pkgName' files',
    readFiles ReadFile Base PN paths pkgName files = inr (pkgName', files') ->
    pkgName' = pkgName.
Proof.
  intros Hne. apply String.eqb_neq in Hne.
  revert files. induction paths as [|fpath rest IH]; intros files; simpl.
  - split; [reflexivity |]. intros ? ? [= <- _]. reflexivity.
  - destruct (ReadFile fpath) as [err|bz]; [split; [reflexivity | discriminate] |].
    rewrite Hne. simpl. apply IH.
Qed.

Lemma readFiles_first PN PN' pre p post bz pn files :
  Forall (fun q => has_suffix ".gno" (Base q) = false) pre ->
  has_suffix ".gno" (Base p) = true ->
  ReadFile p = inr bz ->
  PN (Base p) bz = inr pn ->
  PN' (Base p) bz = inr pn ->
  trimTest pn <> "" ->
  readFiles ReadFile Base PN' (pre ++ p :: post) "" files
  = readFiles ReadFile Base PN (pre ++ p :: post) "" files /\
  forall pkgName' files',
    readFiles ReadFile Base PN (pre ++ p :: post) "" files
    = inr (pkgName', files') ->
    pkgName' = trimTest pn.
Proof.
  intros Hpre Hgno Er Ep Ep' Hne. revert files.
  induction Hpre as [|q pre Hq Hpre IH]; intros files; simpl.
  - rewrite Er, Hgno, Ep, Ep'. simpl.
    unfold trimTest in *. simpl in Hne.
    destruct (has_suffix "_test" pn); apply readFiles_named; exact Hne.
  - destruct (ReadFile q) as [err|bq]; [split; [reflexivity | discriminate] |].
    rewrite Hq. simpl. apply IH.
Qed.

(** X21: a package read by [ReadMemPackageFromList] has the given path and
    one file for each path of the list, in the order of the list, named by
    the base name of the path and holding what [ReadFile] gave for it; a
    path is not left out for its name, and a package is returned only if
    every path could be read. *)
Theorem X21_files_as_listed PN paths pkgPath memPkg :
  ReadMemPackageFromList ReadFile Base PN IsEmpty paths pkgPath = inr memPkg ->
  MPPath memPkg = pkgPath /\
  Forall2 (fun path f => FName f = Base path /\ ReadFile path = inr (FBody f))
          paths (MPFiles memPkg).
Proof.
  unfold ReadMemPackageFromList.
  destruct (readFiles _ _ _ _ _ _) as [err|[pkgName files]] eqn:Er;
    [discriminate |].
  apply readFiles_files in Er as (new & -> & Hnew). simpl in *.
  destruct (negb _); [destruct (validatePkgName pkgName); [discriminate |] |];
    intros [= <-]; simpl; auto.
Qed.

(** X22: the first file of the list whose base name ends in .gno names the
    package, when what is left of its package name without a final _test is
    not empty: a package that is returned bears that name, and the package
    names of the other files play no part: whatever
    [PackageNameFromFileBody] would answer for them, the result, package or
    error, is the same. *)
Theorem X22_first_gno_file_names_the_package
    PN pre p post pkgPath bz pn :
  Forall (fun q => has_suffix ".gno" (Base q) = false) pre ->
  has_suffix ".gno" (Base p) = true ->
  ReadFile p = inr bz ->
  PN (Base p) bz = inr pn ->
  trimTest pn <> "" ->
  (forall memPkg,
     ReadMemPackageFromList ReadFile Base PN IsEmpty (pre ++ p :: post) pkgPath
     = inr memPkg ->
     MPName memPkg = trimTest pn) /\
  (forall PN',
     PN' (Base p) bz = inr pn ->
     ReadMemPackageFromList ReadFile Base PN' IsEmpty (pre ++ p :: post) pkgPath
     = ReadMemPackageFromList ReadFile Base PN IsEmpty (pre ++ p :: post) pkgPath).
Proof.
  intros Hpre Hgno Er Ep Hne. split.
  - intros memPkg. unfold ReadMemPackageFromList.
    destruct (readFiles _ _ _ _ _ _) as [err|[pkgName files]] eqn:E;
      [discriminate |].
    apply (proj2 (readFiles_first PN PN pre p post bz pn [] Hpre Hgno Er Ep Ep Hne))
      in E. subst pkgName.
    destruct (negb _); [destruct (validatePkgName _); [discriminate |] |];
      intros [= <-]; reflexivity.
  - intros PN' Ep'. unfold ReadMemPackageFromList.
    rewrite (proj1 (readFiles_first PN PN' pre p post bz pn [] Hpre Hgno Er Ep Ep' Hne)).
    reflexivity.
Qed.

End Reading.

End TreeExtProofs.

(** * The further properties on the example stores *)

Module ExtInstances.
Import VP Syntax PkgName Scope ScopeExt TreeExt Example.
Import ScopeProofs ScopeExtProofs TreeExtProofs Instances.

#[local] Existing Instance toyTypes.
#[local] Existing Instance toyEnv.

Lemma blockX_inv : blockInv blockX.
Proof.
  constructor; try reflexivity.
  - simpl. lia.
  - simpl. apply NoDup_singleton.
  - simpl. not_in_list.
  - simpl. not_in_list.
  - simpl. intros n Hn. apply elem_of_nil in Hn. contradiction.
Qed.

(** The universe block gives every name the type [builtin]. *)
Definition toyUverseValueAt (path : ValuePath) : TypedValue :=
  mkTypedValue (Some "builtin") None.

Definition node0 : BlockNode :=
  mkBlockNode KFuncDecl (namesBlock (Some 0%nat) None ["z"]).

Definition node3 : BlockNode :=
  mkBlockNode KBlockStmt (namesBlock (Some 3%nat) (Some 2%nat) []).

Lemma nestedStore_nearest_z :
  nearest nestedStore (Some 3%nat) "z" [3%nat; 2%nat; 1%nat] 0%nat node0.
Proof.
  exists []. split; [exact nestedStore_ancestry |]. split; [| split].
  - intros a nd Ha E.
    repeat (apply elem_of_cons in Ha as [->|Ha];
            [vm_compute in E; injection E as <-; simpl; not_in_list |]).
    apply elem_of_nil in Ha. contradiction.
  - reflexivity.
  - simpl. apply list_elem_of_here.
Qed.

Lemma nestedStore_undeclared_len :
  undeclared nestedStore (Some 3%nat) "len" [3%nat; 2%nat; 1%nat; 0%nat].
Proof.
  split; [exact nestedStore_ancestry |].
  intros a nd Ha E.
  repeat (apply elem_of_cons in Ha as [->|Ha];
          [vm_compute in E; injection E as <-; simpl; not_in_list |]).
  apply elem_of_nil in Ha. contradiction.
Qed.

Lemma nestedStore_undeclared_nope :
  undeclared nestedStore (Some 3%nat) "nope" [3%nat; 2%nat; 1%nat; 0%nat].
Proof. split; [exact nestedStore_ancestry | exact nestedStore_nope]. Qed.

(** X1 on [blockX]: [y] is predefined, then defined. *)
Lemma X1_witness :
  exists sb',
    runOps [OpPredefine false "y"; OpDefine2 false "y" (Some "int") (intValue 3)]
           blockX = Ok sb' /\
    blockInv sb'.
Proof.
  assert (Hr : exists sb',
             runOps [OpPredefine false "y";
                     OpDefine2 false "y" (Some "int") (intValue 3)] blockX
             = Ok sb').
  { eexists. vm_compute. reflexivity. }
  destruct Hr as [sb' Hr]. exists sb'. split; [exact Hr |].
  exact (X1_definitions_keep_block_layout _ blockX sb' blockX_inv Hr).
Defined.

(** X2 on [blockX] and its name [x]. *)
Lemma X2_witness :
  GetLocalIndex blockX "x" = (0, true) <->
  0 <= 0 /\ Names blockX !! Z.to_nat 0 = Some "x".
Proof. exact (X2_GetLocalIndex_exact blockX "x" 0 blockX_inv). Defined.

(** X3 on [blockX]. *)
Lemma X3_witness :
  Define2 false "x" (Some "int") (intValue 1) blockX <> Panic "index out of range" /\
  SetIsHeapItem blockX "x" <> Panic "index out of range".
Proof.
  exact (@X3_no_index_out_of_range toyTypes toyEnv false "x" (Some "int")
           (intValue 1) blockX blockX_inv).
Defined.

(** X4 on [blockX]: [x] is there, [nope] is not. *)
Lemma X4_witness :
  SetIsHeapItem blockX "nope" = Panic "name not found in block" /\
  exists sb' idx,
    SetIsHeapItem blockX "x" = Ok sb' /\
    GetLocalIndex blockX "x" = (idx, true) /\
    HeapItems sb' !! Z.to_nat idx = Some true.
Proof.
  split.
  - apply (proj1 (X4_SetIsHeapItem blockX "nope" blockX_inv)). simpl. not_in_list.
  - destruct (proj2 (X4_SetIsHeapItem blockX "x" blockX_inv))
      as (sb' & idx & H1 & H2 & H3 & _).
    { simpl. apply list_elem_of_here. }
    exists sb', idx. auto.
Defined.

(** X5 on [blockX]: [y] is predefined as a variable, then defined as one of
    type [int], which the reserved slot then holds; defining it as a constant
    panics. *)
Lemma X5_witness :
  exists sb1,
    Predefine false "y" blockX = Ok sb1 /\
    Values (SBlock sb1) !! 1%nat = Some (mkTypedValue None None) /\
    GetLocalIndex sb1 "y" = (1, true) /\
    (exists sb2,
       Define2 false "y" (Some "int") (ofType "int") sb1 = Ok sb2 /\
       Names sb2 = Names sb1 /\
       GetLocalIndex sb2 "y" = (1, true) /\
       Values (SBlock sb2) !! 1%nat = Some (ofType "int") /\
       Types sb2 !! 1%nat = Some (Some "int") /\
       (forall j, j <> 1%nat ->
          Values (SBlock sb2) !! j = Values (SBlock sb1) !! j /\
          Types sb2 !! j = Types sb1 !! j)) /\
    Define2 true "y" (Some "int") (ofType "int") sb1 =
      Panic "StaticBlock.Define2() cannot change const status".
Proof.
  assert (Hp : exists sb1,
             Predefine false "y" blockX = Ok sb1 /\
             Values (SBlock sb1) !! 1%nat = Some (mkTypedValue None None)).
  { eexists. split; vm_compute; reflexivity. }
  destruct Hp as (sb1 & Hp & Hu). exists sb1.
  split; [exact Hp |]. split; [exact Hu |].
  apply (@X5_predefine_then_define toyTypes toyEnv false "y" (Some "int")
           (ofType "int") blockX sb1 blockX_inv).
  - simpl. not_in_list.
  - discriminate.
  - reflexivity.
  - exact Hp.
  - vm_compute in Hp. injection Hp as <-. simpl. lia.
  - discriminate.
Defined.

(** X6 on [blockF]: [f] is upgraded from [func(int)] to the zero function
    type and the block reverted. *)
Lemma X6_witness :
  exists sb' sb'',
    Define2 false "f" (Some "func()")
      (typed "func()" (FuncV (Some "func()") 9)) blockF = Ok sb' /\
    revertToOld sb' = Ok sb'' /\
    Values (SBlock sb'') = Values (SBlock blockF) /\
    Names sb'' = Names blockF /\
    oldValues sb'' = [].
Proof.
  assert (Hd : exists sb',
             Define2 false "f" (Some "func()")
               (typed "func()" (FuncV (Some "func()") 9)) blockF = Ok sb').
  { eexists. vm_compute. reflexivity. }
  destruct Hd as [sb' Hd].
  destruct (@X6_upgrade_then_revert toyTypes toyEnv blockF "f" 0
              (typed "func(int)" (FuncV (Some "func(int)") 7)) false
              (Some "func()") (typed "func()" (FuncV (Some "func()") 9))
              "func()" (FuncV (Some "func()") 9) sb')
    as (sb'' & Hr & Hv & _ & Hn & Ho);
    [reflexivity | discriminate | reflexivity | reflexivity | reflexivity
    | reflexivity | reflexivity | reflexivity | exact Hd |].
  exists sb', sb''. auto.
Defined.

(** X7 on the nested store: [z] is three scopes up from the inner block, one
    of the scopes between being a faux child block. *)
Lemma X7_witness :
  exists h',
    GetPathForName 8 nestedStore 3%nat "z" =
    Ok (h', mkValuePath VPBlock 3 0 "z").
Proof.
  destruct (X7_path_of_nearest_declaration 8 nestedStore 3%nat "z"
              [3%nat; 2%nat; 1%nat] 0%nat node0) as [Hok _].
  - exact nestedStore_self.
  - discriminate.
  - exact nestedStore_nearest_z.
  - simpl. lia.
  - destruct Hok as [h' Hh'].
    + vm_compute. discriminate.
    + exists h'. rewrite Hh'. vm_compute. reflexivity.
Defined.

(** X8 on the nested store: [len] is a name of the universe block only. *)
Lemma X8_witness :
  (exists h',
     GetPathForName 8 nestedStore 3%nat "len" =
     Ok (h', mkValuePath VPUverse 0 5 "len")) /\
  IsAssignable 8 nestedStore 3%nat "len" = Ok false /\
  GetStaticTypeOf toyUverseValueAt 8 nestedStore 3%nat "len" = Ok (Some "builtin") /\
  GetIsConst 8 nestedStore 3%nat "len" = Panic "name not declared".
Proof.
  apply (X8_universe_names toyUverseValueAt 8 nestedStore 3%nat "len"
           [3%nat; 2%nat; 1%nat; 0%nat] 5).
  - exact nestedStore_self.
  - discriminate.
  - exact nestedStore_undeclared_len.
  - reflexivity.
  - simpl. lia.
Defined.

(** X9 on the nested store: [nope] is declared nowhere. *)
Lemma X9_witness :
  IsAssignable 8 nestedStore 3%nat "nope" = Ok true /\
  GetIsConst 8 nestedStore 3%nat "nope" = Panic "name not declared" /\
  GetStaticTypeOf toyUverseValueAt 8 nestedStore 3%nat "nope" =
    Panic "name not declared".
Proof.
  apply (X9_name_declared_nowhere toyUverseValueAt 8 nestedStore 3%nat "nope"
           [3%nat; 2%nat; 1%nat; 0%nat]).
  - exact nestedStore_undeclared_nope.
  - simpl. not_in_list.
  - simpl. lia.
Defined.

(** X10 on the nested store: the lookups of [z] from the inner block. *)
Lemma X10_witness :
  GetIsConst 8 nestedStore 3%nat "z" = Ok false /\
  IsAssignable 8 nestedStore 3%nat "z" = Ok true /\
  GetStaticTypeOf toyUverseValueAt 8 nestedStore 3%nat "z" = Ok (Some "int").
Proof.
  destruct (X10_lookups_from_nearest_declaration toyUverseValueAt 8 nestedStore
              3%nat "z" [3%nat; 2%nat; 1%nat] 0%nat node0)
    as (H1 & H2 & H3).
  - exact nestedStore_nearest_z.
  - simpl. lia.
  - rewrite H1, H2, H3. vm_compute. auto.
Defined.

(** X11 on the nested store: [w] is defined in the inner block and resolved
    from there. *)
Lemma X11_witness :
  exists sb' idx,
    Define2 false "w" (Some "int") (intValue 1) (sblock node3) = Ok sb' /\
    GetLocalIndex sb' "w" = (idx, true) /\
    GetPathForName 8 (<[3%nat := mkBlockNode KBlockStmt sb']> nestedStore) 3%nat "w" =
      Ok (<[3%nat := mkBlockNode KBlockStmt sb']> nestedStore,
          mkValuePath VPBlock 1 idx "w").
Proof.
  assert (Hd : exists sb',
             Define2 false "w" (Some "int") (intValue 1) (sblock node3) = Ok sb').
  { eexists. vm_compute. reflexivity. }
  destruct Hd as [sb' Hd].
  destruct (@X11_define_then_resolve toyTypes toyEnv 8 nestedStore 3%nat node3
              false "w"
              (Some "int") (intValue 1) sb') as (idx & Hi & Hg & _).
  - reflexivity.
  - discriminate.
  - exact Hd.
  - exists sb', idx. auto.
Defined.

(** X12 on the nested store: the blank identifier gets the blank path. *)
Lemma X12_witness :
  exists h' p,
    GetPathForName 8 nestedStore 3%nat "_" = Ok (h', p) /\
    (IsBlockBlankPath p = true <-> "_" = blankIdentifier).
Proof.
  assert (Hg : exists h' p, GetPathForName 8 nestedStore 3%nat "_" = Ok (h', p)).
  { eexists. eexists. vm_compute. reflexivity. }
  destruct Hg as (h' & p & Hg). exists h', p. split; [exact Hg |].
  exact (X12_blank_path_iff_blank_name 8 nestedStore 3%nat "_" h' p Hg).
Defined.

(** X13 on the nested store: the path of [z] leads back to the function
    declaration, and to the type and const status of [z] there. *)
Lemma X13_witness :
  exists h' p,
    GetPathForName 8 nestedStore 3%nat "z" = Ok (h', p) /\
    GetBlockNodeForPath h' 3%nat p = Ok (Some 0%nat) /\
    GetStaticTypeOfAt h' 3%nat p = Ok (Some "int") /\
    GetIsConstAt h' 3%nat p = Ok false.
Proof.
  assert (Hg : exists h' p, GetPathForName 8 nestedStore 3%nat "z" = Ok (h', p)).
  { eexists. eexists. vm_compute. reflexivity. }
  destruct Hg as (h' & p & Hg). exists h', p. split; [exact Hg |].
  destruct (X13_lookups_through_the_path 8 nestedStore 3%nat "z"
              [3%nat; 2%nat; 1%nat] 0%nat node0 h' p) as (H1 & H2 & H3).
  - exact nestedStore_inv.
  - exact nestedStore_self.
  - discriminate.
  - exact nestedStore_nearest_z.
  - reflexivity.
  - exact Hg.
  - rewrite H1, H2, H3. vm_compute. auto.
Defined.

(** X14 on the path of a field behind a pointer. *)
Lemma X14_witness :
  IsDerefType (mkValuePath VPDerefField 0 2 "f") = true <->
  exists base,
    base ∈ [VPField; VPValMethod; VPPtrMethod; VPInterface] /\
    Type_ (mkValuePath VPDerefField 0 2 "f") = 0x10 + base.
Proof.
  apply X14_IsDerefType_valid_paths. vm_compute. reflexivity.
Defined.

(** A directory with a text file and two source files, the second of another
    package. *)
Definition toyReadFile (path : string) : string + string :=
  if String.eqb path "missing.gno" then inl "no such file"
  else inr ("contents of " ++ path)%string.

Definition toyBase (path : string) : string := path.

Definition toyPackageName (fname body : string) : string + Name :=
  if String.eqb fname "a.gno" then inr "foo_test" else inr "bar".

Definition toyIsEmpty (memPkg : MemPackage) : bool := false.

(** X21 on that directory. *)
Lemma X21_witness :
  exists memPkg,
    ReadMemPackageFromList toyReadFile toyBase toyPackageName toyIsEmpty
      ["README.md"; "a.gno"; "b.gno"] "gno.land/p/foo" = inr memPkg /\
    MPPath memPkg = "gno.land/p/foo" /\
    Forall2 (fun path f => FName f = toyBase path /\
                           toyReadFile path = inr (FBody f))
            ["README.md"; "a.gno"; "b.gno"] (MPFiles memPkg).
Proof.
  assert (Hr : exists memPkg,
             ReadMemPackageFromList toyReadFile toyBase toyPackageName toyIsEmpty
               ["README.md"; "a.gno"; "b.gno"] "gno.land/p/foo" = inr memPkg).
  { eexists. vm_compute. reflexivity. }
  destruct Hr as [memPkg Hr]. exists memPkg. split; [exact Hr |].
  exact (X21_files_as_listed toyReadFile toyBase toyIsEmpty toyPackageName
           _ _ memPkg Hr).
Defined.

(** X22 on that directory: the package is [foo], whatever [b.gno] says. *)
Lemma X22_witness :
  (forall memPkg,
     ReadMemPackageFromList toyReadFile toyBase toyPackageName toyIsEmpty
       (["README.md"] ++ "a.gno" :: ["b.gno"]) "gno.land/p/foo" = inr memPkg ->
     MPName memPkg = "foo") /\
  (forall PN',
     PN' (toyBase "a.gno") "contents of a.gno" = inr "foo_test" ->
     ReadMemPackageFromList toyReadFile toyBase PN' toyIsEmpty
       (["README.md"] ++ "a.gno" :: ["b.gno"]) "gno.land/p/foo"
     = ReadMemPackageFromList toyReadFile toyBase toyPackageName toyIsEmpty
         (["README.md"] ++ "a.gno" :: ["b.gno"]) "gno.land/p/foo").
Proof.
  apply (X22_first_gno_file_names_the_package toyReadFile toyBase toyIsEmpty
           toyPackageName ["README.md"] "a.gno" ["b.gno"] "gno.land/p/foo"
           "contents of a.gno" "foo_test").
  - constructor; [reflexivity | constructor].
  - reflexivity.
  - reflexivity.
  - reflexivity.
  - discriminate.
Defined.

(** The name [cross] and a function [fn]. *)
Definition crossName : Expr :=
  NameExpr (mkValuePath 0 0 0 "") "cross" NameExprTypeNormal.

Definition fnName : Expr :=
  NameExpr (mkValuePath 0 0 0 "") "fn" NameExprTypeNormal.

(** X15 on the call [cross(fn)(1)] and on the call [fn(1)]. *)
Lemma X15_witness :
  SetWithCross
    (mkCallExpr (ECall (mkCallExpr (ConstExpr crossName) [fnName] false 1 false))
       [BasicLitExpr 0 "1"] false 1 false)
  = Ok (mkCallExpr (ECall (mkCallExpr (ConstExpr crossName) [fnName] false 1 false))
          [BasicLitExpr 0 "1"] false 1 true) /\
  SetWithCross (mkCallExpr fnName [BasicLitExpr 0 "1"] false 1 false)
  = Panic "expected cross(fn)(...)".
Proof.
  destruct X15_cross_call_form as (_ & _ & Hno & Hset & _).
  split.
  - apply Hset. reflexivity.
  - apply Hno. reflexivity.
Defined.

End ExtInstances.
